(** * Canny-style edge detection (edge_detector.cpp): model and verification

    The pipeline of [EdgeDetector] is embedded stage by stage:
    structure-tensor coefficients, eigen-angle magnitude and direction,
    non-maximum suppression, double thresholding with hysteresis growth,
    and the composite [process].

    Modelling decisions.
    - [float] and [double] values are real numbers ([R]): rounding,
      infinities and NaN are outside the model.  Properties that the
      rounding of a product or of a sum could falsify are stated for the
      integer derivative values of 8-bit images ([intDerivative]), on which
      the float arithmetic of the coefficient functions is exact, and for
      values far from overflow ([withinFloatRange]).  The one place where
      the source can produce NaN, the square root in the magnitude formula,
      is studied through its argument ([magnitudeRadicand]).
    - [static_cast<int>] is defined on the range of [int] only; [truncate]
      gives the value of the x86 conversion outside of it.
    - [cv::Mat] is modelled by what the code uses of it: [rows], [cols] and
      the pixel accessor [at<T>(y, x)], with [int] indices as [Z].  An image
      with several channels is the list of its planes; [at<float>] on it
      reads the interleaved buffer ([floatView]).
    - [uchar] mask pixels are integers; the code only ever stores 0 and 255.
    - [for] loops are folds over the index range; nested loops are nested
      folds threading the matrices being written.
    - The [do ... while (changed)] loop of [applyThresholding] takes fuel,
      one unit per pass, and returns [None] when it runs out.
    - OpenCV's filters ([cv::GaussianBlur], [cv::Sobel]) are parameters of
      the pipeline; [std::atan2] and [cv::minMaxLoc] are defined after their
      documentation. *)

From Stdlib Require Import Ascii String.
From Stdlib Require Import Reals ZArith List Bool Lia Lra Psatz Finite.
Import ListNotations.

Local Open Scope Z_scope.

(** ** Comparisons on floats, as booleans *)

Definition Rltb (a b : R) : bool := if Rlt_dec a b then true else false.
Definition Rleb (a b : R) : bool := if Rle_dec a b then true else false.
(** [a >= b] in the source. *)
Definition Rgeb (a b : R) : bool := Rleb b a.

(** ** cv::Mat *)

Record Mat (T : Type) : Type := mkMat {
  rows : Z;
  cols : Z;
  at_ : Z -> Z -> T
}.
Arguments mkMat {T} _ _ _.
Arguments rows {T} _.
Arguments cols {T} _.
Arguments at_ {T} _ _ _.

(** [cv::Mat::zeros(size, type)] *)
Definition zeros {T : Type} (zero : T) (r c : Z) : Mat T :=
  mkMat r c (fun _ _ => zero).

(** The assignment [m.at<T>(y, x) = v]. *)
Definition set_at {T : Type} (m : Mat T) (y x : Z) (v : T) : Mat T :=
  mkMat (rows m) (cols m)
        (fun y' x' => if (y' =? y) && (x' =? x) then v else at_ m y' x').

(** [0 <= y < rows] and [0 <= x < cols]. *)
Definition inside {T : Type} (m : Mat T) (y x : Z) : Prop :=
  0 <= y < rows m /\ 0 <= x < cols m.

(** ** for loops *)

(** The values taken by [i] in [for (int i = lo; i < hi; i++)]. *)
Definition range (lo hi : Z) : list Z :=
  map (fun k => lo + Z.of_nat k) (seq 0 (Z.to_nat (hi - lo))).

Definition forRange {S : Type} (lo hi : Z) (body : S -> Z -> S) (s : S) : S :=
  fold_left body (range lo hi) s.

(** The pairs [(y, x)] visited by a loop on [y] around a loop on [x], in the
    order of the visits (row-major). *)
Definition coords (ylo yhi xlo xhi : Z) : list (Z * Z) :=
  flat_map (fun y => map (pair y) (range xlo xhi)) (range ylo yhi).

(** ** Library functions *)

Definition CV_PI : R := PI.

(** [std::atan2(y, x)]: the angle of the point [(x, y)], in [(-PI, PI]];
    [atan2(0, 0) = 0]. *)
Definition atan2 (y x : R) : R :=
  if Rlt_dec 0 x then atan (y / x)
  else if Rlt_dec x 0 then
    (if Rle_dec 0 y then atan (y / x) + PI else atan (y / x) - PI)
  else if Rlt_dec 0 y then PI / 2
  else if Rlt_dec y 0 then - (PI / 2)
  else 0%R.

(** [std::pow(v, 2)] *)
Definition pow2 (v : R) : R := (v * v)%R.

(** The bounds of [int]. *)
Definition INT_MIN : Z := -2147483648.
Definition INT_MAX : Z := 2147483647.

(** [static_cast<int>] of a double: truncation towards zero when the
    truncated value fits in an [int], that is for [INT_MIN - 1 < r <
    INT_MAX + 1].  Outside that range the conversion is undefined; the value
    given here is the one the x86 conversion instruction delivers,
    [INT_MIN]. *)
Definition truncate (r : R) : Z :=
  if Rlt_dec (IZR INT_MIN - 1) r then
    if Rlt_dec r (IZR INT_MAX + 1) then
      if Rle_dec 0 r then Int_part r else - Int_part (- r)
    else INT_MIN
  else INT_MIN.

(** [cv::minMaxLoc(m, nullptr, &maxVal)]: the largest pixel of the grid
    (0 when the grid has no pixel). *)
Definition pixelValues {T : Type} (m : Mat T) : list T :=
  map (fun p => at_ m (fst p) (snd p)) (coords 0 (rows m) 0 (cols m)).

Definition minMaxLoc_maxVal (m : Mat R) : R :=
  match pixelValues m with
  | [] => 0%R
  | v :: vs => fold_left Rmax vs v
  end.

(** ** edge_detector.cpp *)

Definition calculateGaussianKernelSize (sigma : R) : Z :=
  Z.max 3 (Z.lor (truncate (6 * sigma + 1)) 1).

(** The three output matrices [gxx], [gyy], [gxy] of the coefficient
    functions. *)
Definition Coefficients : Type := (Mat R * Mat R * Mat R)%type.

(** The products are those of real numbers; the source rounds each of them
    to [float], which leaves them unchanged when the derivatives are
    integers below 2^12 in absolute value. *)
Definition computeCoefficientsGray (gradientX gradientY : Mat R) : Coefficients :=
  let gxx := zeros 0%R (rows gradientX) (cols gradientX) in
  let gyy := zeros 0%R (rows gradientX) (cols gradientX) in
  let gxy := zeros 0%R (rows gradientX) (cols gradientX) in
  forRange 0 (rows gradientX) (fun s y =>
    forRange 0 (cols gradientX) (fun s x =>
      let '(gxx, gyy, gxy) := s in
      let dRdx := at_ gradientX y x in
      let dRdy := at_ gradientY y x in
      (set_at gxx y x (dRdx * dRdx)%R,
       set_at gyy y x (dRdy * dRdy)%R,
       set_at gxy y x (dRdx * dRdy)%R)) s)
    (gxx, gyy, gxy).

(** [gradientX[i]] of a [std::vector<cv::Mat>]; reading past the end is
    undefined in the source and yields an empty matrix here. *)
Definition channel (v : list (Mat R)) (i : nat) : Mat R :=
  nth i v (zeros 0%R 0 0).

(** The sums start from the zeros of [cv::Mat::zeros]; as in the grayscale
    function, products and sums are those of real numbers. *)
Definition computeCoefficientsColor (gradientX gradientY : list (Mat R)) : Coefficients :=
  let gxx := zeros 0%R (rows (channel gradientX 0)) (cols (channel gradientX 0)) in
  let gyy := zeros 0%R (rows (channel gradientX 0)) (cols (channel gradientX 0)) in
  let gxy := zeros 0%R (rows (channel gradientX 0)) (cols (channel gradientX 0)) in
  forRange 0 (rows (channel gradientX 0)) (fun s y =>
    forRange 0 (cols (channel gradientX 0)) (fun s x =>
      fold_left (fun s i =>
        let '(gxx, gyy, gxy) := s in
        (set_at gxx y x (at_ gxx y x + pow2 (at_ (channel gradientX i) y x))%R,
         set_at gyy y x (at_ gyy y x + pow2 (at_ (channel gradientY i) y x))%R,
         set_at gxy y x (at_ gxy y x
                         + at_ (channel gradientX i) y x * at_ (channel gradientY i) y x)%R))
        (seq 0 3) s) s)
    (gxx, gyy, gxy).

(** [sqrt] is the square root of real numbers, 0 on a negative argument,
    where [std::sqrt] returns NaN: what is said of a magnitude below comes
    with the sign of the argument ([magnitudeRadicand]). *)
Definition calculateGradientMagnitude (gxx gyy gxy : Mat R) : Mat R :=
  let magnitude := zeros 0%R (rows gxx) (cols gxx) in
  forRange 0 (rows gxx) (fun magnitude y =>
    forRange 0 (cols gxx) (fun magnitude x =>
      let numerator := (2 * at_ gxy y x)%R in
      let denominator := (at_ gxx y x - at_ gyy y x)%R in
      let theta := if Rltb denominator 0 then (CV_PI / 4.0)%R
                   else (0.5 * atan2 numerator denominator)%R in
      let cos2theta := cos (2 * theta) in
      let sin2theta := sin (2 * theta) in
      set_at magnitude y x
        (sqrt (0.5 * ((at_ gxx y x + at_ gyy y x)
                      + (at_ gxx y x - at_ gyy y x) * cos2theta
                      + 2 * at_ gxy y x * sin2theta))))
      magnitude)
    magnitude.

Definition calculateGradientDirection (gxx gyy gxy : Mat R) : Mat R :=
  let direction := zeros 0%R (rows gxx) (cols gxx) in
  forRange 0 (rows gxx) (fun direction y =>
    forRange 0 (cols gxx) (fun direction x =>
      let numerator := (2 * at_ gxy y x)%R in
      let denominator := (at_ gxx y x - at_ gyy y x)%R in
      set_at direction y x
        (if Rltb denominator 0 then (CV_PI / 4.0)%R
         else (0.5 * atan2 numerator denominator)%R))
      direction)
    direction.

Record GradientResult : Type := mkGradientResult {
  magnitude : Mat R;
  direction : Mat R
}.

(** The body of the loops of [applySuppression]: the value stored at pixel
    [(y, x)]. *)
Definition suppressedValue (gradients : GradientResult) (y x : Z) : R :=
  let angle := at_ (direction gradients) y x in
  let angleDeg := (angle * 180.0 / CV_PI)%R in
  let angleDeg := if Rltb angleDeg 0 then (angleDeg + 180.0)%R else angleDeg in
  let qr :=
    if (Rleb 0 angleDeg && Rltb angleDeg 22.5)
       || (Rleb 157.5 angleDeg && Rleb angleDeg 180) then
      (at_ (magnitude gradients) y (x + 1), at_ (magnitude gradients) y (x - 1))
    else if Rleb 22.5 angleDeg && Rltb angleDeg 67.5 then
      (at_ (magnitude gradients) (y + 1) (x - 1), at_ (magnitude gradients) (y - 1) (x + 1))
    else if Rleb 67.5 angleDeg && Rltb angleDeg 112.5 then
      (at_ (magnitude gradients) (y + 1) x, at_ (magnitude gradients) (y - 1) x)
    else if Rleb 112.5 angleDeg && Rltb angleDeg 157.5 then
      (at_ (magnitude gradients) (y - 1) (x - 1), at_ (magnitude gradients) (y + 1) (x + 1))
    else (255.0%R, 255.0%R) in
  if Rgeb (at_ (magnitude gradients) y x) (fst qr)
     && Rgeb (at_ (magnitude gradients) y x) (snd qr)
  then at_ (magnitude gradients) y x else 0%R.

Definition applySuppression (gradients : GradientResult) : Mat R :=
  let suppressed :=
    zeros 0%R (rows (magnitude gradients)) (cols (magnitude gradients)) in
  forRange 1 (rows (magnitude gradients) - 1) (fun suppressed y =>
    forRange 1 (cols (magnitude gradients) - 1) (fun suppressed x =>
      set_at suppressed y x (suppressedValue gradients y x))
      suppressed)
    suppressed.

(** The neighbour offsets of the hysteresis scan. *)
Definition dx : list Z := [-1; 0; 1; -1; 1; -1; 0; 1].
Definition dy : list Z := [-1; -1; -1; 0; 0; 1; 1; 1].

(** The first loop of [applyThresholding]: the [strong] and [weak] masks. *)
Definition classify (suppressed : Mat R) (highThr lowThr : R) : Mat Z * Mat Z :=
  let strong := zeros 0 (rows suppressed) (cols suppressed) in
  let weak := zeros 0 (rows suppressed) (cols suppressed) in
  forRange 0 (rows suppressed) (fun s y =>
    forRange 0 (cols suppressed) (fun s x =>
      let '(strong, weak) := s in
      let val := at_ suppressed y x in
      if Rgeb val highThr then (set_at strong y x 255, weak)
      else if Rgeb val lowThr then (strong, set_at weak y x 255)
      else (strong, weak)) s)
    (strong, weak).

(** The body of the scan at pixel [(y, x)]: the state is the mask [edges]
    being grown and the flag [changed]. *)
Definition scanPixel (weak : Mat Z) (s : Mat Z * bool) (y x : Z) : Mat Z * bool :=
  let '(edges, changed) := s in
  if (at_ weak y x =? 255) && (at_ edges y x =? 0) then
    if existsb (fun i => at_ edges (y + nth i dy 0) (x + nth i dx 0) =? 255) (seq 0 8)
    then (set_at edges y x 255, true)
    else (edges, changed)
  else (edges, changed).

(** One execution of the body of [do ... while (changed)]. *)
Definition scanPass (weak edges : Mat Z) : Mat Z * bool :=
  forRange 1 (rows edges - 1) (fun s y =>
    forRange 1 (cols edges - 1) (fun s x => scanPixel weak s y x) s)
    (edges, false).

(** The [do ... while (changed)] loop. *)
Fixpoint growEdges (fuel : nat) (weak edges : Mat Z) : option (Mat Z) :=
  match fuel with
  | O => None
  | S fuel' =>
      let '(edges', changed) := scanPass weak edges in
      if changed then growEdges fuel' weak edges' else Some edges'
  end.

(** The two thresholds are products of real numbers; the source rounds
    them to [float]. *)
Definition applyThresholding (fuel : nat) (suppressed : Mat R)
    (lowThreshold highThreshold : R) : option (Mat Z) :=
  let maxVal := minMaxLoc_maxVal suppressed in
  let highThr := (highThreshold * maxVal)%R in
  let lowThr := (lowThreshold * maxVal)%R in
  let '(strong, weak) := classify suppressed highThr lowThr in
  let edges := strong in
  growEdges fuel weak edges.

(** An image is the list of its channel planes, as [cv::split] returns them:
    one plane for a grayscale image, three for a colour image. *)
Definition Image : Type := list (Mat R).

(** [m.at<float>(y, x)] on a matrix of [n] channels of floats: the [x]-th
    float of row [y].  The channels of a pixel are stored next to each
    other, so this is channel [x mod n] of pixel [(y, x / n)]; on a
    single-channel matrix it is the pixel [(y, x)] itself. *)
Definition floatView (m : Image) : Mat R :=
  let n := Z.of_nat (length m) in
  mkMat (rows (channel m 0)) (cols (channel m 0))
        (fun y x => at_ (channel m (Z.to_nat (x mod n))) y (x / n)).

Record GradientParams : Type := mkGradientParams {
  source : Image;
  sigma : R;
  lowThreshold : R;
  highThreshold : R;
  isColor : bool
}.

Section Pipeline.

(** [cv::GaussianBlur(src, dst, cv::Size(k, k), sigma)], on one plane. *)
Variable GaussianBlur : Mat R -> Z -> R -> Mat R.
(** [cv::Sobel(src, dst, CV_32F, xorder, yorder, ksize)] *)
Variable Sobel : Mat R -> Z -> Z -> Z -> Mat R.

(** [convertTo(floatImage, CV_32F)] does not change a real number. *)
Definition applyGaussianBlur (source : Image) (sigma : R) : Image :=
  let kernelSize := calculateGaussianKernelSize sigma in
  map (fun plane => GaussianBlur plane kernelSize sigma) source.

(** [cv::Sobel] filters every plane of the image.  The function has no
    check on the number of channels: [computeCoefficientsGray] reads the
    derivatives through [at<float>] whatever that number is ([floatView]).
    An image without planes is an empty matrix, on which [cv::Sobel]
    fails ([None]). *)
Definition computeGrayGradients (image : Image) : option GradientResult :=
  match image with
  | [] => None
  | _ :: _ =>
      let gradientX := floatView (map (fun plane => Sobel plane 1 0 3) image) in
      let gradientY := floatView (map (fun plane => Sobel plane 0 1 3) image) in
      let '(gxx, gyy, gxy) := computeCoefficientsGray gradientX gradientY in
      Some (mkGradientResult (calculateGradientMagnitude gxx gyy gxy)
                             (calculateGradientDirection gxx gyy gxy))
  end.

(** [channels[i]] for [i < 3] is undefined on an image with fewer than
    three planes ([None]). *)
Definition computeColorGradients (image : Image) : option GradientResult :=
  match image with
  | _ :: _ :: _ :: _ =>
      let channels := image in
      let gradientX := map (fun i => Sobel (channel channels i) 1 0 3) (seq 0 3) in
      let gradientY := map (fun i => Sobel (channel channels i) 0 1 3) (seq 0 3) in
      let '(gxx, gyy, gxy) := computeCoefficientsColor gradientX gradientY in
      Some (mkGradientResult (calculateGradientMagnitude gxx gyy gxy)
                             (calculateGradientDirection gxx gyy gxy))
  | _ => None
  end.

Definition computeGradients (image : Image) (isColor : bool) : option GradientResult :=
  if isColor then computeColorGradients image else computeGrayGradients image.

Definition process (fuel : nat) (params : GradientParams) : option (Mat Z) :=
  let blurred := applyGaussianBlur (source params) (sigma params) in
  match computeGradients blurred (isColor params) with
  | Some gradients =>
      let suppressed := applySuppression gradients in
      applyThresholding fuel suppressed (lowThreshold params) (highThreshold params)
  | None => None
  end.

End Pipeline.

(** ** edge_detector_ui.cpp *)

(** [std::string], and a string literal of the source. *)
Definition std_string : Type := list ascii.
Definition literal (s : String.string) : std_string := String.list_ascii_of_string s.

(** [std::string::npos], and [size_t] addition, which wraps around. *)
Definition npos : Z := 2 ^ 64 - 1.
Definition size_t_add (a b : Z) : Z := (a + b) mod 2 ^ 64.

(** The characters of [" \n\r\t"]. *)
Definition blanks : std_string := [" "%char; "010"%char; "013"%char; "009"%char].

Definition oneOf (chars : std_string) (c : ascii) : bool :=
  existsb (Ascii.eqb c) chars.

(** [s.find_first_not_of(chars)]: the index of the first character of [s]
    that is not in [chars], [npos] when there is none. *)
Fixpoint first_not_of_from (pos : Z) (s chars : std_string) : Z :=
  match s with
  | [] => npos
  | c :: s' => if oneOf chars c then first_not_of_from (pos + 1) s' chars else pos
  end.
Definition find_first_not_of (s chars : std_string) : Z := first_not_of_from 0 s chars.

(** [s.find_last_not_of(chars)]: the index of the last character of [s] that
    is not in [chars], [npos] when there is none. *)
Fixpoint last_not_of_from (pos : Z) (s chars : std_string) (found : Z) : Z :=
  match s with
  | [] => found
  | c :: s' => last_not_of_from (pos + 1) s' chars (if oneOf chars c then found else pos)
  end.
Definition find_last_not_of (s chars : std_string) : Z := last_not_of_from 0 s chars npos.

(** [s.erase(pos, len)]: removes [min(len, size - pos)] characters from
    [pos]; throws [std::out_of_range] ([None]) when [pos > size]. *)
Definition erase (s : std_string) (pos len : Z) : option std_string :=
  let size := Z.of_nat (length s) in
  if size <? pos then None
  else Some (firstn (Z.to_nat pos) s
             ++ skipn (Z.to_nat (pos + Z.min len (size - pos))) s).

(** A [char] buffer read as a C string: the characters before the first NUL
    byte. *)
Fixpoint c_str (buffer : std_string) : std_string :=
  match buffer with
  | [] => []
  | c :: buffer' => if Ascii.eqb c zero then [] else c :: c_str buffer'
  end.

(** [selectImageFile], given what the pipe delivers: [None] when [popen]
    fails, otherwise the chunks of bytes [fgets] stores in [buffer] until
    the end of the output.  [result += buffer] appends the buffer as a C
    string. *)
Definition selectImageFile (pipe : option (list std_string)) : option std_string :=
  match pipe with
  | None => Some []
  | Some chunks =>
      let result := fold_left (fun result buffer => result ++ c_str buffer) chunks [] in
      match erase result 0 (find_first_not_of result blanks) with
      | None => None
      | Some result =>
          erase result (size_t_add (find_last_not_of result blanks) 1) npos
      end
  end.

(** [struct Parameters]: the positions of the three trackbars. *)
Record Parameters : Type := mkParameters {
  lowThresholdRatio : Z;
  highThresholdRatio : Z;
  sigmaValue : Z
}.

Definition LABEL_HEIGHT : Z := 30.

(** A pixel of a [CV_8UC3] matrix. *)
Definition BGR : Type := (Z * Z * Z)%type.

(** [cv::Rect(x, y, width, height)] *)
Record Rect : Type := mkRect {
  rect_x : Z;
  rect_y : Z;
  rect_width : Z;
  rect_height : Z
}.

Definition inRect (r : Rect) (y x : Z) : bool :=
  (rect_y r <=? y) && (y <? rect_y r + rect_height r)
  && (rect_x r <=? x) && (x <? rect_x r + rect_width r).

(** [m(rect)] makes a header on the pixels of [m]: a region is modelled by
    its rectangle in the matrix that owns the pixels.  The constructor
    asserts that the rectangle lies inside the matrix ([None] otherwise);
    [outer] is the rectangle of [m] itself when [m] is a region. *)
Definition region (outer r : Rect) : option Rect :=
  if (0 <=? rect_x r) && (0 <=? rect_width r)
     && (rect_x r + rect_width r <=? rect_width outer)
     && (0 <=? rect_y r) && (0 <=? rect_height r)
     && (rect_y r + rect_height r <=? rect_height outer)
  then Some (mkRect (rect_x outer + rect_x r) (rect_y outer + rect_y r)
                    (rect_width r) (rect_height r))
  else None.

Definition wholeRect {T : Type} (m : Mat T) : Rect := mkRect 0 0 (cols m) (rows m).

(** The pixels seen through a region. *)
Definition view {T : Type} (m : Mat T) (r : Rect) : Mat T :=
  mkMat (rect_height r) (rect_width r) (fun y x => at_ m (rect_y r + y) (rect_x r + x)).

(** Writing the pixels [v] through a region of [m]. *)
Definition store {T : Type} (m : Mat T) (r : Rect) (v : Mat T) : Mat T :=
  mkMat (rows m) (cols m)
        (fun y x => if inRect r y x then at_ v (y - rect_y r) (x - rect_x r)
                    else at_ m y x).

(** [src.copyTo(dst)] with [dst] a region of [m]: when the sizes agree the
    pixels are written through the region; otherwise [copyTo] gives [dst] a
    buffer of its own and [m] is unchanged. *)
Definition copyTo {T : Type} (src m : Mat T) (dst : Rect) : Mat T :=
  if (rows src =? rect_height dst) && (cols src =? rect_width dst)
  then store m dst src else m.

(** [cv::cvtColor(src, dst, cv::COLOR_GRAY2BGR)] *)
Definition cvtColor_GRAY2BGR (src : Mat Z) : Mat BGR :=
  mkMat (rows src) (cols src) (fun y x => (at_ src y x, at_ src y x, at_ src y x)).

(** The planes of an 8-bit image, as [process] receives them. *)
Definition planesOfGray (m : Mat Z) : Image :=
  [mkMat (rows m) (cols m) (fun y x => IZR (at_ m y x))].

Definition planesOfColor (m : Mat BGR) : Image :=
  [mkMat (rows m) (cols m) (fun y x => IZR (fst (fst (at_ m y x))));
   mkMat (rows m) (cols m) (fun y x => IZR (snd (fst (at_ m y x))));
   mkMat (rows m) (cols m) (fun y x => IZR (snd (at_ m y x)))].

Section Ui.

Variable GaussianBlur : Mat R -> Z -> R -> Mat R.
Variable Sobel : Mat R -> Z -> Z -> Z -> Mat R.
(** [cv::putText(img, text, cv::Point(x, y), ...)]: the pixels of [img]
    after drawing. *)
Variable putText : Mat BGR -> std_string -> Z -> Z -> Mat BGR.
(** The text the [std::stringstream] of the banner produces. *)
Variable bannerText : R -> R -> R -> std_string.

(** [processImages]: the fields [display] and [banner] it assigns. *)
Definition processImages (fuel : nat) (originalImage : Mat BGR) (grayImage : Mat Z)
    (params : Parameters) : option (Mat BGR * Mat BGR) :=
  let lowThr := (IZR (lowThresholdRatio params) / 100.0)%R in
  let highThr := (IZR (highThresholdRatio params) / 100.0)%R in
  let sigma := (IZR (sigmaValue params) / 10.0)%R in
  match process GaussianBlur Sobel fuel
          (mkGradientParams (planesOfGray grayImage) sigma lowThr highThr false) with
  | None => None
  | Some grayEdges =>
  match process GaussianBlur Sobel fuel
          (mkGradientParams (planesOfColor originalImage) sigma lowThr highThr true) with
  | None => None
  | Some colorEdges =>
  let rows := rows originalImage in
  let cols := cols originalImage in
  let display := mkMat (rows + LABEL_HEIGHT) (cols * 3) (fun _ _ => (0, 0, 0)) in
  match region (wholeRect display) (mkRect 0 0 (cols * 3) LABEL_HEIGHT),
        region (wholeRect display) (mkRect 0 LABEL_HEIGHT (cols * 3) rows) with
  | Some labelRegion, Some imageRegion =>
  let display := store display labelRegion
                   (putText (view display labelRegion) (literal "Original"%string)
                            (cols / 3) 20) in
  let display := store display labelRegion
                   (putText (view display labelRegion) (literal "Grayscale ED"%string)
                            (cols + cols / 3 - 20) 20) in
  let display := store display labelRegion
                   (putText (view display labelRegion) (literal "Color ED"%string)
                            (2 * cols + cols / 3 - 10) 20) in
  match region imageRegion (mkRect 0 0 cols rows),
        region imageRegion (mkRect cols 0 cols rows),
        region imageRegion (mkRect (cols * 2) 0 cols rows) with
  | Some regionOriginal, Some regionGray, Some regionColor =>
  let display := copyTo originalImage display regionOriginal in
  let grayEdgesColor := cvtColor_GRAY2BGR grayEdges in
  let colorEdgesColor := cvtColor_GRAY2BGR colorEdges in
  let display := copyTo grayEdgesColor display regionGray in
  let display := copyTo colorEdgesColor display regionColor in
  let banner := mkMat LABEL_HEIGHT (cols * 3) (fun _ _ => (0, 0, 0)) in
  let banner := putText banner (bannerText lowThr highThr sigma) 10 20 in
  Some (display, banner)
  | _, _, _ => None
  end
  | _, _ => None
  end
  end
  end.

End Ui.

(** ** Notions used to state the properties *)

(** The angle computed at a pixel, by both [calculateGradientMagnitude] and
    [calculateGradientDirection]. *)
Definition eigenAngle (gxx gyy gxy : R) : R :=
  let numerator := (2 * gxy)%R in
  let denominator := (gxx - gyy)%R in
  if Rltb denominator 0 then (CV_PI / 4.0)%R
  else (0.5 * atan2 numerator denominator)%R.

(** The argument of [std::sqrt] in [calculateGradientMagnitude]. *)
Definition magnitudeRadicand (gxx gyy gxy : R) : R :=
  let theta := eigenAngle gxx gyy gxy in
  (0.5 * ((gxx + gyy) + (gxx - gyy) * cos (2 * theta) + 2 * gxy * sin (2 * theta)))%R.

(** A pixel with a full 3x3 neighbourhood. *)
Definition interior {T : Type} (m : Mat T) (y x : Z) : Prop :=
  1 <= y < rows m - 1 /\ 1 <= x < cols m - 1.

(** A pixel of the outermost frame. *)
Definition onBorder {T : Type} (m : Mat T) (y x : Z) : Prop :=
  inside m y x /\ (y = 0 \/ y = rows m - 1 \/ x = 0 \/ x = cols m - 1).

(** The direction in degrees, negative angles shifted by 180. *)
Definition normalizedDegrees (angle : R) : R :=
  let deg := (angle * 180 / PI)%R in
  if Rlt_dec deg 0 then (deg + 180)%R else deg.

Inductive Sector : Type := Horizontal | AntiDiagonal | Vertical | MainDiagonal.

Definition inSector (deg : R) (s : Sector) : Prop :=
  match s with
  | Horizontal => (0 <= deg < 22.5 \/ 157.5 <= deg <= 180)%R
  | AntiDiagonal => (22.5 <= deg < 67.5)%R
  | Vertical => (67.5 <= deg < 112.5)%R
  | MainDiagonal => (112.5 <= deg < 157.5)%R
  end.

(** The two neighbours compared with pixel [(y, x)] in a sector. *)
Definition sectorNeighbours (s : Sector) (y x : Z) : (Z * Z) * (Z * Z) :=
  match s with
  | Horizontal => ((y, x + 1), (y, x - 1))
  | AntiDiagonal => ((y + 1, x - 1), (y - 1, x + 1))
  | Vertical => ((y + 1, x), (y - 1, x))
  | MainDiagonal => ((y - 1, x - 1), (y + 1, x + 1))
  end.

(** [(y', x')] is one of the eight pixels around [(y, x)]. *)
Definition adjacent8 (y x y' x' : Z) : Prop :=
  (y' <> y \/ x' <> x) /\ y - 1 <= y' <= y + 1 /\ x - 1 <= x' <= x + 1.

(** The pixels the growth loop accepts: the strong pixels, and the weak
    pixels among [scanned] that touch an accepted pixel. *)
Inductive Grown (scanned : Z -> Z -> Prop) (weak strong : Mat Z) : Z -> Z -> Prop :=
| grown_strong : forall y x,
    at_ strong y x = 255 -> Grown scanned weak strong y x
| grown_weak : forall y x y' x',
    scanned y x -> at_ weak y x = 255 ->
    adjacent8 y x y' x' -> Grown scanned weak strong y' x' ->
    Grown scanned weak strong y x.

(** Growth from the strong pixels through the weak pixels of the whole grid,
    as a flood fill would compute it. *)
Definition Reach8 (weak strong : Mat Z) : Z -> Z -> Prop :=
  Grown (inside weak) weak strong.

(** Growth as the source scans: only interior pixels are promoted. *)
Definition Accepted (weak strong : Mat Z) : Z -> Z -> Prop :=
  Grown (interior weak) weak strong.

(** The growth loop run over an arbitrary list of pixels instead of the
    row-major scan of the interior. *)
Definition scanOver (order : list (Z * Z)) (weak : Mat Z) (s : Mat Z * bool) : Mat Z * bool :=
  fold_left (fun s p => scanPixel weak s (fst p) (snd p)) order s.

Fixpoint growOver (order : list (Z * Z)) (fuel : nat) (weak edges : Mat Z) : option (Mat Z) :=
  match fuel with
  | O => None
  | S fuel' =>
      let '(edges', changed) := scanOver order weak (edges, false) in
      if changed then growOver order fuel' weak edges' else Some edges'
  end.

(** The mask after [n] executions of the body of the growth loop. *)
Fixpoint afterPasses (n : nat) (weak edges : Mat Z) : Mat Z :=
  match n with
  | O => edges
  | S n' => afterPasses n' weak (fst (scanPass weak edges))
  end.

(** The strong and weak masks [applyThresholding] computes. *)
Definition thresholdMasks (suppressed : Mat R) (lowThreshold highThreshold : R) : Mat Z * Mat Z :=
  classify suppressed (highThreshold * minMaxLoc_maxVal suppressed)%R
                      (lowThreshold * minMaxLoc_maxVal suppressed)%R.

(** A pass bound: the number of pixels of the grid. *)
Definition pixelCount {T : Type} (m : Mat T) : nat := Z.to_nat (rows m * cols m).

(** A loop body that only touches the pixel it visits: the new value of the
    pixel is [g] of its old value. *)
Definition LocalUpdate {T : Type} (body : Mat T -> Z * Z -> Mat T)
    (g : Z -> Z -> T -> T) : Prop :=
  forall m p,
    rows (body m p) = rows m /\ cols (body m p) = cols m /\
    at_ (body m p) (fst p) (snd p) = g (fst p) (snd p) (at_ m (fst p) (snd p)) /\
    forall y x, (y, x) <> p -> at_ (body m p) y x = at_ m y x.

(** The test of [scanPixel]: the pixel is weak, not accepted yet, and one
    of its eight neighbours is accepted. *)
Definition promotes (weak edges : Mat Z) (y x : Z) : bool :=
  (at_ weak y x =? 255) && (at_ edges y x =? 0)
  && existsb (fun i => at_ edges (y + nth i dy 0) (x + nth i dx 0) =? 255) (seq 0 8).

(** A mask whose pixels are all 0 or 255. *)
Definition binary (m : Mat Z) : Prop :=
  forall y x, at_ m y x = 0 \/ at_ m y x = 255.

(** The number of pixels of [l] that are 0 in [m]: what is left to accept. *)
Definition zeroCount (l : list (Z * Z)) (m : Mat Z) : nat :=
  length (filter (fun p => at_ m (fst p) (snd p) =? 0) l).

(** A derivative value as [cv::Sobel] returns it on an 8-bit image: an
    integer of absolute value at most 4 * 255.  The products and sums the
    coefficient functions take of such values are integers below 2^24,
    which a [float] holds without rounding. *)
Definition intDerivative (v : R) : Prop :=
  exists n : Z, v = IZR n /\ -1020 <= n <= 1020.

(** A value of absolute value at most 10^30, far from the largest [float]
    (about 3.4 * 10^38): the sums the
    magnitude formula takes of such values do not overflow. *)
Definition withinFloatRange (v : R) : Prop :=
  (Rabs v <= 1000000000000000000000000000000)%R.

(** ** Sample filters and grids *)

(** A blur that leaves the plane unchanged, and the 3x3 Sobel operator with
    reflected borders: instances of the two OpenCV filters on which the
    pipeline can be run. *)
Definition identityBlur (m : Mat R) (ksize : Z) (sigma : R) : Mat R := m.

Definition reflect101 (n i : Z) : Z :=
  if i <? 0 then - i else if n <=? i then 2 * (n - 1) - i else i.

Definition sobel3 (m : Mat R) (xorder yorder ksize : Z) : Mat R :=
  mkMat (rows m) (cols m) (fun y x =>
    let px j i := at_ m (reflect101 (rows m) (y + j)) (reflect101 (cols m) (x + i)) in
    let nw := px (-1) (-1) in let n := px (-1) 0 in let ne := px (-1) 1 in
    let w := px 0 (-1) in let e := px 0 1 in
    let sw := px 1 (-1) in let s := px 1 0 in let se := px 1 1 in
    if xorder =? 1 then ((ne - nw) + 2 * (e - w) + (se - sw))%R
    else ((sw - nw) + 2 * (s - n) + (se - ne))%R).

(** A grid with the same value everywhere. *)
Definition uniform (r c : Z) (v : R) : Mat R := mkMat r c (fun _ _ => v).

(** A run of [process] on a 5x5 grayscale image of constant intensity 128,
    with the default parameters of the interface. *)
Definition flatImage : GradientParams :=
  mkGradientParams [uniform 5 5 128%R] 1.4%R 0.05%R 0.15%R false.

(** A 3x3 grid: 10 at the centre, 0 on the frame. *)
Definition peak : Mat R :=
  mkMat 3 3 (fun y x => if (y =? 1) && (x =? 1) then 10%R else 0%R).

(** A 4x3 grid: 10 and 6 at the two interior pixels, 0 on the frame. *)
Definition twoPeaks : Mat R :=
  mkMat 4 3 (fun y x =>
    if (y =? 1) && (x =? 1) then 10%R
    else if (y =? 2) && (x =? 1) then 6%R else 0%R).

(** Masks of a 3x5 grid whose middle row holds a chain: one strong pixel at
    column [seed] and weak pixels at the two other interior columns. *)
Definition chainStrong (seed : Z) : Mat Z :=
  mkMat 3 5 (fun y x => if (y =? 1) && (x =? seed) then 255 else 0).

Definition chainWeak (seed : Z) : Mat Z :=
  mkMat 3 5 (fun y x =>
    if (y =? 1) && (1 <=? x) && (x <=? 3) && negb (x =? seed) then 255 else 0).

(** The middle row of a mask of that grid. *)
Definition middleRow (m : Mat Z) : list Z := map (at_ m 1) (range 0 5).

(** The initial trackbar positions of [struct Parameters]. *)
Definition defaultParameters : Parameters := mkParameters 5 15 14.

(** A [putText] that draws nothing and an empty banner text, to run
    [processImages]. *)
Definition noText (img : Mat BGR) (text : std_string) (x y : Z) : Mat BGR := img.
Definition noBanner (lowThr highThr sigma : R) : std_string := [].

(** A 3x3 gradient result: magnitude 4 at the centre, 4 on its right, 1 on
    its left, direction 0 everywhere. *)
Definition ridge : GradientResult :=
  mkGradientResult
    (mkMat 3 3 (fun y x =>
       if (y =? 1) && (x =? 0) then 1%R
       else if (y =? 1) then 4%R else 0%R))
    (uniform 3 3 0%R).

(** * Properties *)

(** ** Comparisons *)

Lemma Rltb_true (a b : R) : Rltb a b = true <-> (a < b)%R.
Proof. unfold Rltb. destruct (Rlt_dec a b); split; intros; try easy. Qed.

Lemma Rltb_false (a b : R) : Rltb a b = false <-> (b <= a)%R.
Proof. unfold Rltb. destruct (Rlt_dec a b); split; intros; try easy; lra. Qed.

Lemma Rleb_true (a b : R) : Rleb a b = true <-> (a <= b)%R.
Proof. unfold Rleb. destruct (Rle_dec a b); split; intros; try easy. Qed.

Lemma Rleb_false (a b : R) : Rleb a b = false <-> (b < a)%R.
Proof. unfold Rleb. destruct (Rle_dec a b); split; intros; try easy; lra. Qed.

Lemma Rgeb_true (a b : R) : Rgeb a b = true <-> (b <= a)%R.
Proof. apply Rleb_true. Qed.

Lemma Rgeb_false (a b : R) : Rgeb a b = false <-> (a < b)%R.
Proof. apply Rleb_false. Qed.

(** ** Loops *)

Lemma in_range (lo hi i : Z) : In i (range lo hi) <-> lo <= i < hi.
Proof.
  unfold range. rewrite in_map_iff. split.
  - intros [k [<- Hk]]. apply in_seq in Hk. lia.
  - intros H. exists (Z.to_nat (i - lo)). split; [lia|].
    apply in_seq. lia.
Qed.

Lemma in_coords (ylo yhi xlo xhi y x : Z) :
  In (y, x) (coords ylo yhi xlo xhi) <-> ylo <= y < yhi /\ xlo <= x < xhi.
Proof.
  unfold coords. rewrite in_flat_map. split.
  - intros [y' [Hy Hx]]. apply in_map_iff in Hx as [x' [E Hx]].
    inversion E; subst. apply in_range in Hy, Hx. tauto.
  - intros [Hy Hx]. exists y. split; [now apply in_range|].
    apply in_map. now apply in_range.
Qed.

Lemma length_range (lo hi : Z) : length (range lo hi) = Z.to_nat (hi - lo).
Proof. unfold range. now rewrite length_map, length_seq. Qed.

Lemma length_coords (ylo yhi xlo xhi : Z) :
  length (coords ylo yhi xlo xhi) = (Z.to_nat (yhi - ylo) * Z.to_nat (xhi - xlo))%nat.
Proof.
  unfold coords. rewrite <- (length_range ylo yhi).
  induction (range ylo yhi) as [|y l IH]; simpl; [reflexivity|].
  now rewrite length_app, length_map, length_range, IH.
Qed.

Lemma NoDup_range (lo hi : Z) : NoDup (range lo hi).
Proof.
  unfold range. apply Injective_map_NoDup; [|apply seq_NoDup].
  intros a b. lia.
Qed.

Lemma NoDup_coords (ylo yhi xlo xhi : Z) : NoDup (coords ylo yhi xlo xhi).
Proof.
  unfold coords. pose proof (NoDup_range ylo yhi) as Hy.
  induction Hy as [|y l Hnin Hnd IH]; simpl; [constructor|].
  apply NoDup_app; [| exact IH |].
  - apply Injective_map_NoDup; [|apply NoDup_range].
    intros a b E. now inversion E.
  - intros [y' x'] H1 H2. apply in_map_iff in H1 as [x1 [E _]]. inversion E; subst.
    apply in_flat_map in H2 as [y2 [Hy2 Hx2]].
    apply in_map_iff in Hx2 as [x2 [E2 _]]. inversion E2; subst. contradiction.
Qed.

(** A loop on [y] around a loop on [x] visits [coords] in order. *)
Lemma forRange_nested {S : Type} (ylo yhi xlo xhi : Z) (body : S -> Z -> Z -> S) (s : S) :
  forRange ylo yhi (fun s y => forRange xlo xhi (fun s x => body s y x) s) s
  = fold_left (fun s p => body s (fst p) (snd p)) (coords ylo yhi xlo xhi) s.
Proof.
  unfold forRange, coords. revert s.
  induction (range ylo yhi) as [|y l IH]; intros s; simpl; [reflexivity|].
  rewrite fold_left_app, IH. f_equal.
  generalize (range xlo xhi). intros xs. revert s.
  induction xs as [|x xs IHx]; intros s; simpl; [reflexivity|]. apply IHx.
Qed.

(** A component of the state that the body updates on its own. *)
Lemma fold_left_proj {S A B : Type} (proj : S -> A) (body : S -> B -> S)
    (bodyA : A -> B -> A) (l : list B) (s : S) :
  (forall s b, proj (body s b) = bodyA (proj s) b) ->
  proj (fold_left body l s) = fold_left bodyA l (proj s).
Proof.
  intros H. revert s. induction l as [|b l IH]; intros s; simpl; [reflexivity|].
  now rewrite IH, H.
Qed.

(** ** Matrices *)

Lemma at_set_at_same {T : Type} (m : Mat T) (y x : Z) (v : T) :
  at_ (set_at m y x v) y x = v.
Proof. simpl. now rewrite !Z.eqb_refl. Qed.

Lemma at_set_at_other {T : Type} (m : Mat T) (y x y' x' : Z) (v : T) :
  (y', x') <> (y, x) -> at_ (set_at m y x v) y' x' = at_ m y' x'.
Proof.
  intros H. simpl.
  destruct (Z.eqb_spec y' y), (Z.eqb_spec x' x); simpl; try reflexivity.
  subst. contradiction.
Qed.

Lemma local_fold {T : Type} (body : Mat T -> Z * Z -> Mat T) (g : Z -> Z -> T -> T)
    (l : list (Z * Z)) :
  LocalUpdate body g -> NoDup l ->
  forall m,
    rows (fold_left body l m) = rows m /\ cols (fold_left body l m) = cols m /\
    (forall y x, In (y, x) l -> at_ (fold_left body l m) y x = g y x (at_ m y x)) /\
    (forall y x, ~ In (y, x) l -> at_ (fold_left body l m) y x = at_ m y x).
Proof.
  intros Hloc Hnd. induction Hnd as [|p l Hnin Hnd IH]; intros m; simpl.
  - repeat split; intros; try reflexivity. contradiction.
  - destruct (IH (body m p)) as (Hr & Hc & Hin & Hout).
    destruct (Hloc m p) as (Hr1 & Hc1 & Hp & Hq).
    repeat split.
    + congruence.
    + congruence.
    + intros y x [E | Hl].
      * subst p. rewrite Hout by exact Hnin. exact Hp.
      * rewrite Hin by exact Hl. f_equal. apply Hq. intros E. subst p. contradiction.
    + intros y x Hn. rewrite Hout by tauto. apply Hq. intros E. subst p. apply Hn. now left.
Qed.

(** A loop over [coords] that stores [f y x] in every pixel it visits. *)
Lemma fill_spec {T : Type} (f : Z -> Z -> T) (ylo yhi xlo xhi : Z) (m : Mat T) :
  let r := forRange ylo yhi (fun m y =>
             forRange xlo xhi (fun m x => set_at m y x (f y x)) m) m in
  rows r = rows m /\ cols r = cols m /\
  (forall y x, ylo <= y < yhi -> xlo <= x < xhi -> at_ r y x = f y x) /\
  (forall y x, ~ (ylo <= y < yhi /\ xlo <= x < xhi) -> at_ r y x = at_ m y x).
Proof.
  intros r. subst r.
  rewrite (forRange_nested ylo yhi xlo xhi (fun m y x => set_at m y x (f y x))).
  destruct (local_fold (fun m p => set_at m (fst p) (snd p) (f (fst p) (snd p)))
              (fun y x _ => f y x) (coords ylo yhi xlo xhi)) with (m := m)
    as (Hr & Hc & Hin & Hout).
  - intros m' [y x]. simpl fst; simpl snd. repeat split.
    + apply at_set_at_same.
    + intros y' x' Hne. now apply at_set_at_other.
  - apply NoDup_coords.
  - repeat split; try assumption.
    + intros y x Hy Hx. apply Hin. apply in_coords. tauto.
    + intros y x Hn. apply Hout. rewrite in_coords. exact Hn.
Qed.

(** ** Magnitude and direction, pixel by pixel *)

Lemma calculateGradientDirection_spec (gxx gyy gxy : Mat R) :
  rows (calculateGradientDirection gxx gyy gxy) = rows gxx /\
  cols (calculateGradientDirection gxx gyy gxy) = cols gxx /\
  forall y x, inside gxx y x ->
    at_ (calculateGradientDirection gxx gyy gxy) y x
    = eigenAngle (at_ gxx y x) (at_ gyy y x) (at_ gxy y x).
Proof.
  destruct (fill_spec
              (fun y x => eigenAngle (at_ gxx y x) (at_ gyy y x) (at_ gxy y x))
              0 (rows gxx) 0 (cols gxx) (zeros 0%R (rows gxx) (cols gxx)))
    as (Hr & Hc & Hin & _).
  repeat split.
  - exact Hr.
  - exact Hc.
  - intros y x [Hy Hx]. exact (Hin y x Hy Hx).
Qed.

Lemma calculateGradientMagnitude_spec (gxx gyy gxy : Mat R) :
  rows (calculateGradientMagnitude gxx gyy gxy) = rows gxx /\
  cols (calculateGradientMagnitude gxx gyy gxy) = cols gxx /\
  (forall y x, inside gxx y x ->
    at_ (calculateGradientMagnitude gxx gyy gxy) y x
    = sqrt (magnitudeRadicand (at_ gxx y x) (at_ gyy y x) (at_ gxy y x))) /\
  (forall y x, ~ inside gxx y x ->
    at_ (calculateGradientMagnitude gxx gyy gxy) y x = 0%R).
Proof.
  destruct (fill_spec
              (fun y x => sqrt (magnitudeRadicand (at_ gxx y x) (at_ gyy y x) (at_ gxy y x)))
              0 (rows gxx) 0 (cols gxx) (zeros 0%R (rows gxx) (cols gxx)))
    as (Hr & Hc & Hin & Hout).
  repeat split.
  - exact Hr.
  - exact Hc.
  - intros y x [Hy Hx]. exact (Hin y x Hy Hx).
  - intros y x Hn. exact (Hout y x Hn).
Qed.

(** ** Non-maximum suppression, pixel by pixel *)

Lemma applySuppression_spec (gradients : GradientResult) :
  rows (applySuppression gradients) = rows (magnitude gradients) /\
  cols (applySuppression gradients) = cols (magnitude gradients) /\
  (forall y x, interior (magnitude gradients) y x ->
    at_ (applySuppression gradients) y x = suppressedValue gradients y x) /\
  (forall y x, ~ interior (magnitude gradients) y x ->
    at_ (applySuppression gradients) y x = 0%R).
Proof.
  destruct (fill_spec (suppressedValue gradients)
              1 (rows (magnitude gradients) - 1) 1 (cols (magnitude gradients) - 1)
              (zeros 0%R (rows (magnitude gradients)) (cols (magnitude gradients))))
    as (Hr & Hc & Hin & Hout).
  repeat split.
  - exact Hr.
  - exact Hc.
  - intros y x [Hy Hx]. exact (Hin y x Hy Hx).
  - intros y x Hn. exact (Hout y x Hn).
Qed.

Lemma eigenAngle_fallback (gxx gyy gxy : R) :
  (gxx - gyy < 0)%R -> eigenAngle gxx gyy gxy = (PI / 4)%R.
Proof.
  intros H. unfold eigenAngle, CV_PI.
  rewrite (proj2 (Rltb_true _ _) H). lra.
Qed.

Lemma eigenAngle_atan2 (gxx gyy gxy : R) :
  ~ (gxx - gyy < 0)%R ->
  eigenAngle gxx gyy gxy = (0.5 * atan2 (2 * gxy) (gxx - gyy))%R.
Proof.
  intros H. unfold eigenAngle.
  rewrite (proj2 (Rltb_false _ _)) by lra. reflexivity.
Qed.

(** C4: at every pixel the direction is pi/4 when gxx - gyy < 0 and
    0.5 * atan2(2 gxy, gxx - gyy) otherwise; the magnitude is the square root
    of 0.5 * ((gxx + gyy) + (gxx - gyy) cos(2 theta) + 2 gxy sin(2 theta)) at
    that same theta; in particular the direction is pi/4 wherever
    gyy > gxx. *)
Theorem resolver_direction_and_magnitude (gxx gyy gxy : Mat R) (y x : Z) :
  inside gxx y x ->
  let a := at_ gxx y x in
  let b := at_ gyy y x in
  let c := at_ gxy y x in
  let theta := at_ (calculateGradientDirection gxx gyy gxy) y x in
  ((a - b < 0)%R -> theta = (PI / 4)%R) /\
  (~ (a - b < 0)%R -> theta = (0.5 * atan2 (2 * c) (a - b))%R) /\
  at_ (calculateGradientMagnitude gxx gyy gxy) y x
  = sqrt (0.5 * ((a + b) + (a - b) * cos (2 * theta) + 2 * c * sin (2 * theta))) /\
  ((b > a)%R -> theta = (PI / 4)%R).
Proof.
  intros Hin a b c theta.
  destruct (calculateGradientDirection_spec gxx gyy gxy) as (_ & _ & Hd).
  destruct (calculateGradientMagnitude_spec gxx gyy gxy) as (_ & _ & Hm & _).
  subst theta. rewrite (Hd y x Hin), (Hm y x Hin). fold a b c.
  repeat split.
  - apply eigenAngle_fallback.
  - apply eigenAngle_atan2.
  - intros H. apply eigenAngle_fallback. lra.
Qed.

Lemma resolver_direction_and_magnitude_witness :
  let gxx := uniform 1 1 0%R in
  let gyy := uniform 1 1 1%R in
  let gxy := uniform 1 1 (-5)%R in
  at_ (calculateGradientDirection gxx gyy gxy) 0 0 = (PI / 4)%R.
Proof.
  intros gxx gyy gxy.
  assert (Hin : inside gxx 0 0) by (unfold inside; simpl; lia).
  destruct (resolver_direction_and_magnitude gxx gyy gxy 0 0 Hin) as (_ & _ & _ & H).
  apply H. simpl. lra.
Defined.

(** ** Suppression *)

Lemma applySuppression_outside_interior (gradients : GradientResult) (y x : Z) :
  onBorder (applySuppression gradients) y x ->
  at_ (applySuppression gradients) y x = 0%R.
Proof.
  destruct (applySuppression_spec gradients) as (Hr & Hc & _ & Hout).
  intros [[Hy Hx] Hb]. apply Hout. unfold interior. rewrite Hr, Hc in *. lia.
Qed.

(** C5: for every input of at least 3x3 pixels, every pixel of the outermost
    frame of the grid returned by applySuppression is 0. *)
Theorem suppression_border_zero (gradients : GradientResult) (y x : Z) :
  3 <= rows (magnitude gradients) -> 3 <= cols (magnitude gradients) ->
  onBorder (applySuppression gradients) y x ->
  at_ (applySuppression gradients) y x = 0%R.
Proof.
  intros _ _. apply applySuppression_outside_interior.
Qed.

Lemma suppression_border_zero_witness :
  at_ (applySuppression ridge) 1 2 = 0%R.
Proof.
  apply (suppression_border_zero ridge 1 2).
  - simpl. lia.
  - simpl. lia.
  - unfold onBorder, inside.
    destruct (applySuppression_spec ridge) as (Hr & Hc & _). rewrite Hr, Hc.
    simpl. lia.
Defined.

Lemma normalizedDegrees_source (angle : R) :
  (if Rltb (angle * 180.0 / CV_PI) 0 then (angle * 180.0 / CV_PI + 180.0)%R
   else (angle * 180.0 / CV_PI)%R) = normalizedDegrees angle.
Proof.
  unfold normalizedDegrees, Rltb, CV_PI.
  replace 180.0%R with 180%R by lra.
  destruct (Rlt_dec (angle * 180 / PI) 0); reflexivity.
Qed.

(** Rewrites the comparisons that linear arithmetic decides. *)
Ltac decide_comparisons :=
  repeat match goal with
  | |- context [Rltb ?a ?b] =>
      first [ rewrite (proj2 (Rltb_true a b)) by lra
            | rewrite (proj2 (Rltb_false a b)) by lra ]
  | |- context [Rleb ?a ?b] =>
      first [ rewrite (proj2 (Rleb_true a b)) by lra
            | rewrite (proj2 (Rleb_false a b)) by lra ]
  end.

Lemma suppressedValue_sector (gradients : GradientResult) (y x : Z) (s : Sector) :
  inSector (normalizedDegrees (at_ (direction gradients) y x)) s ->
  let m := at_ (magnitude gradients) y x in
  let q := at_ (magnitude gradients) (fst (fst (sectorNeighbours s y x)))
                                     (snd (fst (sectorNeighbours s y x))) in
  let r := at_ (magnitude gradients) (fst (snd (sectorNeighbours s y x)))
                                     (snd (snd (sectorNeighbours s y x))) in
  suppressedValue gradients y x = if Rgeb m q && Rgeb m r then m else 0%R.
Proof.
  intros Hs m q r. unfold suppressedValue. cbv zeta.
  rewrite normalizedDegrees_source.
  subst m q r. revert Hs.
  generalize (normalizedDegrees (at_ (direction gradients) y x)). intros deg Hs.
  unfold Rgeb.
  destruct s; simpl in Hs; simpl sectorNeighbours; simpl fst; simpl snd.
  - destruct Hs as [Hs | Hs]; decide_comparisons; reflexivity.
  - decide_comparisons; reflexivity.
  - decide_comparisons; reflexivity.
  - decide_comparisons; reflexivity.
Qed.

(** C6: at every interior pixel applySuppression keeps the magnitude exactly
    when it is >= both neighbours selected by the sector of the direction
    (in degrees, negative angles shifted by 180): horizontal (x+1, x-1) on
    [0,22.5) and [157.5,180], (y+1,x-1)/(y-1,x+1) on [22.5,67.5), vertical
    (y+1, y-1) on [67.5,112.5), (y-1,x-1)/(y+1,x+1) on [112.5,157.5); it
    stores 0 otherwise.  Equal magnitudes survive. *)
Theorem suppression_keeps_local_maxima (gradients : GradientResult) (y x : Z) (s : Sector) :
  interior (magnitude gradients) y x ->
  inSector (normalizedDegrees (at_ (direction gradients) y x)) s ->
  let m := at_ (magnitude gradients) y x in
  let q := at_ (magnitude gradients) (fst (fst (sectorNeighbours s y x)))
                                     (snd (fst (sectorNeighbours s y x))) in
  let r := at_ (magnitude gradients) (fst (snd (sectorNeighbours s y x)))
                                     (snd (snd (sectorNeighbours s y x))) in
  ((m >= q /\ m >= r)%R -> at_ (applySuppression gradients) y x = m) /\
  (~ (m >= q /\ m >= r)%R -> at_ (applySuppression gradients) y x = 0%R).
Proof.
  intros Hin Hs m q r.
  destruct (applySuppression_spec gradients) as (_ & _ & Hv & _).
  rewrite (Hv y x Hin), (suppressedValue_sector gradients y x s Hs).
  fold m q r. unfold Rgeb, Rleb.
  destruct (Rle_dec q m), (Rle_dec r m); simpl; split; intros H;
    try reflexivity; try lra; exfalso; apply H; lra.
Qed.

Lemma normalizedDegrees_zero : normalizedDegrees 0 = 0%R.
Proof.
  unfold normalizedDegrees.
  replace (0 * 180 / PI)%R with 0%R by (unfold Rdiv; ring).
  destruct (Rlt_dec 0 0); [lra | reflexivity].
Qed.

Lemma suppression_keeps_local_maxima_witness :
  at_ (applySuppression ridge) 1 1 = 4%R.
Proof.
  assert (Hin : interior (magnitude ridge) 1 1) by (unfold interior; simpl; lia).
  assert (Hs : inSector (normalizedDegrees (at_ (direction ridge) 1 1)) Horizontal).
  { simpl at_. rewrite normalizedDegrees_zero. simpl. lra. }
  destruct (suppression_keeps_local_maxima ridge 1 1 Horizontal Hin Hs) as [Hkeep _].
  apply Hkeep. simpl. lra.
Defined.

(** ** The argument of the square root *)

Lemma magnitudeRadicand_fallback (gxx gyy gxy : R) :
  (gxx - gyy < 0)%R ->
  magnitudeRadicand gxx gyy gxy = (0.5 * (gxx + gyy + 2 * gxy))%R.
Proof.
  intros H. unfold magnitudeRadicand. rewrite (eigenAngle_fallback _ _ _ H).
  replace (2 * (PI / 4))%R with (PI / 2)%R by lra.
  rewrite cos_PI2, sin_PI2. lra.
Qed.

(** On the half-plane [0 <= x] the point [(x, y)] projects non-negatively
    on the direction of its own angle. *)
Lemma atan2_projection_nonneg (y x : R) :
  (0 <= x)%R -> (0 <= x * cos (atan2 y x) + y * sin (atan2 y x))%R.
Proof.
  intros Hx. unfold atan2.
  destruct (Rlt_dec 0 x) as [Hpos | Hnpos].
  - pose proof (atan_bound (y / x)) as [Hlo Hhi].
    assert (Hc : (0 < cos (atan (y / x)))%R) by (apply cos_gt_0; lra).
    assert (Hs : sin (atan (y / x)) = (y / x * cos (atan (y / x)))%R).
    { rewrite <- (tan_atan (y / x)) at 2. unfold tan. field. lra. }
    rewrite Hs.
    replace (x * cos (atan (y / x)) + y * (y / x * cos (atan (y / x))))%R
      with (cos (atan (y / x)) * ((x * x + y * y) / x))%R by (field; lra).
    apply Rmult_le_pos; [lra|].
    apply Rmult_le_pos; [nra|].
    left. now apply Rinv_0_lt_compat.
  - destruct (Rlt_dec x 0) as [Hneg | _]; [lra|].
    assert (x = 0%R) by lra. subst x.
    destruct (Rlt_dec 0 y) as [Hy | Hy].
    + rewrite sin_PI2. lra.
    + destruct (Rlt_dec y 0) as [Hy' | Hy'].
      * rewrite sin_neg, sin_PI2. lra.
      * rewrite sin_0. lra.
Qed.

Lemma magnitudeRadicand_nonneg (gxx gyy gxy : R) :
  (0 <= gxx + gyy)%R -> (0 <= gxx + gyy + 2 * gxy)%R ->
  (0 <= magnitudeRadicand gxx gyy gxy)%R.
Proof.
  intros Hsum Hsq.
  destruct (Rlt_dec (gxx - gyy) 0) as [Hneg | Hpos].
  - rewrite magnitudeRadicand_fallback by exact Hneg. lra.
  - unfold magnitudeRadicand. rewrite (eigenAngle_atan2 _ _ _ Hpos).
    replace (2 * (0.5 * atan2 (2 * gxy) (gxx - gyy)))%R
      with (atan2 (2 * gxy) (gxx - gyy)) by lra.
    pose proof (atan2_projection_nonneg (2 * gxy) (gxx - gyy)) as H.
    assert (0 <= gxx - gyy)%R by lra. specialize (H H0). lra.
Qed.

(** ** Structure-tensor coefficients, pixel by pixel *)

Lemma local_coords {T : Type} (body : Mat T -> Z * Z -> Mat T) (g : Z -> Z -> T -> T)
    (ylo yhi xlo xhi : Z) (m : Mat T) :
  LocalUpdate body g ->
  rows (fold_left body (coords ylo yhi xlo xhi) m) = rows m /\
  cols (fold_left body (coords ylo yhi xlo xhi) m) = cols m /\
  (forall y x, ylo <= y < yhi /\ xlo <= x < xhi ->
     at_ (fold_left body (coords ylo yhi xlo xhi) m) y x = g y x (at_ m y x)) /\
  (forall y x, ~ (ylo <= y < yhi /\ xlo <= x < xhi) ->
     at_ (fold_left body (coords ylo yhi xlo xhi) m) y x = at_ m y x).
Proof.
  intros Hloc.
  destruct (local_fold body g (coords ylo yhi xlo xhi) Hloc (NoDup_coords _ _ _ _) m)
    as (Hr & Hc & Hin & Hout).
  repeat split; try assumption.
  - intros y x H. apply Hin. now apply in_coords.
  - intros y x H. apply Hout. now rewrite in_coords.
Qed.

Lemma LocalUpdate_store {T : Type} (f : Z -> Z -> T) :
  LocalUpdate (fun m p => set_at m (fst p) (snd p) (f (fst p) (snd p)))
              (fun y x _ => f y x).
Proof.
  intros m [y x]. simpl fst; simpl snd. repeat split.
  - apply at_set_at_same.
  - intros y' x' Hne. now apply at_set_at_other.
Qed.

Lemma computeCoefficientsGray_spec (gradientX gradientY : Mat R) :
  let c := computeCoefficientsGray gradientX gradientY in
  rows (fst (fst c)) = rows gradientX /\ cols (fst (fst c)) = cols gradientX /\
  forall y x, inside gradientX y x ->
    at_ (fst (fst c)) y x = (at_ gradientX y x * at_ gradientX y x)%R /\
    at_ (snd (fst c)) y x = (at_ gradientY y x * at_ gradientY y x)%R /\
    at_ (snd c) y x = (at_ gradientX y x * at_ gradientY y x)%R.
Proof.
  intros c. subst c. unfold computeCoefficientsGray.
  rewrite (forRange_nested 0 (rows gradientX) 0 (cols gradientX)
             (fun s y x => let '(gxx, gyy, gxy) := s in
                (set_at gxx y x (at_ gradientX y x * at_ gradientX y x)%R,
                 set_at gyy y x (at_ gradientY y x * at_ gradientY y x)%R,
                 set_at gxy y x (at_ gradientX y x * at_ gradientY y x)%R))).
  set (z := zeros 0%R (rows gradientX) (cols gradientX)).
  rewrite (fold_left_proj (fun s : Coefficients => fst (fst s)) _
             (fun m p => set_at m (fst p) (snd p)
                           ((fun y x => at_ gradientX y x * at_ gradientX y x)%R (fst p) (snd p))))
    by (intros [[a b] c] p; reflexivity).
  rewrite (fold_left_proj (fun s : Coefficients => snd (fst s)) _
             (fun m p => set_at m (fst p) (snd p)
                           ((fun y x => at_ gradientY y x * at_ gradientY y x)%R (fst p) (snd p))))
    by (intros [[a b] c] p; reflexivity).
  rewrite (fold_left_proj (fun s : Coefficients => snd s) _
             (fun m p => set_at m (fst p) (snd p)
                           ((fun y x => at_ gradientX y x * at_ gradientY y x)%R (fst p) (snd p))))
    by (intros [[a b] c] p; reflexivity).
  simpl fst; simpl snd.
  destruct (local_coords _ _ 0 (rows gradientX) 0 (cols gradientX) z
              (LocalUpdate_store (fun y x => at_ gradientX y x * at_ gradientX y x)%R))
    as (Hr & Hc & Hxx & _).
  destruct (local_coords _ _ 0 (rows gradientX) 0 (cols gradientX) z
              (LocalUpdate_store (fun y x => at_ gradientY y x * at_ gradientY y x)%R))
    as (_ & _ & Hyy & _).
  destruct (local_coords _ _ 0 (rows gradientX) 0 (cols gradientX) z
              (LocalUpdate_store (fun y x => at_ gradientX y x * at_ gradientY y x)%R))
    as (_ & _ & Hxy & _).
  repeat split.
  - exact Hr.
  - exact Hc.
  - now apply Hxx.
  - now apply Hyy.
  - now apply Hxy.
Qed.

Lemma LocalUpdate_accumulate (e : nat -> Z -> Z -> R) :
  LocalUpdate
    (fun m p => fold_left (fun m i =>
        set_at m (fst p) (snd p) (at_ m (fst p) (snd p) + e i (fst p) (snd p))%R)
        (seq 0 3) m)
    (fun y x old => (old + e 0%nat y x + e 1%nat y x + e 2%nat y x)%R).
Proof.
  intros m [y x]. simpl. rewrite !Z.eqb_refl. simpl. repeat split.
  intros y' x' Hne.
  destruct (Z.eqb_spec y' y), (Z.eqb_spec x' x); simpl; try reflexivity.
  subst. contradiction.
Qed.

Lemma computeCoefficientsColor_spec (gradientX gradientY : list (Mat R)) :
  let c := computeCoefficientsColor gradientX gradientY in
  let X i y x := at_ (channel gradientX i) y x in
  let Y i y x := at_ (channel gradientY i) y x in
  rows (fst (fst c)) = rows (channel gradientX 0) /\
  cols (fst (fst c)) = cols (channel gradientX 0) /\
  forall y x, inside (channel gradientX 0) y x ->
    at_ (fst (fst c)) y x
    = (0 + pow2 (X 0%nat y x) + pow2 (X 1%nat y x) + pow2 (X 2%nat y x))%R /\
    at_ (snd (fst c)) y x
    = (0 + pow2 (Y 0%nat y x) + pow2 (Y 1%nat y x) + pow2 (Y 2%nat y x))%R /\
    at_ (snd c) y x
    = (0 + X 0%nat y x * Y 0%nat y x + X 1%nat y x * Y 1%nat y x
         + X 2%nat y x * Y 2%nat y x)%R.
Proof.
  intros c X Y. subst c. unfold computeCoefficientsColor.
  set (g0 := channel gradientX 0).
  rewrite (forRange_nested 0 (rows g0) 0 (cols g0)
             (fun s y x => fold_left (fun s i =>
                let '(gxx, gyy, gxy) := s in
                (set_at gxx y x (at_ gxx y x + pow2 (at_ (channel gradientX i) y x))%R,
                 set_at gyy y x (at_ gyy y x + pow2 (at_ (channel gradientY i) y x))%R,
                 set_at gxy y x (at_ gxy y x
                   + at_ (channel gradientX i) y x * at_ (channel gradientY i) y x)%R))
                (seq 0 3) s)).
  set (z := zeros 0%R (rows g0) (cols g0)).
  rewrite (fold_left_proj (fun s : Coefficients => fst (fst s)) _
             (fun m p => fold_left (fun m i =>
                set_at m (fst p) (snd p)
                  (at_ m (fst p) (snd p) + (fun i y x => pow2 (X i y x)) i (fst p) (snd p))%R)
                (seq 0 3) m))
    by (intros [[a b] c] p; reflexivity).
  rewrite (fold_left_proj (fun s : Coefficients => snd (fst s)) _
             (fun m p => fold_left (fun m i =>
                set_at m (fst p) (snd p)
                  (at_ m (fst p) (snd p) + (fun i y x => pow2 (Y i y x)) i (fst p) (snd p))%R)
                (seq 0 3) m))
    by (intros [[a b] c] p; reflexivity).
  rewrite (fold_left_proj (fun s : Coefficients => snd s) _
             (fun m p => fold_left (fun m i =>
                set_at m (fst p) (snd p)
                  (at_ m (fst p) (snd p)
                   + (fun i y x => X i y x * Y i y x)%R i (fst p) (snd p))%R)
                (seq 0 3) m))
    by (intros [[a b] c] p; reflexivity).
  simpl fst; simpl snd.
  destruct (local_coords _ _ 0 (rows g0) 0 (cols g0) z
              (LocalUpdate_accumulate (fun i y x => pow2 (X i y x))))
    as (Hr & Hc & Hxx & _).
  destruct (local_coords _ _ 0 (rows g0) 0 (cols g0) z
              (LocalUpdate_accumulate (fun i y x => pow2 (Y i y x))))
    as (_ & _ & Hyy & _).
  destruct (local_coords _ _ 0 (rows g0) 0 (cols g0) z
              (LocalUpdate_accumulate (fun i y x => X i y x * Y i y x)%R))
    as (_ & _ & Hxy & _).
  repeat split.
  - exact Hr.
  - exact Hc.
  - now apply Hxx.
  - now apply Hyy.
  - now apply Hxy.
Qed.

(** C3, on arbitrary coefficients: the argument of the square root is
    negative at gxx = 0, gyy = 1, gxy = -5 (fallback angle pi/4, value
    0.5 * (0 + 1 - 10)). *)
Lemma radicand_negative_off_tensor :
  (magnitudeRadicand 0 1 (-5) < 0)%R.
Proof.
  rewrite magnitudeRadicand_fallback by lra. lra.
Qed.

(** By branch: the fallback needs gxx + gyy + 2 gxy >= 0, the eigen-angle
    needs gxx + gyy >= 0. *)
Lemma magnitudeRadicand_nonneg_branch (gxx gyy gxy : R) :
  (gyy <= gxx -> 0 <= gxx + gyy)%R -> (gxx < gyy -> 0 <= gxx + gyy + 2 * gxy)%R ->
  (0 <= magnitudeRadicand gxx gyy gxy)%R.
Proof.
  intros Hsum Hsq.
  destruct (Rlt_dec (gxx - gyy) 0) as [Hneg | Hpos].
  - rewrite magnitudeRadicand_fallback by exact Hneg.
    assert (0 <= gxx + gyy + 2 * gxy)%R by (apply Hsq; lra). lra.
  - unfold magnitudeRadicand. rewrite (eigenAngle_atan2 _ _ _ Hpos).
    replace (2 * (0.5 * atan2 (2 * gxy) (gxx - gyy)))%R
      with (atan2 (2 * gxy) (gxx - gyy)) by lra.
    pose proof (atan2_projection_nonneg (2 * gxy) (gxx - gyy)) as H.
    assert (Hd : (0 <= gxx - gyy)%R) by lra. specialize (H Hd).
    assert (0 <= gxx + gyy)%R by (apply Hsum; lra). lra.
Qed.

Lemma intDerivative_products (u v : R) :
  intDerivative u -> intDerivative v ->
  withinFloatRange (u * u) /\ withinFloatRange (v * v) /\ withinFloatRange (u * v).
Proof.
  intros [n [-> Hn]] [k [-> Hk]]. unfold withinFloatRange.
  rewrite <- !mult_IZR, <- !abs_IZR.
  assert (Hbound : forall z, Z.abs z <= 1040400 -> (IZR (Z.abs z) <= 1000000000000000000000000000000)%R).
  { intros z Hz. apply IZR_le in Hz. lra. }
  split; [|split]; apply Hbound; nia.
Qed.

(** C3, amended: at a pixel of the resolver's input whose coefficients are
    far from overflow and satisfy gxx + gyy >= 0 where gxx >= gyy, and
    gxx + gyy + 2 * gxy >= 0 where gxx < gyy (the fallback to pi/4), the
    argument of the square root in the magnitude formula is non-negative,
    the magnitude is its square root and is >= 0.  The coefficients that
    computeCoefficientsGray and computeCoefficientsColor compute from
    integer derivative values of absolute value at most 1020 (8-bit images)
    are far from overflow and satisfy both inequalities. *)
Theorem magnitude_radicand_nonneg_when_sums_nonneg :
  (forall (gxx gyy gxy : Mat R) (y x : Z),
     inside gxx y x ->
     let a := at_ gxx y x in
     let b := at_ gyy y x in
     let c := at_ gxy y x in
     withinFloatRange a -> withinFloatRange b -> withinFloatRange c ->
     (b <= a -> 0 <= a + b)%R -> (a < b -> 0 <= a + b + 2 * c)%R ->
     let m := at_ (calculateGradientMagnitude gxx gyy gxy) y x in
     (0 <= magnitudeRadicand a b c)%R /\ m = sqrt (magnitudeRadicand a b c) /\
     (0 <= m)%R) /\
  (forall (gradientX gradientY : Mat R) (y x : Z),
     inside gradientX y x ->
     intDerivative (at_ gradientX y x) -> intDerivative (at_ gradientY y x) ->
     let t := computeCoefficientsGray gradientX gradientY in
     let a := at_ (fst (fst t)) y x in
     let b := at_ (snd (fst t)) y x in
     let c := at_ (snd t) y x in
     (withinFloatRange a /\ withinFloatRange b /\ withinFloatRange c) /\
     (0 <= a + b)%R /\ (0 <= a + b + 2 * c)%R) /\
  (forall (gradientX gradientY : list (Mat R)) (y x : Z),
     inside (channel gradientX 0) y x ->
     (forall i, (i < 3)%nat ->
        intDerivative (at_ (channel gradientX i) y x) /\
        intDerivative (at_ (channel gradientY i) y x)) ->
     let t := computeCoefficientsColor gradientX gradientY in
     let a := at_ (fst (fst t)) y x in
     let b := at_ (snd (fst t)) y x in
     let c := at_ (snd t) y x in
     (withinFloatRange a /\ withinFloatRange b /\ withinFloatRange c) /\
     (0 <= a + b)%R /\ (0 <= a + b + 2 * c)%R).
Proof.
  split; [|split].
  - intros gxx gyy gxy y x Hin a b c _ _ _ Hsum Hsq m.
    destruct (calculateGradientMagnitude_spec gxx gyy gxy) as (_ & _ & Hm & _).
    subst m. rewrite (Hm y x Hin). fold a b c.
    assert (Hrad : (0 <= magnitudeRadicand a b c)%R)
      by now apply magnitudeRadicand_nonneg_branch.
    split; [exact Hrad|]. split; [reflexivity|].
    apply sqrt_positivity. exact Hrad.
  - intros gradientX gradientY y x Hin HX HY t a b c.
    destruct (computeCoefficientsGray_spec gradientX gradientY) as (_ & _ & Hpx).
    fold t in Hpx. destruct (Hpx y x Hin) as (Hxx & Hyy & Hxy).
    subst a b c. rewrite Hxx, Hyy, Hxy.
    split; [now apply intDerivative_products|].
    set (u := at_ gradientX y x). set (v := at_ gradientY y x).
    pose proof (Rle_0_sqr u) as Hu. pose proof (Rle_0_sqr v) as Hv.
    pose proof (Rle_0_sqr (u + v)) as Huv. unfold Rsqr in *.
    split; lra.
  - intros gradientX gradientY y x Hin Hint t a b c.
    destruct (computeCoefficientsColor_spec gradientX gradientY) as (_ & _ & Hpx).
    fold t in Hpx. destruct (Hpx y x Hin) as (Hxx & Hyy & Hxy).
    subst a b c. rewrite Hxx, Hyy, Hxy. unfold pow2.
    destruct (Hint 0%nat ltac:(lia)) as [[n0 [E0 Hn0]] [k0 [F0 Hk0]]].
    destruct (Hint 1%nat ltac:(lia)) as [[n1 [E1 Hn1]] [k1 [F1 Hk1]]].
    destruct (Hint 2%nat ltac:(lia)) as [[n2 [E2 Hn2]] [k2 [F2 Hk2]]].
    split.
    + rewrite E0, E1, E2, F0, F1, F2. unfold withinFloatRange.
      rewrite <- !mult_IZR, <- !plus_IZR, <- !abs_IZR.
      assert (Hbound : forall z, Z.abs z <= 3121200 -> (IZR (Z.abs z) <= 1000000000000000000000000000000)%R).
      { intros z Hz. apply IZR_le in Hz. lra. }
      split; [|split]; apply Hbound; nia.
    + set (u0 := at_ (channel gradientX 0) y x). set (v0 := at_ (channel gradientY 0) y x).
      set (u1 := at_ (channel gradientX 1) y x). set (v1 := at_ (channel gradientY 1) y x).
      set (u2 := at_ (channel gradientX 2) y x). set (v2 := at_ (channel gradientY 2) y x).
      pose proof (Rle_0_sqr u0). pose proof (Rle_0_sqr v0). pose proof (Rle_0_sqr (u0 + v0)).
      pose proof (Rle_0_sqr u1). pose proof (Rle_0_sqr v1). pose proof (Rle_0_sqr (u1 + v1)).
      pose proof (Rle_0_sqr u2). pose proof (Rle_0_sqr v2). pose proof (Rle_0_sqr (u2 + v2)).
      unfold Rsqr in *. split; lra.
Qed.

Lemma magnitude_radicand_nonneg_when_sums_nonneg_witness :
  let m := at_ (calculateGradientMagnitude (uniform 1 1 1%R) (uniform 1 1 4%R)
                                           (uniform 1 1 (-2)%R)) 0 0 in
  (0 <= magnitudeRadicand 1 4 (-2))%R /\ m = sqrt (magnitudeRadicand 1 4 (-2)) /\
  (0 <= m)%R.
Proof.
  assert (Hin : inside (uniform 1 1 1%R) 0 0) by (unfold inside; simpl; lia).
  assert (Hrange : forall v : R, (-5 <= v <= 5)%R -> withinFloatRange v).
  { intros v Hv. unfold withinFloatRange. apply Rabs_le. lra. }
  apply (proj1 magnitude_radicand_nonneg_when_sums_nonneg
           (uniform 1 1 1%R) (uniform 1 1 4%R) (uniform 1 1 (-2)%R) 0 0 Hin);
    simpl; try (apply Hrange); lra.
Defined.

(** ** Classification into strong and weak pixels *)

Lemma LocalUpdate_conditional {T : Type} (c : Z -> Z -> bool) (v : T) :
  LocalUpdate (fun m p => if c (fst p) (snd p) then set_at m (fst p) (snd p) v else m)
              (fun y x old => if c y x then v else old).
Proof.
  intros m [y x]. simpl fst; simpl snd.
  destruct (c y x); repeat split; try reflexivity.
  - apply at_set_at_same.
  - intros y' x' Hne. now apply at_set_at_other.
Qed.

Lemma classify_spec (suppressed : Mat R) (highThr lowThr : R) :
  let strong := fst (classify suppressed highThr lowThr) in
  let weak := snd (classify suppressed highThr lowThr) in
  (rows strong = rows suppressed /\ cols strong = cols suppressed) /\
  (rows weak = rows suppressed /\ cols weak = cols suppressed) /\
  (forall y x, inside suppressed y x ->
     at_ strong y x = (if Rgeb (at_ suppressed y x) highThr then 255 else 0) /\
     at_ weak y x = (if negb (Rgeb (at_ suppressed y x) highThr)
                        && Rgeb (at_ suppressed y x) lowThr then 255 else 0)) /\
  (forall y x, ~ inside suppressed y x -> at_ strong y x = 0 /\ at_ weak y x = 0).
Proof.
  intros strong weak. subst strong weak. unfold classify.
  rewrite (forRange_nested 0 (rows suppressed) 0 (cols suppressed)
             (fun s y x => let '(strong, weak) := s in
                let val := at_ suppressed y x in
                if Rgeb val highThr then (set_at strong y x 255, weak)
                else if Rgeb val lowThr then (strong, set_at weak y x 255)
                else (strong, weak))).
  set (z := zeros 0 (rows suppressed) (cols suppressed)).
  rewrite (fold_left_proj (fun s : Mat Z * Mat Z => fst s) _
             (fun m p => if (fun y x => Rgeb (at_ suppressed y x) highThr) (fst p) (snd p)
                         then set_at m (fst p) (snd p) 255 else m)).
  2:{ intros [a b] p. simpl.
      destruct (Rgeb (at_ suppressed (fst p) (snd p)) highThr),
               (Rgeb (at_ suppressed (fst p) (snd p)) lowThr); reflexivity. }
  rewrite (fold_left_proj (fun s : Mat Z * Mat Z => snd s) _
             (fun m p => if (fun y x => negb (Rgeb (at_ suppressed y x) highThr)
                                        && Rgeb (at_ suppressed y x) lowThr) (fst p) (snd p)
                         then set_at m (fst p) (snd p) 255 else m)).
  2:{ intros [a b] p. simpl.
      destruct (Rgeb (at_ suppressed (fst p) (snd p)) highThr),
               (Rgeb (at_ suppressed (fst p) (snd p)) lowThr); reflexivity. }
  simpl fst; simpl snd.
  destruct (local_coords _ _ 0 (rows suppressed) 0 (cols suppressed) z
              (LocalUpdate_conditional
                 (fun y x => Rgeb (at_ suppressed y x) highThr) 255))
    as (Hr & Hc & Hin & Hout).
  destruct (local_coords _ _ 0 (rows suppressed) 0 (cols suppressed) z
              (LocalUpdate_conditional
                 (fun y x => negb (Rgeb (at_ suppressed y x) highThr)
                             && Rgeb (at_ suppressed y x) lowThr) 255))
    as (Hr' & Hc' & Hin' & Hout').
  repeat split; try assumption.
  - now apply Hin.
  - now apply Hin'.
  - now apply Hout.
  - now apply Hout'.
Qed.

Lemma classify_binary (suppressed : Mat R) (highThr lowThr : R) :
  binary (fst (classify suppressed highThr lowThr)).
Proof.
  intros y x.
  destruct (classify_spec suppressed highThr lowThr) as (_ & _ & Hin & Hout).
  assert (D : inside suppressed y x \/ ~ inside suppressed y x) by (unfold inside; lia).
  destruct D as [H | H].
  - destruct (Hin y x H) as [-> _]. destruct (Rgeb _ _); auto.
  - destruct (Hout y x H) as [-> _]. auto.
Qed.

(** ** The global maximum *)

Lemma fold_left_Rmax_init (vs : list R) (v : R) :
  (v <= fold_left Rmax vs v)%R.
Proof.
  revert v. induction vs as [|w vs IH]; intros v; simpl; [lra|].
  apply Rle_trans with (Rmax v w); [apply Rmax_l | apply IH].
Qed.

Lemma fold_left_Rmax_upper (vs : list R) (v u : R) :
  In u (v :: vs) -> (u <= fold_left Rmax vs v)%R.
Proof.
  revert v. induction vs as [|w vs IH]; intros v Hin; simpl.
  - destruct Hin as [E | []]. subst. lra.
  - destruct Hin as [E | [E | Hin]].
    + subst. apply Rle_trans with (Rmax u w); [apply Rmax_l | apply fold_left_Rmax_init].
    + subst. apply Rle_trans with (Rmax v u); [apply Rmax_r | apply fold_left_Rmax_init].
    + apply IH. now right.
Qed.

Lemma fold_left_Rmax_attained (vs : list R) (v : R) :
  In (fold_left Rmax vs v) (v :: vs).
Proof.
  revert v. induction vs as [|w vs IH]; intros v; simpl.
  - now left.
  - destruct (IH (Rmax v w)) as [E | Hin].
    + rewrite <- E. unfold Rmax. destruct (Rle_dec v w); auto.
    + right. now right.
Qed.

Lemma in_pixelValues {T : Type} (m : Mat T) (v : T) :
  In v (pixelValues m) <-> exists y x, inside m y x /\ at_ m y x = v.
Proof.
  unfold pixelValues. rewrite in_map_iff. split.
  - intros [[y x] [E Hin]]. apply in_coords in Hin. exists y, x. now split.
  - intros (y & x & Hin & E). exists (y, x). split; [exact E|]. now apply in_coords.
Qed.

Lemma maxVal_upper (m : Mat R) (y x : Z) :
  inside m y x -> (at_ m y x <= minMaxLoc_maxVal m)%R.
Proof.
  intros Hin. unfold minMaxLoc_maxVal.
  assert (H : In (at_ m y x) (pixelValues m)) by (apply in_pixelValues; eauto).
  destruct (pixelValues m) as [|v vs]; [contradiction|].
  now apply fold_left_Rmax_upper.
Qed.

(** The maximum of a grid is one of its pixels, or 0 on a grid without
    pixels. *)
Lemma maxVal_attained (m : Mat R) :
  (exists y x, inside m y x /\ at_ m y x = minMaxLoc_maxVal m)
  \/ ((forall y x, ~ inside m y x) /\ minMaxLoc_maxVal m = 0%R).
Proof.
  unfold minMaxLoc_maxVal.
  destruct (pixelValues m) as [|v vs] eqn:E.
  - right. split; [|reflexivity]. intros y x Hin.
    assert (H : In (at_ m y x) (pixelValues m)) by (apply in_pixelValues; eauto).
    rewrite E in H. contradiction.
  - left. apply in_pixelValues. rewrite E. apply fold_left_Rmax_attained.
Qed.

Lemma maxVal_nonneg (m : Mat R) :
  (forall y x, inside m y x -> (0 <= at_ m y x)%R) -> (0 <= minMaxLoc_maxVal m)%R.
Proof.
  intros H. destruct (maxVal_attained m) as [(y & x & Hin & <-) | [_ ->]].
  - now apply H.
  - lra.
Qed.

(** ** One scan of the growth loop *)

Lemma scanPixel_promotes (weak edges : Mat Z) (changed : bool) (y x : Z) :
  scanPixel weak (edges, changed) y x
  = if promotes weak edges y x then (set_at edges y x 255, true) else (edges, changed).
Proof.
  unfold scanPixel, promotes.
  destruct (at_ weak y x =? 255), (at_ edges y x =? 0); simpl; try reflexivity.
Qed.

(** The eight offsets [(dy[i], dx[i])] are the eight neighbours. *)
Lemma neighbour_accepted (edges : Mat Z) (y x : Z) :
  existsb (fun i => at_ edges (y + nth i dy 0) (x + nth i dx 0) =? 255) (seq 0 8) = true
  <-> exists y' x', adjacent8 y x y' x' /\ at_ edges y' x' = 255.
Proof.
  split.
  - intros H. apply existsb_exists in H as [i [Hi E]].
    apply in_seq in Hi. apply Z.eqb_eq in E.
    exists (y + nth i dy 0), (x + nth i dx 0). split; [|exact E].
    unfold adjacent8.
    do 8 (destruct i as [|i]; [simpl; lia|]). lia.
  - intros (y' & x' & (Hne & Hy & Hx) & E).
    apply existsb_exists.
    assert (Hi : exists i, (i < 8)%nat /\ y' = y + nth i dy 0 /\ x' = x + nth i dx 0).
    { assert (Dy : y' = y + -1 \/ y' = y + 0 \/ y' = y + 1) by lia.
      assert (Dx : x' = x + -1 \/ x' = x + 0 \/ x' = x + 1) by lia.
      destruct Dy as [Dy | [Dy | Dy]], Dx as [Dx | [Dx | Dx]].
      - exists 0%nat. simpl. lia.
      - exists 1%nat. simpl. lia.
      - exists 2%nat. simpl. lia.
      - exists 3%nat. simpl. lia.
      - lia.
      - exists 4%nat. simpl. lia.
      - exists 5%nat. simpl. lia.
      - exists 6%nat. simpl. lia.
      - exists 7%nat. simpl. lia. }
    destruct Hi as (i & Hi & Ey & Ex). exists i. split.
    + apply in_seq. lia.
    + apply Z.eqb_eq. now rewrite <- Ey, <- Ex.
Qed.

Lemma promotes_true (weak edges : Mat Z) (y x : Z) :
  promotes weak edges y x = true <->
  at_ weak y x = 255 /\ at_ edges y x = 0 /\
  exists y' x', adjacent8 y x y' x' /\ at_ edges y' x' = 255.
Proof.
  unfold promotes. rewrite !andb_true_iff, !Z.eqb_eq, neighbour_accepted. tauto.
Qed.

Lemma zeroCount_set_le (l : list (Z * Z)) (e : Mat Z) (y x : Z) :
  (zeroCount l (set_at e y x 255%Z) <= zeroCount l e)%nat.
Proof.
  unfold zeroCount. induction l as [|[qy qx] l IH]; simpl in *; [lia|].
  destruct (Z.eqb_spec qy y), (Z.eqb_spec qx x); simpl;
    destruct (at_ e qy qx =? 0); simpl; lia.
Qed.

Lemma zeroCount_set_lt (l : list (Z * Z)) (e : Mat Z) (y x : Z) :
  In (y, x) l -> at_ e y x = 0 ->
  (zeroCount l (set_at e y x 255%Z) < zeroCount l e)%nat.
Proof.
  intros Hin H0. induction l as [|[qy qx] l IH]; [contradiction|].
  pose proof (zeroCount_set_le l e y x) as Hle.
  unfold zeroCount in *. simpl in *.
  destruct Hin as [E | Hin].
  - inversion E; subst. rewrite !Z.eqb_refl, H0. simpl. lia.
  - specialize (IH Hin).
    destruct (Z.eqb_spec qy y), (Z.eqb_spec qx x); simpl;
      destruct (at_ e qy qx =? 0); simpl; lia.
Qed.

Lemma scanOver_cons (p : Z * Z) (order : list (Z * Z)) (weak : Mat Z) (s : Mat Z * bool) :
  scanOver (p :: order) weak s = scanOver order weak (scanPixel weak s (fst p) (snd p)).
Proof. reflexivity. Qed.

Lemma scanOver_dims (order : list (Z * Z)) (weak : Mat Z) (s : Mat Z * bool) :
  rows (fst (scanOver order weak s)) = rows (fst s) /\
  cols (fst (scanOver order weak s)) = cols (fst s).
Proof.
  revert s. induction order as [|[py px] l IH]; intros [e ch]; [now split|].
  rewrite scanOver_cons, scanPixel_promotes. simpl fst; simpl snd.
  destruct (promotes weak e py px); destruct (IH (set_at e py px 255, true));
    destruct (IH (e, ch)); split; assumption.
Qed.

(** No pixel is un-accepted by a scan. *)
Lemma scanOver_grows (order : list (Z * Z)) (weak : Mat Z) (s : Mat Z * bool) (y x : Z) :
  at_ (fst s) y x = 255 -> at_ (fst (scanOver order weak s)) y x = 255.
Proof.
  revert s. induction order as [|[py px] l IH]; intros [e ch] H; [exact H|].
  rewrite scanOver_cons, scanPixel_promotes. simpl fst; simpl snd.
  destruct (promotes weak e py px); apply IH; simpl in *; [|exact H].
  destruct (Z.eqb_spec y py), (Z.eqb_spec x px); simpl; auto.
Qed.

Lemma scanOver_binary (order : list (Z * Z)) (weak : Mat Z) (s : Mat Z * bool) :
  binary (fst s) -> binary (fst (scanOver order weak s)).
Proof.
  revert s. induction order as [|[py px] l IH]; intros [e ch] H; [exact H|].
  rewrite scanOver_cons, scanPixel_promotes. simpl fst; simpl snd.
  destruct (promotes weak e py px); apply IH; simpl in *; [|exact H].
  intros y x. simpl.
  destruct (Z.eqb_spec y py), (Z.eqb_spec x px); simpl; auto.
Qed.

(** Every pixel a scan accepts is grown from a strong pixel. *)
Lemma scanOver_sound (scanned : Z -> Z -> Prop) (strong : Mat Z)
    (order : list (Z * Z)) (weak : Mat Z) (s : Mat Z * bool) :
  (forall y x, In (y, x) order -> scanned y x) ->
  (forall y x, at_ (fst s) y x = 255 -> Grown scanned weak strong y x) ->
  forall y x, at_ (fst (scanOver order weak s)) y x = 255 -> Grown scanned weak strong y x.
Proof.
  revert s. induction order as [|[py px] l IH]; intros [e ch] Hord Hs; [exact Hs|].
  rewrite scanOver_cons, scanPixel_promotes. simpl fst; simpl snd.
  assert (Hl : forall y x, In (y, x) l -> scanned y x)
    by (intros; apply Hord; now right).
  destruct (promotes weak e py px) eqn:Hp; apply IH; try assumption.
  simpl in *. apply promotes_true in Hp as (Hw & _ & y' & x' & Hadj & Hq).
  intros y x.
  destruct (Z.eqb_spec y py), (Z.eqb_spec x px); simpl; try apply Hs.
  intros _. subst.
  apply grown_weak with (y' := y') (x' := x');
    [apply Hord; now left | exact Hw | exact Hadj | apply Hs; exact Hq].
Qed.

(** A scan that reports no change did not change the mask, and no pixel of
    the scan can be promoted. *)
Lemma scanOver_unchanged (order : list (Z * Z)) (weak : Mat Z) (s : Mat Z * bool) :
  snd (scanOver order weak s) = false ->
  fst (scanOver order weak s) = fst s /\ snd s = false /\
  forall y x, In (y, x) order -> promotes weak (fst s) y x = false.
Proof.
  revert s. induction order as [|[py px] l IH]; intros [e ch] H.
  - simpl in *. repeat split; auto. intros y x [].
  - rewrite scanOver_cons, scanPixel_promotes in H. simpl fst in H; simpl snd in H.
    rewrite scanOver_cons, scanPixel_promotes. simpl fst; simpl snd.
    destruct (promotes weak e py px) eqn:Hp.
    + destruct (IH _ H) as (_ & Hch & _). simpl in Hch. discriminate.
    + destruct (IH _ H) as (He & Hch & Hl). simpl in *.
      repeat split; auto.
      intros y x [E | Hin]; [inversion E; subst; exact Hp | now apply Hl].
Qed.

(** A scan that reports a change accepted a pixel that was 0. *)
Lemma scanOver_progress (counted order : list (Z * Z)) (weak : Mat Z) (s : Mat Z * bool) :
  (forall p, In p order -> In p counted) ->
  (zeroCount counted (fst (scanOver order weak s)) <= zeroCount counted (fst s))%nat /\
  (snd s = false -> snd (scanOver order weak s) = true ->
   (zeroCount counted (fst (scanOver order weak s)) < zeroCount counted (fst s))%nat).
Proof.
  revert s. induction order as [|[py px] l IH]; intros [e ch] Hsub.
  - simpl. split; [lia|]. intros -> H. discriminate.
  - rewrite scanOver_cons, scanPixel_promotes. simpl fst; simpl snd.
    assert (Hl : forall p, In p l -> In p counted) by (intros; apply Hsub; now right).
    destruct (promotes weak e py px) eqn:Hp.
    + destruct (IH (set_at e py px 255, true) Hl) as [Hle _]. simpl in Hle.
      apply promotes_true in Hp as (_ & H0 & _).
      assert (Hlt := zeroCount_set_lt counted e py px (Hsub _ (or_introl eq_refl)) H0).
      split; [lia|]. intros _ _. lia.
    + apply (IH (e, ch) Hl).
Qed.

(** ** The growth loop *)

(** With more fuel than pixels left to accept, the loop returns, and what it
    returns is the set grown from the strong pixels. *)
Lemma growOver_spec (scanned : Z -> Z -> Prop) (order : list (Z * Z)) (weak strong : Mat Z) :
  (forall y x, In (y, x) order <-> scanned y x) ->
  forall (fuel : nat) (edges : Mat Z),
    binary edges ->
    (forall y x, at_ strong y x = 255 -> at_ edges y x = 255) ->
    (forall y x, at_ edges y x = 255 -> Grown scanned weak strong y x) ->
    (zeroCount order edges < fuel)%nat ->
    exists mask,
      growOver order fuel weak edges = Some mask /\
      rows mask = rows edges /\ cols mask = cols edges /\
      binary mask /\
      (forall y x, at_ edges y x = 255 -> at_ mask y x = 255) /\
      (forall y x, at_ mask y x = 255 <-> Grown scanned weak strong y x).
Proof.
  intros Hord fuel.
  induction fuel as [|fuel IH]; intros edges Hbin Hstrong Hsound Hfuel; [lia|].
  simpl.
  pose proof (scanOver_dims order weak (edges, false)) as [Hr Hc].
  pose proof (scanOver_binary order weak (edges, false) Hbin) as Hbin'.
  pose proof (scanOver_sound scanned strong order weak (edges, false)
                (fun y x H => proj1 (Hord y x) H) Hsound) as Hsound'.
  pose proof (fun y x => scanOver_grows order weak (edges, false) y x) as Hgrow.
  pose proof (scanOver_progress order order weak (edges, false) (fun p H => H))
    as [_ Hlt].
  pose proof (scanOver_unchanged order weak (edges, false)) as Hsame.
  destruct (scanOver order weak (edges, false)) as [edges' changed].
  simpl in *. destruct changed.
  - specialize (Hlt eq_refl eq_refl).
    destruct (IH edges' Hbin') as (mask & Hrun & Hmr & Hmc & Hmb & Hmg & Hm); auto.
    + lia.
    + exists mask. repeat split; try congruence; auto; apply Hm.
  - destruct (Hsame eq_refl) as (-> & _ & Hstable).
    exists edges. repeat split; auto.
    intros G. induction G as [y x Hs | y x y' x' Hsc Hw Hadj _ IHG].
    + now apply Hstrong.
    + assert (Hp := Hstable y x (proj2 (Hord y x) Hsc)).
      destruct (Hbin y x) as [H0 | H255]; [|exact H255].
      assert (promotes weak edges y x = true); [|congruence].
      apply promotes_true. eauto 6.
Qed.

Lemma scanPass_scanOver (weak edges : Mat Z) :
  scanPass weak edges
  = scanOver (coords 1 (rows edges - 1) 1 (cols edges - 1)) weak (edges, false).
Proof.
  unfold scanPass, scanOver.
  apply (forRange_nested 1 (rows edges - 1) 1 (cols edges - 1)
           (fun s y x => scanPixel weak s y x)).
Qed.

(** The loop of the source is the loop over the interior in row-major
    order. *)
Lemma growEdges_growOver (fuel : nat) (weak edges : Mat Z) :
  growEdges fuel weak edges
  = growOver (coords 1 (rows edges - 1) 1 (cols edges - 1)) fuel weak edges.
Proof.
  revert edges. induction fuel as [|fuel IH]; intros edges; [reflexivity|].
  simpl. rewrite scanPass_scanOver.
  pose proof (scanOver_dims (coords 1 (rows edges - 1) 1 (cols edges - 1)) weak
                (edges, false)) as [Hr Hc].
  destruct (scanOver _ weak (edges, false)) as [edges' changed].
  simpl in Hr, Hc. destruct changed; [|reflexivity].
  now rewrite IH, Hr, Hc.
Qed.

Lemma zeroCount_le_length (l : list (Z * Z)) (m : Mat Z) :
  (zeroCount l m <= length l)%nat.
Proof. unfold zeroCount. apply filter_length_le. Qed.

(** The interior has no more pixels than the grid. *)
Lemma interior_le_pixelCount (r c : Z) :
  (length (coords 1 (r - 1) 1 (c - 1)) <= Z.to_nat (r * c))%nat.
Proof.
  rewrite length_coords.
  assert (D : r - 1 - 1 <= 0 \/ c - 1 - 1 <= 0 \/ (0 < r - 1 - 1 /\ 0 < c - 1 - 1)) by lia.
  destruct D as [D | [D | [Dr Dc]]].
  - replace (Z.to_nat (r - 1 - 1)) with 0%nat by lia. lia.
  - replace (Z.to_nat (c - 1 - 1)) with 0%nat by lia. lia.
  - rewrite <- Z2Nat.inj_mul by lia. apply Z2Nat.inj_le; nia.
Qed.

(** What [applyThresholding] returns: with more fuel than pixels it returns
    a mask of the dimensions of its input, binary, containing the strong
    pixels, whose accepted pixels are those grown from the strong pixels
    through interior weak pixels. *)
Lemma applyThresholding_spec (fuel : nat) (suppressed : Mat R) (low high : R) :
  (pixelCount suppressed < fuel)%nat ->
  let strong := fst (thresholdMasks suppressed low high) in
  let weak := snd (thresholdMasks suppressed low high) in
  exists mask,
    applyThresholding fuel suppressed low high = Some mask /\
    rows mask = rows suppressed /\ cols mask = cols suppressed /\
    binary mask /\
    (forall y x, at_ mask y x = 255 <-> Accepted weak strong y x).
Proof.
  intros Hfuel strong weak.
  unfold applyThresholding. fold (thresholdMasks suppressed low high).
  destruct (classify_spec suppressed (high * minMaxLoc_maxVal suppressed)%R
              (low * minMaxLoc_maxVal suppressed)%R)
    as ((Hsr & Hsc) & (Hwr & Hwc) & _).
  fold (thresholdMasks suppressed low high) in Hsr, Hsc, Hwr, Hwc.
  pose proof (classify_binary suppressed (high * minMaxLoc_maxVal suppressed)%R
                (low * minMaxLoc_maxVal suppressed)%R) as Hbin.
  fold (thresholdMasks suppressed low high) in Hbin.
  fold strong weak in Hsr, Hsc, Hwr, Hwc, Hbin.
  rewrite (surjective_pairing (thresholdMasks suppressed low high)).
  fold strong weak. rewrite growEdges_growOver.
  destruct (growOver_spec (interior weak)
              (coords 1 (rows strong - 1) 1 (cols strong - 1)) weak strong)
    with (fuel := fuel) (edges := strong)
    as (mask & Hrun & Hr & Hc & Hb & _ & Hm).
  - intros y x. rewrite in_coords. unfold interior. rewrite Hsr, Hsc, Hwr, Hwc. tauto.
  - exact Hbin.
  - auto.
  - intros y x H. now apply grown_strong.
  - eapply Nat.le_lt_trans; [apply zeroCount_le_length|].
    eapply Nat.le_lt_trans; [apply interior_le_pixelCount|].
    rewrite Hsr, Hsc. exact Hfuel.
  - exists mask. repeat split; try congruence; try apply Hm. exact Hb.
Qed.

Lemma applyThresholding_growEdges (fuel : nat) (suppressed : Mat R) (low high : R) :
  applyThresholding fuel suppressed low high
  = growEdges fuel (snd (thresholdMasks suppressed low high))
                   (fst (thresholdMasks suppressed low high)).
Proof.
  unfold applyThresholding. fold (thresholdMasks suppressed low high).
  now destruct (thresholdMasks suppressed low high).
Qed.

Lemma afterPasses_succ (n : nat) (weak edges : Mat Z) :
  afterPasses (S n) weak edges = fst (scanPass weak (afterPasses n weak edges)).
Proof.
  revert edges. induction n as [|n IH]; intros edges; [reflexivity|].
  change (afterPasses (S (S n)) weak edges)
    with (afterPasses (S n) weak (fst (scanPass weak edges))).
  now rewrite IH.
Qed.

Lemma scanPass_grows (weak edges : Mat Z) (y x : Z) :
  at_ edges y x = 255 -> at_ (fst (scanPass weak edges)) y x = 255.
Proof.
  intros H. rewrite scanPass_scanOver.
  now apply (scanOver_grows _ weak (edges, false)).
Qed.

(** The loop returns the mask reached after as many passes as it ran. *)
Lemma growEdges_passes (fuel : nat) (weak edges mask : Mat Z) :
  growEdges fuel weak edges = Some mask ->
  exists n, (n <= fuel)%nat /\ mask = afterPasses n weak edges.
Proof.
  revert edges. induction fuel as [|fuel IH]; intros edges H; [discriminate|].
  simpl in H. destruct (scanPass weak edges) as [edges' changed] eqn:E.
  destruct changed.
  - destruct (IH _ H) as (n & Hn & ->). exists (S n). split; [lia|].
    simpl. now rewrite E.
  - inversion H; subst. exists 1%nat. split; [lia|]. simpl. now rewrite E.
Qed.

(** The scan is in place: a chain to the right of the seed is accepted in
    the first pass, a chain to its left takes one pass per pixel. *)
Example growEdges_chain_rightwards :
  option_map middleRow (growEdges 2 (chainWeak 1) (chainStrong 1))
  = Some [0; 255; 255; 255; 0].
Proof. reflexivity. Qed.

Example growEdges_chain_leftwards :
  option_map middleRow (growEdges 3 (chainWeak 3) (chainStrong 3))
  = Some [0; 255; 255; 255; 0].
Proof. reflexivity. Qed.

Example growEdges_chain_leftwards_short_of_fuel :
  option_map middleRow (growEdges 2 (chainWeak 3) (chainStrong 3)) = None.
Proof. reflexivity. Qed.

(** C7: in the growth phase of applyThresholding the accepted set after a
    pass contains the accepted set before it, and the loop terminates: with
    one unit of fuel per pass, more fuel than the grid has pixels always
    yields a mask, the one reached after the passes that were run. *)
Theorem hysteresis_grows_and_terminates (suppressed : Mat R) (low high : R) :
  let strong := fst (thresholdMasks suppressed low high) in
  let weak := snd (thresholdMasks suppressed low high) in
  (forall n y x,
     at_ (afterPasses n weak strong) y x = 255 ->
     at_ (afterPasses (S n) weak strong) y x = 255) /\
  (forall fuel, (pixelCount suppressed < fuel)%nat ->
     exists mask n,
       applyThresholding fuel suppressed low high = Some mask /\
       (n <= fuel)%nat /\ mask = afterPasses n weak strong).
Proof.
  intros strong weak. split.
  - intros n y x H. rewrite afterPasses_succ. now apply scanPass_grows.
  - intros fuel Hfuel.
    destruct (applyThresholding_spec fuel suppressed low high Hfuel)
      as (mask & Hrun & _).
    exists mask.
    rewrite applyThresholding_growEdges in Hrun.
    destruct (growEdges_passes _ _ _ _ Hrun) as (n & Hn & Hmask).
    exists n. rewrite applyThresholding_growEdges. auto.
Qed.

Lemma pixelCount_peak : (pixelCount peak < 10)%nat.
Proof. unfold pixelCount. simpl. lia. Qed.

Lemma hysteresis_grows_and_terminates_witness :
  exists mask n,
    applyThresholding 10 peak 0 0.5 = Some mask /\ (n <= 10)%nat /\
    mask = afterPasses n (snd (thresholdMasks peak 0 0.5)) (fst (thresholdMasks peak 0 0.5)).
Proof.
  exact (proj2 (hysteresis_grows_and_terminates peak 0 0.5) 10%nat pixelCount_peak).
Defined.

(** ** The strong and weak masks *)

Lemma thresholdMasks_dims (suppressed : Mat R) (low high : R) :
  rows (fst (thresholdMasks suppressed low high)) = rows suppressed /\
  cols (fst (thresholdMasks suppressed low high)) = cols suppressed /\
  rows (snd (thresholdMasks suppressed low high)) = rows suppressed /\
  cols (snd (thresholdMasks suppressed low high)) = cols suppressed.
Proof.
  unfold thresholdMasks.
  destruct (classify_spec suppressed (high * minMaxLoc_maxVal suppressed)%R
              (low * minMaxLoc_maxVal suppressed)%R) as ((? & ?) & (? & ?) & _).
  auto.
Qed.

Lemma strong_iff (suppressed : Mat R) (low high : R) (y x : Z) :
  at_ (fst (thresholdMasks suppressed low high)) y x = 255 <->
  inside suppressed y x /\
  (at_ suppressed y x >= high * minMaxLoc_maxVal suppressed)%R.
Proof.
  unfold thresholdMasks.
  destruct (classify_spec suppressed (high * minMaxLoc_maxVal suppressed)%R
              (low * minMaxLoc_maxVal suppressed)%R) as (_ & _ & Hin & Hout).
  assert (D : inside suppressed y x \/ ~ inside suppressed y x) by (unfold inside; lia).
  destruct D as [H | H].
  - destruct (Hin y x H) as [-> _].
    destruct (Rgeb _ _) eqn:E.
    + apply Rgeb_true in E. split; [intros _; split; [assumption | lra] | reflexivity].
    + apply Rgeb_false in E. split; [discriminate | intros [_ ?]; lra].
  - destruct (Hout y x H) as [-> _]. split; [discriminate | tauto].
Qed.

Lemma weak_iff (suppressed : Mat R) (low high : R) (y x : Z) :
  at_ (snd (thresholdMasks suppressed low high)) y x = 255 <->
  inside suppressed y x /\
  (at_ suppressed y x < high * minMaxLoc_maxVal suppressed)%R /\
  (at_ suppressed y x >= low * minMaxLoc_maxVal suppressed)%R.
Proof.
  unfold thresholdMasks.
  destruct (classify_spec suppressed (high * minMaxLoc_maxVal suppressed)%R
              (low * minMaxLoc_maxVal suppressed)%R) as (_ & _ & Hin & Hout).
  assert (D : inside suppressed y x \/ ~ inside suppressed y x) by (unfold inside; lia).
  destruct D as [H | H].
  - destruct (Hin y x H) as [_ ->].
    destruct (Rgeb (at_ suppressed y x) (high * _)) eqn:E1;
      [apply Rgeb_true in E1 | apply Rgeb_false in E1];
      (destruct (Rgeb (at_ suppressed y x) (low * _)) eqn:E2;
       [apply Rgeb_true in E2 | apply Rgeb_false in E2]); simpl.
    + split; [discriminate | intros (_ & ? & ?); lra].
    + split; [discriminate | intros (_ & ? & ?); lra].
    + split; [intros _ | reflexivity]. split; [assumption | split; lra].
    + split; [discriminate | intros (_ & ? & ?); lra].
  - destruct (Hout y x H) as [_ ->]. split; [discriminate | tauto].
Qed.

Lemma maxVal_unique (m : Mat R) (y x : Z) :
  inside m y x ->
  (forall y' x', inside m y' x' -> (at_ m y' x' <= at_ m y x)%R) ->
  minMaxLoc_maxVal m = at_ m y x.
Proof.
  intros Hin Hmax. pose proof (maxVal_upper m y x Hin) as Hup.
  destruct (maxVal_attained m) as [(y' & x' & Hin' & E) | [Hempty _]].
  - specialize (Hmax y' x' Hin'). lra.
  - now destruct (Hempty y x).
Qed.

Lemma maxVal_peak : minMaxLoc_maxVal peak = 10%R.
Proof.
  rewrite (maxVal_unique peak 1 1); [reflexivity | unfold inside; simpl; lia |].
  intros y' x' _. simpl.
  destruct ((y' =? 1) && (x' =? 1)); lra.
Qed.

(** ** Growth and reachability *)

(** C8 as stated fails on [peak] with ratios 0 and 0.5: the corner pixel is
    weak and touches the strong centre, so growth by 8-adjacency through weak
    pixels reaches it, but the scan never visits the frame and the mask is 0
    there. *)
Lemma growth_never_promotes_the_frame :
  exists mask,
    applyThresholding 10 peak 0 0.5 = Some mask /\
    at_ mask 0 0 = 0 /\
    Reach8 (snd (thresholdMasks peak 0 0.5)) (fst (thresholdMasks peak 0 0.5)) 0 0.
Proof.
  destruct (applyThresholding_spec 10 peak 0 0.5 pixelCount_peak)
    as (mask & Hrun & _ & _ & Hbin & Hm).
  exists mask. split; [exact Hrun|]. split.
  - destruct (Hbin 0 0) as [H | H]; [exact H|].
    apply Hm in H. inversion H as [y x Hs | y x y' x' Hint]; subst.
    + apply strong_iff in Hs as [_ Hs]. rewrite maxVal_peak in Hs. simpl in Hs. lra.
    + unfold interior in Hint. lia.
  - apply grown_weak with (y' := 1) (x' := 1).
    + destruct (thresholdMasks_dims peak 0 0.5) as (_ & _ & Hr & Hc).
      unfold inside. rewrite Hr, Hc. simpl. lia.
    + apply weak_iff. rewrite maxVal_peak. unfold inside. simpl. repeat split; lia || lra.
    + unfold adjacent8. lia.
    + apply grown_strong. apply strong_iff. rewrite maxVal_peak.
      unfold inside. simpl. repeat split; lia || lra.
Qed.

(** C8, amended: the mask returned by applyThresholding is exactly the set
    grown from the strong pixels through 8-adjacent weak pixels of the
    interior (pixels of the outer frame are accepted only when strong), and
    running the growth loop over the interior pixels in any other order
    returns the same mask. *)
Theorem hysteresis_is_interior_growth (fuel : nat) (suppressed : Mat R) (low high : R) :
  (pixelCount suppressed < fuel)%nat ->
  let strong := fst (thresholdMasks suppressed low high) in
  let weak := snd (thresholdMasks suppressed low high) in
  exists mask,
    applyThresholding fuel suppressed low high = Some mask /\
    (forall y x, at_ mask y x = 255 <-> Accepted weak strong y x) /\
    (forall order : list (Z * Z),
       (forall y x, In (y, x) order <-> interior weak y x) ->
       exists mask',
         growOver order (S (length order)) weak strong = Some mask' /\
         forall y x, at_ mask' y x = at_ mask y x).
Proof.
  intros Hfuel strong weak.
  destruct (applyThresholding_spec fuel suppressed low high Hfuel)
    as (mask & Hrun & _ & _ & Hbin & Hm).
  fold strong weak in Hm.
  exists mask. split; [exact Hrun|]. split; [exact Hm|].
  intros order Hord.
  destruct (growOver_spec (interior weak) order weak strong Hord
              (S (length order)) strong)
    as (mask' & Hrun' & _ & _ & Hbin' & _ & Hm').
  - apply classify_binary.
  - auto.
  - intros y x H. now apply grown_strong.
  - pose proof (zeroCount_le_length order strong). lia.
  - exists mask'. split; [exact Hrun'|].
    intros y x. fold (Accepted weak strong) in Hm'.
    destruct (Hbin y x) as [H | H], (Hbin' y x) as [H' | H']; try congruence.
    + apply Hm', Hm in H'. congruence.
    + apply Hm, Hm' in H. congruence.
Qed.

Lemma hysteresis_is_interior_growth_witness :
  exists mask,
    applyThresholding 10 peak 0 0.5 = Some mask /\
    (forall y x, at_ mask y x = 255 <->
       Accepted (snd (thresholdMasks peak 0 0.5)) (fst (thresholdMasks peak 0 0.5)) y x).
Proof.
  destruct (hysteresis_is_interior_growth 10 peak 0 0.5 pixelCount_peak)
    as (mask & Hrun & Hm & _).
  exists mask. split; [exact Hrun | exact Hm].
Defined.

(** ** Threshold ratios *)

Lemma maxVal_twoPeaks : minMaxLoc_maxVal twoPeaks = 10%R.
Proof.
  rewrite (maxVal_unique twoPeaks 1 1); [reflexivity | unfold inside; simpl; lia |].
  intros y' x' _. simpl.
  destruct ((y' =? 1) && (x' =? 1)); [lra|].
  destruct ((y' =? 2) && (x' =? 1)); lra.
Qed.

Lemma pixelCount_twoPeaks : (pixelCount twoPeaks < 13)%nat.
Proof. unfold pixelCount. simpl. lia. Qed.

(** C2 as stated fails on [twoPeaks] with low ratio 1 and high ratio 0.5:
    the pixel of value 6 is >= 0.5 * 10, hence strong and in the mask, and is
    not at the maximum 10. *)
Lemma low_one_keeps_pixels_below_maximum :
  exists mask,
    applyThresholding 13 twoPeaks 1 0.5 = Some mask /\
    at_ mask 2 1 = 255 /\
    at_ twoPeaks 2 1 <> minMaxLoc_maxVal twoPeaks.
Proof.
  destruct (applyThresholding_spec 13 twoPeaks 1 0.5 pixelCount_twoPeaks)
    as (mask & Hrun & _ & _ & _ & Hm).
  exists mask. split; [exact Hrun|]. split.
  - apply Hm. apply grown_strong. apply strong_iff. rewrite maxVal_twoPeaks.
    unfold inside. simpl. split; [lia | lra].
  - rewrite maxVal_twoPeaks. simpl. lra.
Qed.

(** C2, amended: with lowThresholdRatio = 1 every pixel of the output mask is
    strong (value >= highThresholdRatio * M) or at the global maximum M; when
    highThresholdRatio = 1 as well, the mask is exactly the set of pixels at
    the global maximum. *)
Theorem low_one_keeps_strong_or_maximum (fuel : nat) (suppressed : Mat R) (high : R) :
  (pixelCount suppressed < fuel)%nat ->
  let M := minMaxLoc_maxVal suppressed in
  exists mask,
    applyThresholding fuel suppressed 1 high = Some mask /\
    (forall y x, at_ mask y x = 255 ->
       inside suppressed y x /\
       ((at_ suppressed y x >= high * M)%R \/ at_ suppressed y x = M)) /\
    (high = 1%R ->
     forall y x, at_ mask y x = 255 <-> inside suppressed y x /\ at_ suppressed y x = M).
Proof.
  intros Hfuel M.
  destruct (applyThresholding_spec fuel suppressed 1 high Hfuel)
    as (mask & Hrun & _ & _ & _ & Hm).
  exists mask. split; [exact Hrun|].
  assert (Hfirst : forall y x, at_ mask y x = 255 ->
            inside suppressed y x /\
            ((at_ suppressed y x >= high * M)%R \/ at_ suppressed y x = M)).
  { intros y x H. apply Hm in H.
    inversion H as [y0 x0 Hs | y0 x0 y' x' _ Hw]; subst.
    - apply strong_iff in Hs as [Hin Hs]. auto.
    - apply weak_iff in Hw as (Hin & _ & Hw). split; [exact Hin|]. right.
      pose proof (maxVal_upper suppressed y x Hin) as Hup. unfold M. lra. }
  split; [exact Hfirst|].
  intros -> y x. split.
  - intros H. destruct (Hfirst y x H) as [Hin [Hv | Hv]]; split; auto.
    pose proof (maxVal_upper suppressed y x Hin) as Hup. unfold M in *. lra.
  - intros [Hin Hv]. apply Hm. apply grown_strong. apply strong_iff.
    split; [exact Hin|]. unfold M in *. lra.
Qed.

Lemma low_one_keeps_strong_or_maximum_witness :
  exists mask,
    applyThresholding 13 twoPeaks 1 1 = Some mask /\
    (forall y x, at_ mask y x = 255 <->
       inside twoPeaks y x /\ at_ twoPeaks y x = minMaxLoc_maxVal twoPeaks).
Proof.
  destruct (low_one_keeps_strong_or_maximum 13 twoPeaks 1 pixelCount_twoPeaks)
    as (mask & Hrun & _ & Hm).
  exists mask. split; [exact Hrun | exact (Hm eq_refl)].
Defined.

Lemma weak_binary (suppressed : Mat R) (low high : R) :
  binary (snd (thresholdMasks suppressed low high)).
Proof.
  intros y x. unfold thresholdMasks.
  destruct (classify_spec suppressed (high * minMaxLoc_maxVal suppressed)%R
              (low * minMaxLoc_maxVal suppressed)%R) as (_ & _ & Hin & Hout).
  assert (D : inside suppressed y x \/ ~ inside suppressed y x) by (unfold inside; lia).
  destruct D as [H | H].
  - destruct (Hin y x H) as [_ ->]. destruct (_ && _); auto.
  - destruct (Hout y x H) as [_ ->]. auto.
Qed.

(** Without weak pixels a scan changes nothing. *)
Lemma scanOver_no_weak (order : list (Z * Z)) (weak : Mat Z) (s : Mat Z * bool) :
  (forall y x, at_ weak y x = 0) -> scanOver order weak s = s.
Proof.
  intros Hw. revert s. induction order as [|[py px] l IH]; intros [e ch]; [reflexivity|].
  rewrite scanOver_cons, scanPixel_promotes. simpl fst; simpl snd.
  unfold promotes. rewrite Hw. simpl. apply IH.
Qed.

(** Thresholds in the wrong order, on a grid whose maximum is not negative. *)
Lemma misordered_thresholds (fuel : nat) (suppressed : Mat R) (low high : R) :
  (0 <= minMaxLoc_maxVal suppressed)%R ->
  (pixelCount suppressed < fuel)%nat ->
  (low > high)%R ->
  let M := minMaxLoc_maxVal suppressed in
  let weak := snd (thresholdMasks suppressed low high) in
  (forall y x, at_ weak y x = 0) /\
  (forall edges, scanPass weak edges = (edges, false)) /\
  exists mask,
    applyThresholding fuel suppressed low high = Some mask /\
    forall y x, at_ mask y x = 255 <->
      inside suppressed y x /\ (at_ suppressed y x >= high * M)%R.
Proof.
  intros HM Hfuel Hlh M weak.
  assert (Hweak : forall y x, at_ weak y x = 0).
  { intros y x. destruct (weak_binary suppressed low high y x) as [H | H]; [exact H|].
    apply weak_iff in H as (_ & H1 & H2). unfold M in *.
    assert (high * minMaxLoc_maxVal suppressed <= low * minMaxLoc_maxVal suppressed)%R
      by (apply Rmult_le_compat_r; lra).
    lra. }
  split; [exact Hweak|]. split.
  - intros edges. rewrite scanPass_scanOver. now apply scanOver_no_weak.
  - destruct (applyThresholding_spec fuel suppressed low high Hfuel)
      as (mask & Hrun & _ & _ & _ & Hm).
    exists mask. split; [exact Hrun|].
    intros y x. rewrite Hm. split.
    + intros H. inversion H as [y0 x0 Hs | y0 x0 y' x' _ Hw]; subst.
      * now apply strong_iff in Hs.
      * fold weak in Hw. rewrite Hweak in Hw. discriminate.
    + intros H. apply grown_strong. now apply strong_iff.
Qed.

(** C10: every pixel whose value is >= highThreshold * M is strong whatever
    lowThreshold is; when lowThreshold > highThreshold (on suppressed
    magnitudes, whose maximum is not negative) the weak mask is empty, a scan
    of the growth loop changes nothing, and the mask is exactly the set of
    pixels with value >= highThreshold * M. *)
Theorem strong_test_takes_precedence (fuel : nat) (suppressed : Mat R) (low high : R) :
  (0 <= minMaxLoc_maxVal suppressed)%R ->
  (pixelCount suppressed < fuel)%nat ->
  let M := minMaxLoc_maxVal suppressed in
  let strong := fst (thresholdMasks suppressed low high) in
  let weak := snd (thresholdMasks suppressed low high) in
  (forall y x, inside suppressed y x -> (at_ suppressed y x >= high * M)%R ->
     at_ strong y x = 255) /\
  ((low > high)%R ->
   (forall y x, at_ weak y x = 0) /\
   (forall edges, scanPass weak edges = (edges, false)) /\
   exists mask,
     applyThresholding fuel suppressed low high = Some mask /\
     forall y x, at_ mask y x = 255 <->
       inside suppressed y x /\ (at_ suppressed y x >= high * M)%R).
Proof.
  intros HM Hfuel M strong weak. split.
  - intros y x Hin Hv. apply strong_iff. now split.
  - intros Hlh. now apply misordered_thresholds.
Qed.

Lemma strong_test_takes_precedence_witness :
  exists mask,
    applyThresholding 10 peak 0.5 0.2 = Some mask /\
    forall y x, at_ mask y x = 255 <->
      inside peak y x /\ (at_ peak y x >= 0.2 * minMaxLoc_maxVal peak)%R.
Proof.
  assert (HM : (0 <= minMaxLoc_maxVal peak)%R) by (rewrite maxVal_peak; lra).
  assert (Hlh : (0.5 > 0.2)%R) by lra.
  exact (proj2 (proj2 (proj2 (strong_test_takes_precedence 10 peak 0.5 0.2
                                HM pixelCount_peak) Hlh))).
Defined.

(** The hypothesis on the maximum holds in the pipeline: magnitudes are
    square roots, and suppression keeps a magnitude or stores 0. *)
Lemma calculateGradientMagnitude_nonneg (gxx gyy gxy : Mat R) (y x : Z) :
  (0 <= at_ (calculateGradientMagnitude gxx gyy gxy) y x)%R.
Proof.
  destruct (calculateGradientMagnitude_spec gxx gyy gxy) as (_ & _ & Hin & Hout).
  assert (D : inside gxx y x \/ ~ inside gxx y x) by (unfold inside; lia).
  destruct D as [H | H].
  - rewrite (Hin y x H). apply sqrt_pos.
  - rewrite (Hout y x H). lra.
Qed.

Lemma suppressedValue_cases (gradients : GradientResult) (y x : Z) :
  suppressedValue gradients y x = at_ (magnitude gradients) y x
  \/ suppressedValue gradients y x = 0%R.
Proof.
  unfold suppressedValue. cbv zeta.
  match goal with |- context [if ?c then at_ (magnitude gradients) y x else 0%R] =>
    destruct c end; auto.
Qed.

Lemma applySuppression_nonneg (gradients : GradientResult) :
  (forall y x, (0 <= at_ (magnitude gradients) y x)%R) ->
  forall y x, (0 <= at_ (applySuppression gradients) y x)%R.
Proof.
  intros Hmag y x.
  destruct (applySuppression_spec gradients) as (_ & _ & Hin & Hout).
  assert (D : interior (magnitude gradients) y x \/ ~ interior (magnitude gradients) y x)
    by (unfold interior; lia).
  destruct D as [H | H].
  - rewrite (Hin y x H).
    destruct (suppressedValue_cases gradients y x) as [-> | ->]; [apply Hmag | lra].
  - rewrite (Hout y x H). lra.
Qed.

Lemma maxVal_suppressed_nonneg (gxx gyy gxy direction : Mat R) :
  (0 <= minMaxLoc_maxVal
          (applySuppression
             (mkGradientResult (calculateGradientMagnitude gxx gyy gxy) direction)))%R.
Proof.
  apply maxVal_nonneg. intros y x _. apply applySuppression_nonneg.
  intros y' x'. apply calculateGradientMagnitude_nonneg.
Qed.

(** ** Flat gradients *)

Lemma atan2_origin : atan2 0 0 = 0%R.
Proof.
  unfold atan2.
  destruct (Rlt_dec 0 0); [lra|]. reflexivity.
Qed.

Lemma magnitudeRadicand_origin : magnitudeRadicand 0 0 0 = 0%R.
Proof.
  unfold magnitudeRadicand. rewrite eigenAngle_atan2 by lra.
  replace (2 * 0)%R with 0%R by lra. replace (0 - 0)%R with 0%R by lra.
  rewrite atan2_origin. lra.
Qed.

Lemma flat_magnitude (gxx gyy gxy : Mat R) :
  (forall y x, inside gxx y x ->
     at_ gxx y x = 0%R /\ at_ gyy y x = 0%R /\ at_ gxy y x = 0%R) ->
  forall y x, at_ (calculateGradientMagnitude gxx gyy gxy) y x = 0%R.
Proof.
  intros Hflat y x.
  destruct (calculateGradientMagnitude_spec gxx gyy gxy) as (_ & _ & Hin & Hout).
  assert (D : inside gxx y x \/ ~ inside gxx y x) by (unfold inside; lia).
  destruct D as [H | H].
  - rewrite (Hin y x H). destruct (Hflat y x H) as (-> & -> & ->).
    rewrite magnitudeRadicand_origin. apply sqrt_0.
  - apply (Hout y x H).
Qed.

Lemma flat_suppression (gradients : GradientResult) :
  (forall y x, at_ (magnitude gradients) y x = 0%R) ->
  forall y x, at_ (applySuppression gradients) y x = 0%R.
Proof.
  intros Hflat y x.
  destruct (applySuppression_spec gradients) as (_ & _ & Hin & Hout).
  assert (D : interior (magnitude gradients) y x \/ ~ interior (magnitude gradients) y x)
    by (unfold interior; lia).
  destruct D as [H | H].
  - rewrite (Hin y x H).
    destruct (suppressedValue_cases gradients y x) as [-> | ->]; auto.
  - apply (Hout y x H).
Qed.

(** On a grid of zeros both thresholds are 0 and every pixel is strong. *)
Lemma zero_grid_all_strong (fuel : nat) (suppressed : Mat R) (low high : R) :
  (forall y x, at_ suppressed y x = 0%R) ->
  (pixelCount suppressed < fuel)%nat ->
  exists mask,
    applyThresholding fuel suppressed low high = Some mask /\
    rows mask = rows suppressed /\ cols mask = cols suppressed /\
    forall y x, inside mask y x -> at_ mask y x = 255.
Proof.
  intros Hzero Hfuel.
  destruct (applyThresholding_spec fuel suppressed low high Hfuel)
    as (mask & Hrun & Hr & Hc & _ & Hm).
  exists mask. split; [exact Hrun|]. split; [exact Hr|]. split; [exact Hc|].
  intros y x Hin. apply Hm. apply grown_strong. apply strong_iff.
  assert (HM : minMaxLoc_maxVal suppressed = 0%R).
  { destruct (maxVal_attained suppressed) as [(y' & x' & _ & <-) | [_ ->]]; auto. }
  rewrite HM, Hzero. split; [|lra].
  unfold inside in *. rewrite Hr, Hc in Hin. exact Hin.
Qed.

(** ** Reading a matrix through at<float> *)

Lemma floatView_single (m : Mat R) :
  rows (floatView [m]) = rows m /\ cols (floatView [m]) = cols m /\
  forall y x, at_ (floatView [m]) y x = at_ m y x.
Proof.
  repeat split. intros y x. unfold floatView. cbn [length at_].
  change (Z.of_nat 1) with 1. now rewrite Z.mod_1_r, Z.div_1_r.
Qed.

(** ** The composite operation *)

Lemma threshold_of_suppression (fuel : nat) (gradients : GradientResult) (low high : R) :
  (pixelCount (magnitude gradients) < fuel)%nat ->
  exists mask,
    applyThresholding fuel (applySuppression gradients) low high = Some mask /\
    rows mask = rows (magnitude gradients) /\
    cols mask = cols (magnitude gradients) /\
    binary mask.
Proof.
  intros Hfuel.
  destruct (applySuppression_spec gradients) as (Hr & Hc & _).
  destruct (applyThresholding_spec fuel (applySuppression gradients) low high)
    as (mask & Hrun & Hmr & Hmc & Hbin & _).
  - unfold pixelCount in *. now rewrite Hr, Hc.
  - exists mask. repeat split; try congruence. exact Hbin.
Qed.

Section PipelineProperties.

Variable GaussianBlur : Mat R -> Z -> R -> Mat R.
Variable Sobel : Mat R -> Z -> Z -> Z -> Mat R.

(** Both filters return an image of the size of their (non-empty) input. *)
Hypothesis GaussianBlur_size : forall m ksize sigma,
  0 < rows m -> 0 < cols m ->
  rows (GaussianBlur m ksize sigma) = rows m /\
  cols (GaussianBlur m ksize sigma) = cols m.
Hypothesis Sobel_size : forall m xorder yorder ksize,
  0 < rows m -> 0 < cols m ->
  rows (Sobel m xorder yorder ksize) = rows m /\
  cols (Sobel m xorder yorder ksize) = cols m.

Lemma process_gray (fuel : nat) (params : GradientParams) (plane : Mat R)
    (planes : list (Mat R)) :
  source params = plane :: planes -> isColor params = false ->
  let blurred :=
    map (fun p => GaussianBlur p (calculateGaussianKernelSize (sigma params)) (sigma params))
        (plane :: planes) in
  let c := computeCoefficientsGray
             (floatView (map (fun p => Sobel p 1 0 3) blurred))
             (floatView (map (fun p => Sobel p 0 1 3) blurred)) in
  process GaussianBlur Sobel fuel params
  = applyThresholding fuel
      (applySuppression
         (mkGradientResult
            (calculateGradientMagnitude (fst (fst c)) (snd (fst c)) (snd c))
            (calculateGradientDirection (fst (fst c)) (snd (fst c)) (snd c))))
      (lowThreshold params) (highThreshold params).
Proof.
  intros Hsrc Hcol blurred c. subst c blurred.
  unfold process, computeGradients, applyGaussianBlur. rewrite Hsrc, Hcol.
  unfold computeGrayGradients. cbn [map].
  now destruct (computeCoefficientsGray _ _) as [[gxx gyy] gxy].
Qed.

Lemma process_color (fuel : nat) (params : GradientParams) (c0 c1 c2 : Mat R) :
  source params = [c0; c1; c2] -> isColor params = true ->
  let blur plane :=
    GaussianBlur plane (calculateGaussianKernelSize (sigma params)) (sigma params) in
  let c := computeCoefficientsColor
             [Sobel (blur c0) 1 0 3; Sobel (blur c1) 1 0 3; Sobel (blur c2) 1 0 3]
             [Sobel (blur c0) 0 1 3; Sobel (blur c1) 0 1 3; Sobel (blur c2) 0 1 3] in
  process GaussianBlur Sobel fuel params
  = applyThresholding fuel
      (applySuppression
         (mkGradientResult
            (calculateGradientMagnitude (fst (fst c)) (snd (fst c)) (snd c))
            (calculateGradientDirection (fst (fst c)) (snd (fst c)) (snd c))))
      (lowThreshold params) (highThreshold params).
Proof.
  intros Hsrc Hcol blur c.
  unfold process, computeGradients, applyGaussianBlur. rewrite Hsrc, Hcol.
  simpl map. unfold computeColorGradients. simpl map. unfold channel. simpl nth.
  fold (blur c0). fold (blur c1). fold (blur c2). fold c.
  now destruct c as [[gxx gyy] gxy].
Qed.

(** C9, amended: for every non-empty source that is grayscale or
    3-channel, except a grayscale source in colour mode, process returns a
    single-channel mask with the rows and columns of the source, each pixel
    of which is 0 or 255. *)
Theorem process_returns_binary_mask (fuel : nat) (params : GradientParams) :
  let plane := channel (source params) 0 in
  0 < rows plane -> 0 < cols plane ->
  length (source params) = 1%nat \/ length (source params) = 3%nat ->
  (isColor params = true -> length (source params) = 3%nat) ->
  (pixelCount plane < fuel)%nat ->
  exists mask,
    process GaussianBlur Sobel fuel params = Some mask /\
    rows mask = rows plane /\ cols mask = cols plane /\
    binary mask.
Proof.
  intros plane Hrows Hcols Hlen Hmode Hfuel.
  set (k := calculateGaussianKernelSize (sigma params)).
  destruct (isColor params) eqn:Hcol.
  - specialize (Hmode eq_refl).
    destruct (source params) as [|c0 [|c1 [|c2 [|]]]] eqn:Hsrc; try discriminate.
    unfold channel in plane. simpl in plane. subst plane.
    rewrite (process_color fuel params c0 c1 c2 Hsrc Hcol). fold k.
    destruct (GaussianBlur_size c0 k (sigma params) Hrows Hcols) as [Hbr Hbc].
    destruct (Sobel_size (GaussianBlur c0 k (sigma params)) 1 0 3) as [Hsr Hsc];
      try lia.
    destruct (computeCoefficientsColor_spec
                [Sobel (GaussianBlur c0 k (sigma params)) 1 0 3;
                 Sobel (GaussianBlur c1 k (sigma params)) 1 0 3;
                 Sobel (GaussianBlur c2 k (sigma params)) 1 0 3]
                [Sobel (GaussianBlur c0 k (sigma params)) 0 1 3;
                 Sobel (GaussianBlur c1 k (sigma params)) 0 1 3;
                 Sobel (GaussianBlur c2 k (sigma params)) 0 1 3]) as (Hr & Hc & _).
    unfold channel in Hr, Hc. simpl nth in Hr, Hc.
    set (c := computeCoefficientsColor _ _) in *.
    destruct (calculateGradientMagnitude_spec (fst (fst c)) (snd (fst c)) (snd c))
      as (Hmr & Hmc & _).
    destruct (threshold_of_suppression fuel
                (mkGradientResult
                   (calculateGradientMagnitude (fst (fst c)) (snd (fst c)) (snd c))
                   (calculateGradientDirection (fst (fst c)) (snd (fst c)) (snd c)))
                (lowThreshold params) (highThreshold params))
      as (mask & Hrun & Hr' & Hc' & Hbin).
    + unfold pixelCount in *. simpl magnitude. rewrite Hmr, Hmc, Hr, Hc, Hsr, Hsc, Hbr, Hbc.
      exact Hfuel.
    + simpl magnitude in Hr', Hc'.
      exists mask. repeat split; try exact Hrun; try exact Hbin; congruence.
  - destruct (source params) as [|p planes] eqn:Hsrc;
      [destruct Hlen; discriminate|].
    unfold channel in plane. simpl in plane. subst plane.
    rewrite (process_gray fuel params p planes Hsrc Hcol). fold k.
    destruct (GaussianBlur_size p k (sigma params) Hrows Hcols) as [Hbr Hbc].
    destruct (Sobel_size (GaussianBlur p k (sigma params)) 1 0 3) as [Hsr Hsc];
      try lia.
    match goal with
    | |- context [computeCoefficientsGray ?gX ?gY] =>
        destruct (computeCoefficientsGray_spec gX gY) as (Hr & Hc & _);
        set (c := computeCoefficientsGray gX gY) in *
    end.
    change (rows (fst (fst c)) = rows (Sobel (GaussianBlur p k (sigma params)) 1 0 3)) in Hr.
    change (cols (fst (fst c)) = cols (Sobel (GaussianBlur p k (sigma params)) 1 0 3)) in Hc.
    destruct (calculateGradientMagnitude_spec (fst (fst c)) (snd (fst c)) (snd c))
      as (Hmr & Hmc & _).
    destruct (threshold_of_suppression fuel
                (mkGradientResult
                   (calculateGradientMagnitude (fst (fst c)) (snd (fst c)) (snd c))
                   (calculateGradientDirection (fst (fst c)) (snd (fst c)) (snd c)))
                (lowThreshold params) (highThreshold params))
      as (mask & Hrun & Hr' & Hc' & Hbin).
    + unfold pixelCount in *. simpl magnitude. rewrite Hmr, Hmc, Hr, Hc, Hsr, Hsc, Hbr, Hbc.
      exact Hfuel.
    + simpl magnitude in Hr', Hc'.
      exists mask. repeat split; try exact Hrun; try exact Hbin; congruence.
Qed.

(** C1, on the code: for a 5x5 grayscale image with all pixels equal, once
    the derivative planes are zero everywhere the magnitude and the
    suppressed magnitude are zero, the maximum is 0, both thresholds are 0,
    every pixel passes the strong test [val >= highThr], and process
    returns the mask with every pixel 255 (edge). *)
Theorem uniform_image_is_all_edges (fuel : nat) (v sd low high : R) :
  let params := mkGradientParams [uniform 5 5 v] sd low high false in
  let blurred :=
    GaussianBlur (uniform 5 5 v) (calculateGaussianKernelSize sd) sd in
  (forall y x, 0 <= y < 5 -> 0 <= x < 5 -> at_ (Sobel blurred 1 0 3) y x = 0%R) ->
  (forall y x, 0 <= y < 5 -> 0 <= x < 5 -> at_ (Sobel blurred 0 1 3) y x = 0%R) ->
  (25 < fuel)%nat ->
  exists mask,
    process GaussianBlur Sobel fuel params = Some mask /\
    rows mask = 5 /\ cols mask = 5 /\
    forall y x, 0 <= y < 5 -> 0 <= x < 5 -> at_ mask y x = 255.
Proof.
  intros params blurred HgX HgY Hfuel.
  rewrite (process_gray fuel params (uniform 5 5 v) [] eq_refl eq_refl).
  unfold params. cbn [sigma lowThreshold highThreshold]. simpl map. fold blurred.
  destruct (GaussianBlur_size (uniform 5 5 v) (calculateGaussianKernelSize sd) sd)
    as [Hbr Hbc]; try (simpl; lia).
  fold blurred in Hbr, Hbc. simpl in Hbr, Hbc.
  destruct (Sobel_size blurred 1 0 3) as [Hsr Hsc]; try lia.
  destruct (floatView_single (Sobel blurred 1 0 3)) as (HvrX & HvcX & HvX).
  destruct (floatView_single (Sobel blurred 0 1 3)) as (_ & _ & HvY).
  destruct (computeCoefficientsGray_spec (floatView [Sobel blurred 1 0 3])
                                         (floatView [Sobel blurred 0 1 3]))
    as (Hr & Hc & Hpx).
  set (c := computeCoefficientsGray _ _) in *.
  rewrite HvrX, Hsr, Hbr in Hr. rewrite HvcX, Hsc, Hbc in Hc.
  destruct (calculateGradientMagnitude_spec (fst (fst c)) (snd (fst c)) (snd c))
    as (Hmr & Hmc & _).
  set (gradients :=
         mkGradientResult
           (calculateGradientMagnitude (fst (fst c)) (snd (fst c)) (snd c))
           (calculateGradientDirection (fst (fst c)) (snd (fst c)) (snd c))).
  assert (Hmag : forall y x, at_ (magnitude gradients) y x = 0%R).
  { apply flat_magnitude. intros y x [Hy Hx]. rewrite Hr in Hy. rewrite Hc in Hx.
    destruct (Hpx y x) as (-> & -> & ->).
    - unfold inside. rewrite HvrX, HvcX, Hsr, Hsc, Hbr, Hbc. lia.
    - rewrite HvX, HvY, (HgX y x Hy Hx), (HgY y x Hy Hx). repeat split; lra. }
  destruct (applySuppression_spec gradients) as (Hpr & Hpc & _).
  simpl magnitude in Hpr, Hpc. rewrite Hmr, Hr in Hpr. rewrite Hmc, Hc in Hpc.
  destruct (zero_grid_all_strong fuel (applySuppression gradients) low high
              (flat_suppression gradients Hmag))
    as (mask & Hrun & Hkr & Hkc & Hall).
  - unfold pixelCount. rewrite Hpr, Hpc. simpl. lia.
  - exists mask. split; [exact Hrun|]. rewrite Hpr in Hkr. rewrite Hpc in Hkc.
    split; [exact Hkr|]. split; [exact Hkc|].
    intros y x Hy Hx. apply Hall. unfold inside. rewrite Hkr, Hkc. lia.
Qed.

End PipelineProperties.

Lemma identityBlur_size (m : Mat R) (ksize : Z) (sigma : R) :
  0 < rows m -> 0 < cols m ->
  rows (identityBlur m ksize sigma) = rows m /\
  cols (identityBlur m ksize sigma) = cols m.
Proof. intros _ _. split; reflexivity. Qed.

Lemma sobel3_size (m : Mat R) (xorder yorder ksize : Z) :
  0 < rows m -> 0 < cols m ->
  rows (sobel3 m xorder yorder ksize) = rows m /\
  cols (sobel3 m xorder yorder ksize) = cols m.
Proof. intros _ _. split; reflexivity. Qed.

Lemma sobel3_uniform (r c : Z) (v : R) (xorder yorder ksize y x : Z) :
  at_ (sobel3 (uniform r c v) xorder yorder ksize) y x = 0%R.
Proof. simpl. destruct (xorder =? 1); lra. Qed.

(** C9, as worded: a grayscale source in colour mode.  The source reads
    channels[1] and channels[2] of a vector of one plane, and no mask is
    returned. *)
Lemma colour_mode_needs_three_planes :
  process identityBlur sobel3 26
    (mkGradientParams [uniform 5 5 128%R] 1.4%R 0.05%R 0.15%R true) = None.
Proof. reflexivity. Qed.

Lemma process_returns_binary_mask_witness :
  exists mask,
    process identityBlur sobel3 26
      (mkGradientParams [uniform 5 5 128%R; uniform 5 5 64%R; uniform 5 5 32%R]
                        1.4%R 0.05%R 0.15%R false) = Some mask /\
    rows mask = 5 /\ cols mask = 5 /\ binary mask.
Proof.
  apply (process_returns_binary_mask identityBlur sobel3 identityBlur_size sobel3_size
           26 (mkGradientParams [uniform 5 5 128%R; uniform 5 5 64%R; uniform 5 5 32%R]
                                1.4%R 0.05%R 0.15%R false)).
  - simpl. lia.
  - simpl. lia.
  - right. reflexivity.
  - intros H. discriminate H.
  - unfold pixelCount. simpl. lia.
Defined.

Lemma uniform_image_is_all_edges_witness :
  exists mask,
    process identityBlur sobel3 26 flatImage = Some mask /\
    rows mask = 5 /\ cols mask = 5 /\
    forall y x, 0 <= y < 5 -> 0 <= x < 5 -> at_ mask y x = 255.
Proof.
  apply (uniform_image_is_all_edges identityBlur sobel3 identityBlur_size sobel3_size
           26 128 1.4 0.05 0.15).
  - intros y x _ _. apply sobel3_uniform.
  - intros y x _ _. apply sobel3_uniform.
  - lia.
Defined.

(** * Further properties of the pipeline *)

(** ** Kernel size *)

Lemma lor_one (x : Z) : Z.lor x 1 = 2 * (x / 2) + 1.
Proof.
  apply Z.bits_inj'. intros n Hn. rewrite Z.lor_spec.
  destruct (Z.eq_dec n 0) as [-> | Hpos].
  - rewrite Z.testbit_odd_0. apply orb_true_r.
  - assert (exists m, 0 <= m /\ n = Z.succ m) as (m & Hm & ->) by (exists (n - 1); lia).
    rewrite Z.testbit_odd_succ by lia.
    change 1 with (2 * 0 + 1) at 1. rewrite Z.testbit_odd_succ by lia.
    rewrite Z.testbit_0_l, orb_false_r.
    symmetry. apply Z.div2_bits. lia.
Qed.

Lemma truncate_nonneg (r : R) :
  (0 <= r <= IZR INT_MAX)%R -> (IZR (truncate r) <= r < IZR (truncate r) + 1)%R.
Proof.
  intros [H0 Hmax]. unfold truncate, INT_MIN, INT_MAX in *.
  destruct (Rlt_dec (-2147483648 - 1) r); [|lra].
  destruct (Rlt_dec r (2147483647 + 1)); [|lra].
  destruct (Rle_dec 0 r); [|contradiction].
  destruct (base_Int_part r). lra.
Qed.

Lemma truncate_monotone (r s : R) :
  (0 <= r <= s)%R -> (s <= IZR INT_MAX)%R -> truncate r <= truncate s.
Proof.
  intros [Hr Hs] Hmax.
  destruct (truncate_nonneg r) as [Hr1 _]; [lra|].
  destruct (truncate_nonneg s) as [_ Hs2]; [lra|].
  assert (H : (IZR (truncate r) < IZR (truncate s + 1))%R) by (rewrite plus_IZR; lra).
  apply lt_IZR in H. lia.
Qed.

(** X1: the kernel side is odd and at least 3, whatever sigma is. *)
Theorem kernel_size_odd_at_least_3 (sigma : R) :
  Z.odd (calculateGaussianKernelSize sigma) = true /\
  3 <= calculateGaussianKernelSize sigma.
Proof.
  unfold calculateGaussianKernelSize. rewrite lor_one. split; [|lia].
  destruct (Z.max_spec 3 (2 * (truncate (6 * sigma + 1) / 2) + 1)) as [[_ ->] | [_ ->]].
  - rewrite Z.add_comm, Z.odd_add_mul_2. reflexivity.
  - reflexivity.
Qed.

(** X2: for sigma >= 0 with 6 sigma + 1 within the range of int, the
    kernel reaches beyond 3 sigma on each side and exceeds 6 sigma by at
    most 3: 6 sigma < k <= 6 sigma + 3. *)
Theorem kernel_size_covers_six_sigma (sigma : R) :
  (0 <= sigma)%R -> (6 * sigma + 1 <= IZR INT_MAX)%R ->
  (6 * sigma < IZR (calculateGaussianKernelSize sigma) <= 6 * sigma + 3)%R.
Proof.
  intros Hs Hmax. unfold calculateGaussianKernelSize. rewrite lor_one.
  destruct (truncate_nonneg (6 * sigma + 1)) as [Hlo Hhi]; [lra|].
  set (t := truncate (6 * sigma + 1)) in *.
  assert (Ht : t <= 2 * (t / 2) + 1 <= t + 1).
  { pose proof (Z.div_mod t 2). pose proof (Z.mod_pos_bound t 2). lia. }
  split.
  - apply Rlt_le_trans with (IZR t); [lra|]. apply IZR_le. lia.
  - destruct (Z.max_spec 3 (2 * (t / 2) + 1)) as [[_ ->] | [_ ->]].
    + apply Rle_trans with (IZR (t + 1)); [apply IZR_le; lia | rewrite plus_IZR; lra].
    + lra.
Qed.

Lemma kernel_size_covers_six_sigma_witness :
  (6 * 1 < IZR (calculateGaussianKernelSize 1) <= 6 * 1 + 3)%R.
Proof.
  apply kernel_size_covers_six_sigma; unfold INT_MAX; lra.
Defined.

(** X3: among the values of sigma with 6 sigma + 1 within the range of int,
    a larger sigma never gives a smaller kernel. *)
Theorem kernel_size_monotone (sigma1 sigma2 : R) :
  (0 <= sigma1 <= sigma2)%R -> (6 * sigma2 + 1 <= IZR INT_MAX)%R ->
  calculateGaussianKernelSize sigma1 <= calculateGaussianKernelSize sigma2.
Proof.
  intros H Hmax. unfold calculateGaussianKernelSize. rewrite !lor_one.
  assert (Ht : truncate (6 * sigma1 + 1) <= truncate (6 * sigma2 + 1))
    by (apply truncate_monotone; lra).
  apply Z.max_le_compat_l.
  pose proof (Z.div_le_mono _ _ 2 ltac:(lia) Ht). lia.
Qed.

Lemma kernel_size_monotone_witness :
  calculateGaussianKernelSize 1 <= calculateGaussianKernelSize 2.
Proof.
  apply kernel_size_monotone; unfold INT_MAX; lra.
Defined.

(** ** The range of the direction *)

Lemma atan2_right_half_plane (y x : R) :
  (0 <= x)%R -> (- (PI / 2) <= atan2 y x <= PI / 2)%R.
Proof.
  intros Hx. pose proof PI_RGT_0 as Hpi. unfold atan2.
  destruct (Rlt_dec 0 x).
  - pose proof (atan_bound (y / x)). lra.
  - destruct (Rlt_dec x 0); [lra|].
    destruct (Rlt_dec 0 y); [lra|].
    destruct (Rlt_dec y 0); lra.
Qed.

Lemma eigenAngle_range (gxx gyy gxy : R) :
  (- (PI / 4) <= eigenAngle gxx gyy gxy <= PI / 4)%R.
Proof.
  pose proof PI_RGT_0 as Hpi.
  destruct (Rlt_dec (gxx - gyy) 0) as [H | H].
  - rewrite eigenAngle_fallback by exact H. lra.
  - rewrite eigenAngle_atan2 by exact H.
    pose proof (atan2_right_half_plane (2 * gxy) (gxx - gyy)). lra.
Qed.

Lemma calculateGradientDirection_range (gxx gyy gxy : Mat R) (y x : Z) :
  inside gxx y x ->
  (- (PI / 4) <= at_ (calculateGradientDirection gxx gyy gxy) y x <= PI / 4)%R.
Proof.
  intros Hin.
  destruct (calculateGradientDirection_spec gxx gyy gxy) as (_ & _ & Hd).
  rewrite (Hd y x Hin). apply eigenAngle_range.
Qed.

Lemma degrees_bounds (angle lo hi : R) :
  (lo * PI / 180 <= angle <= hi * PI / 180)%R ->
  (lo <= angle * 180 / PI <= hi)%R.
Proof.
  intros [H1 H2]. pose proof PI_RGT_0 as Hpi.
  assert (Hinv : (0 < / PI)%R) by now apply Rinv_0_lt_compat.
  split.
  - replace lo with ((lo * PI / 180) * 180 / PI)%R by (field; lra).
    unfold Rdiv at 1 3. apply Rmult_le_compat_r; lra.
  - replace hi with ((hi * PI / 180) * 180 / PI)%R by (field; lra).
    unfold Rdiv at 1 3. apply Rmult_le_compat_r; lra.
Qed.

Lemma normalizedDegrees_quarter_turn (angle : R) :
  (- (PI / 4) <= angle <= PI / 4)%R ->
  (0 <= normalizedDegrees angle <= 45 \/ 135 <= normalizedDegrees angle < 180)%R.
Proof.
  intros H. unfold normalizedDegrees.
  assert (Hd : (-45 <= angle * 180 / PI <= 45)%R) by (apply degrees_bounds; lra).
  destruct (Rlt_dec (angle * 180 / PI) 0); lra.
Qed.

(** X5: every direction written by calculateGradientDirection lies between
    -pi/4 and pi/4.  On the output of the resolver applySuppression therefore
    always finds a sector, and never the vertical one: every interior pixel
    is compared with its horizontal or diagonal neighbours. *)
Theorem resolver_direction_never_vertical (gxx gyy gxy : Mat R) (y x : Z) :
  inside gxx y x ->
  let angle := at_ (calculateGradientDirection gxx gyy gxy) y x in
  (- (PI / 4) <= angle <= PI / 4)%R /\
  ~ inSector (normalizedDegrees angle) Vertical /\
  (inSector (normalizedDegrees angle) Horizontal
   \/ inSector (normalizedDegrees angle) AntiDiagonal
   \/ inSector (normalizedDegrees angle) MainDiagonal).
Proof.
  intros Hin angle.
  pose proof (calculateGradientDirection_range gxx gyy gxy y x Hin) as Hr.
  fold angle in Hr. split; [exact Hr|].
  pose proof (normalizedDegrees_quarter_turn angle Hr) as H.
  simpl. lra.
Qed.

Lemma resolver_direction_never_vertical_witness :
  ~ inSector (normalizedDegrees
                (at_ (calculateGradientDirection (uniform 1 1 0%R) (uniform 1 1 1%R)
                        (uniform 1 1 (-5)%R)) 0 0)) Vertical.
Proof.
  assert (Hin : inside (uniform 1 1 0%R) 0 0) by (unfold inside; simpl; lia).
  exact (proj1 (proj2 (resolver_direction_never_vertical
                         (uniform 1 1 0%R) (uniform 1 1 1%R) (uniform 1 1 (-5)%R)
                         0 0 Hin))).
Defined.

(** ** The magnitude in closed form *)

Lemma atan2_projection (y x : R) :
  (0 <= x)%R ->
  (x * cos (atan2 y x) + y * sin (atan2 y x) = sqrt (x * x + y * y))%R.
Proof.
  intros Hx. unfold atan2.
  destruct (Rlt_dec 0 x) as [Hpos | Hnpos].
  - set (S := sqrt (x * x + y * y)).
    assert (HS : (0 < S)%R) by (apply sqrt_lt_R0; nra).
    assert (HSS : (S * S = x * x + y * y)%R) by (apply sqrt_def; nra).
    assert (Hroot : sqrt (1 + (y / x)²) = (S / x)%R).
    { replace (1 + (y / x)²)%R with ((x * x + y * y) / (x * x))%R
        by (unfold Rsqr; field; lra).
      rewrite sqrt_div_alt by nra. rewrite sqrt_square by lra. reflexivity. }
    rewrite sin_atan, cos_atan, Hroot.
    replace (x * (1 / (S / x)) + y * (y / x / (S / x)))%R
      with ((x * x + y * y) / S)%R by (field; lra).
    rewrite <- HSS. field. lra.
  - destruct (Rlt_dec x 0) as [Hneg | _]; [lra|].
    assert (x = 0%R) by lra. subst x.
    replace (0 * 0 + y * y)%R with (y * y)%R by ring.
    destruct (Rlt_dec 0 y) as [Hy | Hy].
    + rewrite sin_PI2, sqrt_square by lra. ring.
    + destruct (Rlt_dec y 0) as [Hy' | Hy'].
      * rewrite sin_neg, sin_PI2.
        replace (y * y)%R with ((- y) * (- y))%R by ring.
        rewrite sqrt_square by lra. ring.
      * assert (y = 0%R) by lra. subst y.
        rewrite sin_0. replace (0 * 0)%R with 0%R by ring. rewrite sqrt_0. ring.
Qed.

Lemma magnitudeRadicand_eigenvalue (gxx gyy gxy : R) :
  (gyy <= gxx)%R ->
  magnitudeRadicand gxx gyy gxy
  = (0.5 * ((gxx + gyy)
            + sqrt ((gxx - gyy) * (gxx - gyy) + (2 * gxy) * (2 * gxy))))%R.
Proof.
  intros H. unfold magnitudeRadicand. rewrite eigenAngle_atan2 by lra.
  replace (2 * (0.5 * atan2 (2 * gxy) (gxx - gyy)))%R
    with (atan2 (2 * gxy) (gxx - gyy)) by lra.
  pose proof (atan2_projection (2 * gxy) (gxx - gyy)) as Hp.
  assert (H0 : (0 <= gxx - gyy)%R) by lra. specialize (Hp H0). lra.
Qed.

(** X6: where gxx >= gyy the magnitude is the square root of the largest
    eigenvalue of the structure tensor; where gxx < gyy (the fallback angle)
    it is the square root of (gxx + gyy + 2 gxy) / 2. *)
Theorem magnitude_closed_form (gxx gyy gxy : Mat R) (y x : Z) :
  inside gxx y x ->
  let a := at_ gxx y x in
  let b := at_ gyy y x in
  let c := at_ gxy y x in
  let m := at_ (calculateGradientMagnitude gxx gyy gxy) y x in
  ((b <= a)%R ->
   m = sqrt (0.5 * ((a + b) + sqrt ((a - b) * (a - b) + 4 * (c * c))))) /\
  ((a < b)%R -> m = sqrt (0.5 * (a + b + 2 * c))).
Proof.
  intros Hin a b c m.
  destruct (calculateGradientMagnitude_spec gxx gyy gxy) as (_ & _ & Hm & _).
  subst m. rewrite (Hm y x Hin). fold a b c. split; intros H.
  - rewrite magnitudeRadicand_eigenvalue by exact H.
    replace ((a - b) * (a - b) + 2 * c * (2 * c))%R
      with ((a - b) * (a - b) + 4 * (c * c))%R by ring.
    reflexivity.
  - rewrite magnitudeRadicand_fallback by lra. reflexivity.
Qed.

Lemma magnitude_closed_form_witness :
  at_ (calculateGradientMagnitude (uniform 1 1 0%R) (uniform 1 1 1%R)
         (uniform 1 1 2%R)) 0 0
  = sqrt (0.5 * (0 + 1 + 2 * 2)).
Proof.
  assert (Hin : inside (uniform 1 1 0%R) 0 0) by (unfold inside; simpl; lia).
  apply (proj2 (magnitude_closed_form (uniform 1 1 0%R) (uniform 1 1 1%R)
                  (uniform 1 1 2%R) 0 0 Hin)).
  simpl. lra.
Defined.

(** X7: in grayscale mode, at integer derivative values of absolute value at
    most 1020 (8-bit images), the magnitude is the Euclidean norm of the
    gradient where |dx| >= |dy|, and |dx + dy| / sqrt 2 elsewhere. *)
Theorem gray_magnitude_closed_form (gradientX gradientY : Mat R) (y x : Z) :
  inside gradientX y x ->
  intDerivative (at_ gradientX y x) -> intDerivative (at_ gradientY y x) ->
  let c := computeCoefficientsGray gradientX gradientY in
  let m := at_ (calculateGradientMagnitude (fst (fst c)) (snd (fst c)) (snd c)) y x in
  let dRdx := at_ gradientX y x in
  let dRdy := at_ gradientY y x in
  ((dRdy * dRdy <= dRdx * dRdx)%R -> m = sqrt (dRdx * dRdx + dRdy * dRdy)) /\
  ((dRdx * dRdx < dRdy * dRdy)%R -> m = (Rabs (dRdx + dRdy) / sqrt 2)%R).
Proof.
  intros Hin _ _ c m dRdx dRdy.
  destruct (computeCoefficientsGray_spec gradientX gradientY) as (Hr & Hc & Hpx).
  fold c in Hr, Hc, Hpx.
  destruct (Hpx y x Hin) as (Hxx & Hyy & Hxy). fold dRdx dRdy in Hxx, Hyy, Hxy.
  assert (Hin' : inside (fst (fst c)) y x) by (unfold inside in *; rewrite Hr, Hc; exact Hin).
  destruct (calculateGradientMagnitude_spec (fst (fst c)) (snd (fst c)) (snd c))
    as (_ & _ & Hm & _).
  subst m. rewrite (Hm y x Hin'), Hxx, Hyy, Hxy. split; intros H.
  - rewrite magnitudeRadicand_eigenvalue by exact H. f_equal.
    replace ((dRdx * dRdx - dRdy * dRdy) * (dRdx * dRdx - dRdy * dRdy)
             + 2 * (dRdx * dRdy) * (2 * (dRdx * dRdy)))%R
      with ((dRdx * dRdx + dRdy * dRdy) * (dRdx * dRdx + dRdy * dRdy))%R by ring.
    rewrite sqrt_square by nra. lra.
  - rewrite magnitudeRadicand_fallback by lra.
    replace (0.5 * (dRdx * dRdx + dRdy * dRdy + 2 * (dRdx * dRdy)))%R
      with ((dRdx + dRdy)² / 2)%R
      by (replace 0.5%R with (/ 2)%R by lra; unfold Rsqr; field).
    rewrite sqrt_div_alt by lra. now rewrite sqrt_Rsqr_abs.
Qed.

Lemma gray_magnitude_closed_form_witness :
  let c := computeCoefficientsGray (uniform 1 1 3%R) (uniform 1 1 (-4)%R) in
  at_ (calculateGradientMagnitude (fst (fst c)) (snd (fst c)) (snd c)) 0 0
  = (Rabs (3 + -4) / sqrt 2)%R.
Proof.
  intros c.
  assert (Hin : inside (uniform 1 1 3%R) 0 0) by (unfold inside; simpl; lia).
  assert (H3 : intDerivative (at_ (uniform 1 1 3%R) 0 0))
    by (exists 3; split; [reflexivity | lia]).
  assert (H4 : intDerivative (at_ (uniform 1 1 (-4)%R) 0 0))
    by (exists (-4); split; [reflexivity | lia]).
  apply (proj2 (gray_magnitude_closed_form (uniform 1 1 3%R) (uniform 1 1 (-4)%R)
                  0 0 Hin H3 H4)).
  simpl. lra.
Defined.

(** ** More on suppression *)

(** X8: applySuppression never invents a value: every pixel of its output is the
    magnitude at that pixel or 0, hence between 0 and the magnitude where the
    magnitude is not negative. *)
Theorem suppression_keeps_or_zeroes (gradients : GradientResult) (y x : Z) :
  (at_ (applySuppression gradients) y x = at_ (magnitude gradients) y x
   \/ at_ (applySuppression gradients) y x = 0%R) /\
  ((0 <= at_ (magnitude gradients) y x)%R ->
   (0 <= at_ (applySuppression gradients) y x <= at_ (magnitude gradients) y x)%R).
Proof.
  assert (H : at_ (applySuppression gradients) y x = at_ (magnitude gradients) y x
              \/ at_ (applySuppression gradients) y x = 0%R).
  { destruct (applySuppression_spec gradients) as (_ & _ & Hin & Hout).
    assert (D : interior (magnitude gradients) y x \/ ~ interior (magnitude gradients) y x)
      by (unfold interior; lia).
    destruct D as [D | D].
    - rewrite (Hin y x D). apply suppressedValue_cases.
    - right. apply (Hout y x D). }
  split; [exact H|]. intros Hm. destruct H as [-> | ->]; lra.
Qed.

Lemma suppression_keeps_or_zeroes_witness :
  (0 <= at_ (applySuppression ridge) 1 1 <= at_ (magnitude ridge) 1 1)%R.
Proof.
  apply (proj2 (suppression_keeps_or_zeroes ridge 1 1)). simpl. lra.
Defined.

Lemma sector_exists (angle : R) :
  (- PI <= angle <= PI)%R -> exists s, inSector (normalizedDegrees angle) s.
Proof.
  intros H. unfold normalizedDegrees.
  assert (Hd : (-180 <= angle * 180 / PI <= 180)%R) by (apply degrees_bounds; lra).
  set (deg := (angle * 180 / PI)%R) in *.
  destruct (Rlt_dec deg 0) as [Hneg | Hpos].
  - destruct (Rlt_dec (deg + 180) 22.5); [exists Horizontal; simpl; lra|].
    destruct (Rlt_dec (deg + 180) 67.5); [exists AntiDiagonal; simpl; lra|].
    destruct (Rlt_dec (deg + 180) 112.5); [exists Vertical; simpl; lra|].
    destruct (Rlt_dec (deg + 180) 157.5); [exists MainDiagonal; simpl; lra|].
    exists Horizontal; simpl; lra.
  - destruct (Rlt_dec deg 22.5); [exists Horizontal; simpl; lra|].
    destruct (Rlt_dec deg 67.5); [exists AntiDiagonal; simpl; lra|].
    destruct (Rlt_dec deg 112.5); [exists Vertical; simpl; lra|].
    destruct (Rlt_dec deg 157.5); [exists MainDiagonal; simpl; lra|].
    exists Horizontal; simpl; lra.
Qed.

(** X9: whatever the direction (between -pi and pi), an interior pixel whose
    magnitude is >= its eight neighbours survives suppression, and one whose
    magnitude is below all eight is set to 0. *)
Theorem suppression_local_extrema (gradients : GradientResult) (y x : Z) :
  interior (magnitude gradients) y x ->
  (- PI <= at_ (direction gradients) y x <= PI)%R ->
  let m := at_ (magnitude gradients) y x in
  ((forall y' x', adjacent8 y x y' x' -> (at_ (magnitude gradients) y' x' <= m)%R) ->
   at_ (applySuppression gradients) y x = m) /\
  ((forall y' x', adjacent8 y x y' x' -> (m < at_ (magnitude gradients) y' x')%R) ->
   at_ (applySuppression gradients) y x = 0%R).
Proof.
  intros Hin Hangle m.
  destruct (sector_exists _ Hangle) as [s Hs].
  destruct (applySuppression_spec gradients) as (_ & _ & Hv & _).
  rewrite (Hv y x Hin), (suppressedValue_sector gradients y x s Hs). fold m.
  assert (Hq : adjacent8 y x (fst (fst (sectorNeighbours s y x)))
                             (snd (fst (sectorNeighbours s y x))))
    by (destruct s; unfold adjacent8; simpl; lia).
  assert (Hr : adjacent8 y x (fst (snd (sectorNeighbours s y x)))
                             (snd (snd (sectorNeighbours s y x))))
    by (destruct s; unfold adjacent8; simpl; lia).
  split; intros H; specialize (H _ _ Hq) as H1; specialize (H _ _ Hr) as H2.
  - rewrite (proj2 (Rgeb_true _ _) H1), (proj2 (Rgeb_true _ _) H2). reflexivity.
  - rewrite (proj2 (Rgeb_false _ _) H1). reflexivity.
Qed.

Lemma suppression_local_extrema_witness :
  at_ (applySuppression ridge) 1 1 = 4%R.
Proof.
  assert (Hin : interior (magnitude ridge) 1 1) by (unfold interior; simpl; lia).
  assert (Hangle : (- PI <= at_ (direction ridge) 1 1 <= PI)%R).
  { simpl. pose proof PI_RGT_0. lra. }
  apply (proj1 (suppression_local_extrema ridge 1 1 Hin Hangle)).
  intros y' x' _. simpl.
  destruct ((y' =? 1) && (x' =? 0)); [lra|]. destruct (y' =? 1); lra.
Defined.

(** X10: a direction outside [-pi, pi] falls in no sector: the pixel is compared
    with the constant 255 and survives exactly when its magnitude is
    >= 255. *)
Theorem suppression_outside_all_sectors (gradients : GradientResult) (y x : Z) :
  interior (magnitude gradients) y x ->
  (normalizedDegrees (at_ (direction gradients) y x) < 0
   \/ 180 < normalizedDegrees (at_ (direction gradients) y x))%R ->
  let m := at_ (magnitude gradients) y x in
  ((255 <= m)%R -> at_ (applySuppression gradients) y x = m) /\
  ((m < 255)%R -> at_ (applySuppression gradients) y x = 0%R).
Proof.
  intros Hin Hdeg m.
  destruct (applySuppression_spec gradients) as (_ & _ & Hv & _).
  rewrite (Hv y x Hin). unfold suppressedValue. cbv zeta.
  rewrite normalizedDegrees_source. fold m. revert Hdeg.
  generalize (normalizedDegrees (at_ (direction gradients) y x)). intros deg Hdeg.
  assert (E : 255.0%R = 255%R) by lra.
  unfold Rgeb.
  destruct Hdeg as [Hdeg | Hdeg]; decide_comparisons; simpl; rewrite E;
    (split; intros H; decide_comparisons; reflexivity).
Qed.

Lemma suppression_outside_all_sectors_witness :
  at_ (applySuppression
         (mkGradientResult (uniform 3 3 300%R) (uniform 3 3 (2 * PI)%R))) 1 1 = 300%R.
Proof.
  set (g := mkGradientResult (uniform 3 3 300%R) (uniform 3 3 (2 * PI)%R)).
  assert (Hin : interior (magnitude g) 1 1) by (unfold interior; simpl; lia).
  assert (Hdeg : (normalizedDegrees (at_ (direction g) 1 1) < 0
                  \/ 180 < normalizedDegrees (at_ (direction g) 1 1))%R).
  { right. simpl at_. unfold normalizedDegrees. pose proof PI_RGT_0 as Hpi.
    replace (2 * PI * 180 / PI)%R with 360%R by (field; lra).
    destruct (Rlt_dec 360 0); lra. }
  apply (proj1 (suppression_outside_all_sectors g 1 1 Hin Hdeg)). simpl. lra.
Defined.

(** X11: a grid with fewer than three rows or columns has no interior:
    applySuppression returns zeros, and applyThresholding then marks every
    pixel as an edge. *)
Theorem thin_grid_is_all_edges (fuel : nat) (gradients : GradientResult) (low high : R) :
  rows (magnitude gradients) < 3 \/ cols (magnitude gradients) < 3 ->
  (pixelCount (magnitude gradients) < fuel)%nat ->
  (forall y x, at_ (applySuppression gradients) y x = 0%R) /\
  exists mask,
    applyThresholding fuel (applySuppression gradients) low high = Some mask /\
    forall y x, inside (magnitude gradients) y x -> at_ mask y x = 255.
Proof.
  intros Hthin Hfuel.
  destruct (applySuppression_spec gradients) as (Hr & Hc & _ & Hout).
  assert (Hzero : forall y x, at_ (applySuppression gradients) y x = 0%R).
  { intros y x. apply Hout. unfold interior. lia. }
  split; [exact Hzero|].
  destruct (zero_grid_all_strong fuel (applySuppression gradients) low high Hzero)
    as (mask & Hrun & Hmr & Hmc & Hall).
  - unfold pixelCount in *. now rewrite Hr, Hc.
  - exists mask. split; [exact Hrun|].
    intros y x Hin. apply Hall. unfold inside in *. rewrite Hmr, Hmc, Hr, Hc. exact Hin.
Qed.

Lemma thin_grid_is_all_edges_witness :
  exists mask,
    applyThresholding 7
      (applySuppression (mkGradientResult (uniform 2 3 9%R) (uniform 2 3 0%R)))
      0.05 0.15 = Some mask /\
    forall y x, inside (uniform 2 3 9%R) y x -> at_ mask y x = 255.
Proof.
  apply (thin_grid_is_all_edges 7 (mkGradientResult (uniform 2 3 9%R) (uniform 2 3 0%R))).
  - left. simpl. lia.
  - unfold pixelCount. simpl. lia.
Defined.

(** ** More on thresholding *)

Lemma Grown_mono (P P' : Z -> Z -> Prop) (w w' s s' : Mat Z) :
  (forall y x, at_ s y x = 255 -> Grown P' w' s' y x) ->
  (forall y x, P y x -> at_ w y x = 255 ->
     at_ s' y x = 255 \/ (P' y x /\ at_ w' y x = 255)) ->
  forall y x, Grown P w s y x -> Grown P' w' s' y x.
Proof.
  intros Hs Hw y x G.
  induction G as [y x H | y x y' x' HP Hweak Hadj _ IH].
  - now apply Hs.
  - destruct (Hw y x HP Hweak) as [H | [HP' H]].
    + now apply grown_strong.
    + now apply grown_weak with (y' := y') (x' := x').
Qed.

Lemma interior_masks (suppressed : Mat R) (low high : R) (y x : Z) :
  interior (snd (thresholdMasks suppressed low high)) y x <-> interior suppressed y x.
Proof.
  destruct (thresholdMasks_dims suppressed low high) as (_ & _ & Hr & Hc).
  unfold interior. rewrite Hr, Hc. tauto.
Qed.

(** X12: every pixel at or above the high threshold is in the mask, and every
    pixel of the mask below the high threshold is an interior pixel at or
    above the low threshold. *)
Theorem mask_between_strong_and_weak (fuel : nat) (suppressed : Mat R) (low high : R) :
  (pixelCount suppressed < fuel)%nat ->
  let M := minMaxLoc_maxVal suppressed in
  exists mask,
    applyThresholding fuel suppressed low high = Some mask /\
    (forall y x, inside suppressed y x -> (at_ suppressed y x >= high * M)%R ->
       at_ mask y x = 255) /\
    (forall y x, at_ mask y x = 255 ->
       inside suppressed y x /\
       ((at_ suppressed y x >= high * M)%R
        \/ (interior suppressed y x /\ (at_ suppressed y x >= low * M)%R))).
Proof.
  intros Hfuel M.
  destruct (applyThresholding_spec fuel suppressed low high Hfuel)
    as (mask & Hrun & _ & _ & _ & Hm).
  exists mask. split; [exact Hrun|]. split.
  - intros y x Hin Hv. apply Hm. apply grown_strong. apply strong_iff. now split.
  - intros y x H. apply Hm in H.
    inversion H as [y0 x0 Hs | y0 x0 y' x' Hint Hw]; subst.
    + apply strong_iff in Hs as [Hin Hs]. auto.
    + apply interior_masks in Hint.
      apply weak_iff in Hw as (Hin & _ & Hw). auto.
Qed.

Lemma mask_between_strong_and_weak_witness :
  exists mask,
    applyThresholding 10 peak 0 0.5 = Some mask /\
    (forall y x, inside peak y x ->
       (at_ peak y x >= 0.5 * minMaxLoc_maxVal peak)%R -> at_ mask y x = 255).
Proof.
  destruct (mask_between_strong_and_weak 10 peak 0 0.5 pixelCount_peak)
    as (mask & Hrun & Hs & _).
  exists mask. split; [exact Hrun | exact Hs].
Defined.

(** X13: with a high ratio <= 1 on a grid whose maximum is not negative, the
    pixels at the global maximum are always edges: the mask of a grid with at
    least one pixel is never empty. *)
Theorem maximum_is_always_an_edge (fuel : nat) (suppressed : Mat R) (low high : R) :
  (pixelCount suppressed < fuel)%nat ->
  (0 <= minMaxLoc_maxVal suppressed)%R -> (high <= 1)%R ->
  exists mask,
    applyThresholding fuel suppressed low high = Some mask /\
    (forall y x, inside suppressed y x ->
       at_ suppressed y x = minMaxLoc_maxVal suppressed -> at_ mask y x = 255) /\
    ((exists y x, inside suppressed y x) ->
     exists y x, inside suppressed y x /\ at_ mask y x = 255).
Proof.
  intros Hfuel HM Hhigh.
  destruct (applyThresholding_spec fuel suppressed low high Hfuel)
    as (mask & Hrun & _ & _ & _ & Hm).
  exists mask. split; [exact Hrun|].
  assert (Hmax : forall y x, inside suppressed y x ->
            at_ suppressed y x = minMaxLoc_maxVal suppressed -> at_ mask y x = 255).
  { intros y x Hin Hv. apply Hm. apply grown_strong. apply strong_iff.
    split; [exact Hin|]. rewrite Hv.
    assert (high * minMaxLoc_maxVal suppressed <= 1 * minMaxLoc_maxVal suppressed)%R
      by (apply Rmult_le_compat_r; lra).
    lra. }
  split; [exact Hmax|].
  intros (y & x & Hin).
  destruct (maxVal_attained suppressed) as [(y' & x' & Hin' & E) | [Hempty _]].
  - exists y', x'. split; [exact Hin' | now apply Hmax].
  - now destruct (Hempty y x).
Qed.

Lemma maximum_is_always_an_edge_witness :
  exists mask,
    applyThresholding 10 peak 0.05 0.15 = Some mask /\
    (forall y x, inside peak y x ->
       at_ peak y x = minMaxLoc_maxVal peak -> at_ mask y x = 255).
Proof.
  assert (HM : (0 <= minMaxLoc_maxVal peak)%R) by (rewrite maxVal_peak; lra).
  assert (Hh : (0.15 <= 1)%R) by lra.
  destruct (maximum_is_always_an_edge 10 peak 0.05 0.15 pixelCount_peak HM Hh)
    as (mask & Hrun & Hmax & _).
  exists mask. split; [exact Hrun | exact Hmax].
Defined.

(** X14: with a high ratio of 0 every pixel of a grid without negative values is
    an edge. *)
Theorem zero_high_ratio_accepts_everything (fuel : nat) (suppressed : Mat R) (low : R) :
  (pixelCount suppressed < fuel)%nat ->
  (forall y x, inside suppressed y x -> (0 <= at_ suppressed y x)%R) ->
  exists mask,
    applyThresholding fuel suppressed low 0 = Some mask /\
    forall y x, inside suppressed y x -> at_ mask y x = 255.
Proof.
  intros Hfuel Hpos.
  destruct (applyThresholding_spec fuel suppressed low 0 Hfuel)
    as (mask & Hrun & _ & _ & _ & Hm).
  exists mask. split; [exact Hrun|].
  intros y x Hin. apply Hm. apply grown_strong. apply strong_iff.
  split; [exact Hin|]. specialize (Hpos y x Hin). lra.
Qed.

Lemma zero_high_ratio_accepts_everything_witness :
  exists mask,
    applyThresholding 10 peak 0 0 = Some mask /\
    forall y x, inside peak y x -> at_ mask y x = 255.
Proof.
  apply (zero_high_ratio_accepts_everything 10 peak 0 pixelCount_peak).
  intros y x _. simpl. destruct ((y =? 1) && (x =? 1)); lra.
Defined.

(** X15: lowering the low ratio can only add edges. *)
Theorem lower_low_ratio_grows_mask (fuel : nat) (suppressed : Mat R) (low low' high : R) :
  (pixelCount suppressed < fuel)%nat ->
  (0 <= minMaxLoc_maxVal suppressed)%R -> (low' <= low)%R ->
  exists mask mask',
    applyThresholding fuel suppressed low high = Some mask /\
    applyThresholding fuel suppressed low' high = Some mask' /\
    forall y x, at_ mask y x = 255 -> at_ mask' y x = 255.
Proof.
  intros Hfuel HM Hlow.
  destruct (applyThresholding_spec fuel suppressed low high Hfuel)
    as (mask & Hrun & _ & _ & _ & Hm).
  destruct (applyThresholding_spec fuel suppressed low' high Hfuel)
    as (mask' & Hrun' & _ & _ & _ & Hm').
  exists mask, mask'. split; [exact Hrun|]. split; [exact Hrun'|].
  intros y x H. apply Hm'. apply Hm in H. revert y x H. apply Grown_mono.
  - intros y x Hs. apply grown_strong. apply strong_iff. now apply strong_iff in Hs.
  - intros y x Hint Hw. right. split.
    + apply interior_masks. now apply interior_masks in Hint.
    + apply weak_iff. apply weak_iff in Hw as (Hin & H1 & H2).
      split; [exact Hin|]. split; [exact H1|].
      assert (low' * minMaxLoc_maxVal suppressed <= low * minMaxLoc_maxVal suppressed)%R
        by (apply Rmult_le_compat_r; lra).
      lra.
Qed.

Lemma lower_low_ratio_grows_mask_witness :
  exists mask mask',
    applyThresholding 10 peak 0.5 0.8 = Some mask /\
    applyThresholding 10 peak 0.1 0.8 = Some mask' /\
    forall y x, at_ mask y x = 255 -> at_ mask' y x = 255.
Proof.
  apply (lower_low_ratio_grows_mask 10 peak 0.5 0.1 0.8 pixelCount_peak).
  - rewrite maxVal_peak. lra.
  - lra.
Defined.

(** X16: raising the high ratio can only remove edges. *)
Theorem higher_high_ratio_shrinks_mask (fuel : nat) (suppressed : Mat R)
    (low high high' : R) :
  (pixelCount suppressed < fuel)%nat ->
  (0 <= minMaxLoc_maxVal suppressed)%R -> (high <= high')%R ->
  exists mask mask',
    applyThresholding fuel suppressed low high = Some mask /\
    applyThresholding fuel suppressed low high' = Some mask' /\
    forall y x, at_ mask' y x = 255 -> at_ mask y x = 255.
Proof.
  intros Hfuel HM Hhigh.
  destruct (applyThresholding_spec fuel suppressed low high Hfuel)
    as (mask & Hrun & _ & _ & _ & Hm).
  destruct (applyThresholding_spec fuel suppressed low high' Hfuel)
    as (mask' & Hrun' & _ & _ & _ & Hm').
  exists mask, mask'. split; [exact Hrun|]. split; [exact Hrun'|].
  assert (Hle : (high * minMaxLoc_maxVal suppressed
                 <= high' * minMaxLoc_maxVal suppressed)%R)
    by (apply Rmult_le_compat_r; lra).
  intros y x H. apply Hm. apply Hm' in H. revert y x H. apply Grown_mono.
  - intros y x Hs. apply grown_strong. apply strong_iff.
    apply strong_iff in Hs as [Hin Hs]. split; [exact Hin | lra].
  - intros y x Hint Hw. apply weak_iff in Hw as (Hin & H1 & H2).
    destruct (Rlt_dec (at_ suppressed y x) (high * minMaxLoc_maxVal suppressed))
      as [Hlt | Hge].
    + right. split.
      * apply interior_masks. now apply interior_masks in Hint.
      * apply weak_iff. auto.
    + left. apply strong_iff. split; [exact Hin | lra].
Qed.

Lemma higher_high_ratio_shrinks_mask_witness :
  exists mask mask',
    applyThresholding 10 peak 0.1 0.5 = Some mask /\
    applyThresholding 10 peak 0.1 0.8 = Some mask' /\
    forall y x, at_ mask' y x = 255 -> at_ mask y x = 255.
Proof.
  apply (higher_high_ratio_shrinks_mask 10 peak 0.1 0.5 0.8 pixelCount_peak).
  - rewrite maxVal_peak. lra.
  - lra.
Defined.

(** ** Gray and flat pictures in colour mode *)

Lemma atan2_scale (k y x : R) :
  (0 < k)%R -> atan2 (k * y) (k * x) = atan2 y x.
Proof.
  intros Hk. unfold atan2.
  assert (Hdiv : (x <> 0)%R -> (k * y / (k * x) = y / x)%R) by (intros; field; lra).
  destruct (Rlt_dec 0 (k * x)), (Rlt_dec 0 x); try nra.
  - rewrite Hdiv by lra. reflexivity.
  - destruct (Rlt_dec (k * x) 0), (Rlt_dec x 0); try nra.
    + rewrite Hdiv by lra.
      destruct (Rle_dec 0 (k * y)), (Rle_dec 0 y); try nra; reflexivity.
    + destruct (Rlt_dec 0 (k * y)), (Rlt_dec 0 y); try nra; try reflexivity.
      destruct (Rlt_dec (k * y) 0), (Rlt_dec y 0); try nra; reflexivity.
Qed.

Lemma eigenAngle_scale (k gxx gyy gxy : R) :
  (0 < k)%R -> eigenAngle (k * gxx) (k * gyy) (k * gxy) = eigenAngle gxx gyy gxy.
Proof.
  intros Hk. unfold eigenAngle.
  replace (k * gxx - k * gyy)%R with (k * (gxx - gyy))%R by ring.
  replace (2 * (k * gxy))%R with (k * (2 * gxy))%R by ring.
  rewrite atan2_scale by exact Hk.
  unfold Rltb. destruct (Rlt_dec (k * (gxx - gyy)) 0), (Rlt_dec (gxx - gyy) 0);
    try reflexivity; nra.
Qed.

Lemma magnitudeRadicand_scale (k gxx gyy gxy : R) :
  (0 < k)%R ->
  magnitudeRadicand (k * gxx) (k * gyy) (k * gxy)
  = (k * magnitudeRadicand gxx gyy gxy)%R.
Proof.
  intros Hk. unfold magnitudeRadicand. rewrite eigenAngle_scale by exact Hk.
  replace 0.5%R with (/ 2)%R by lra. field.
Qed.

(** X18: where the three planes of a colour image have the same integer
    derivatives (a gray picture stored as an 8-bit colour image), the
    colour coefficients are three times the grayscale coefficients, the
    direction is the grayscale direction and the magnitude is the grayscale
    magnitude multiplied by sqrt 3. *)
Theorem gray_planes_in_colour_mode (gradientX gradientY : Mat R) (y x : Z) :
  inside gradientX y x ->
  intDerivative (at_ gradientX y x) -> intDerivative (at_ gradientY y x) ->
  let cg := computeCoefficientsGray gradientX gradientY in
  let cc := computeCoefficientsColor [gradientX; gradientX; gradientX]
                                     [gradientY; gradientY; gradientY] in
  (at_ (fst (fst cc)) y x = 3 * at_ (fst (fst cg)) y x /\
   at_ (snd (fst cc)) y x = 3 * at_ (snd (fst cg)) y x /\
   at_ (snd cc) y x = 3 * at_ (snd cg) y x)%R /\
  at_ (calculateGradientDirection (fst (fst cc)) (snd (fst cc)) (snd cc)) y x
  = at_ (calculateGradientDirection (fst (fst cg)) (snd (fst cg)) (snd cg)) y x /\
  at_ (calculateGradientMagnitude (fst (fst cc)) (snd (fst cc)) (snd cc)) y x
  = (sqrt 3 * at_ (calculateGradientMagnitude (fst (fst cg)) (snd (fst cg)) (snd cg)) y x)%R.
Proof.
  intros Hin _ _ cg cc.
  destruct (computeCoefficientsGray_spec gradientX gradientY) as (Hgr & Hgc & Hg).
  destruct (computeCoefficientsColor_spec [gradientX; gradientX; gradientX]
                                          [gradientY; gradientY; gradientY])
    as (Hcr & Hcc & Hc).
  unfold channel in Hcr, Hcc, Hc. simpl nth in Hcr, Hcc, Hc.
  fold cg in Hgr, Hgc, Hg. fold cc in Hcr, Hcc, Hc.
  assert (Hing : inside (fst (fst cg)) y x)
    by (unfold inside in *; rewrite Hgr, Hgc; exact Hin).
  assert (Hinc : inside (fst (fst cc)) y x)
    by (unfold inside in *; rewrite Hcr, Hcc; exact Hin).
  assert (Htriple : (at_ (fst (fst cc)) y x = 3 * at_ (fst (fst cg)) y x /\
                     at_ (snd (fst cc)) y x = 3 * at_ (snd (fst cg)) y x /\
                     at_ (snd cc) y x = 3 * at_ (snd cg) y x)%R).
  { destruct (Hg y x Hin) as (-> & -> & ->).
    destruct (Hc y x Hin) as (-> & -> & ->). unfold pow2.
    split; [|split]; ring. }
  split; [exact Htriple|].
  destruct (calculateGradientMagnitude_spec (fst (fst cg)) (snd (fst cg)) (snd cg))
    as (_ & _ & Hmg & _).
  destruct (calculateGradientMagnitude_spec (fst (fst cc)) (snd (fst cc)) (snd cc))
    as (_ & _ & Hmc & _).
  destruct (calculateGradientDirection_spec (fst (fst cg)) (snd (fst cg)) (snd cg))
    as (_ & _ & Hdg).
  destruct (calculateGradientDirection_spec (fst (fst cc)) (snd (fst cc)) (snd cc))
    as (_ & _ & Hdc).
  assert (H3 : (0 < 3)%R) by lra.
  destruct Htriple as (Exx & Eyy & Exy). split.
  - rewrite (Hdc y x Hinc), (Hdg y x Hing), Exx, Eyy, Exy.
    now apply eigenAngle_scale.
  - rewrite (Hmc y x Hinc), (Hmg y x Hing), Exx, Eyy, Exy.
    rewrite magnitudeRadicand_scale by exact H3.
    apply sqrt_mult_alt. lra.
Qed.

Lemma gray_planes_in_colour_mode_witness :
  let cg := computeCoefficientsGray (uniform 1 1 3%R) (uniform 1 1 4%R) in
  let cc := computeCoefficientsColor
              [uniform 1 1 3%R; uniform 1 1 3%R; uniform 1 1 3%R]
              [uniform 1 1 4%R; uniform 1 1 4%R; uniform 1 1 4%R] in
  at_ (calculateGradientMagnitude (fst (fst cc)) (snd (fst cc)) (snd cc)) 0 0
  = (sqrt 3 * at_ (calculateGradientMagnitude (fst (fst cg)) (snd (fst cg)) (snd cg)) 0 0)%R.
Proof.
  intros cg cc.
  assert (Hin : inside (uniform 1 1 3%R) 0 0) by (unfold inside; simpl; lia).
  assert (H3 : intDerivative (at_ (uniform 1 1 3%R) 0 0))
    by (exists 3; split; [reflexivity | lia]).
  assert (H4 : intDerivative (at_ (uniform 1 1 4%R) 0 0))
    by (exists 4; split; [reflexivity | lia]).
  exact (proj2 (proj2 (gray_planes_in_colour_mode (uniform 1 1 3%R) (uniform 1 1 4%R)
                         0 0 Hin H3 H4))).
Defined.

Section FlatColourImage.

Variable GaussianBlur : Mat R -> Z -> R -> Mat R.
Variable Sobel : Mat R -> Z -> Z -> Z -> Mat R.

Hypothesis GaussianBlur_size : forall m ksize sigma,
  0 < rows m -> 0 < cols m ->
  rows (GaussianBlur m ksize sigma) = rows m /\
  cols (GaussianBlur m ksize sigma) = cols m.
Hypothesis Sobel_size : forall m xorder yorder ksize,
  0 < rows m -> 0 < cols m ->
  rows (Sobel m xorder yorder ksize) = rows m /\
  cols (Sobel m xorder yorder ksize) = cols m.

(** X22: the colour path on a flat image.  When the derivatives of the
    three blurred planes are zero at every pixel, process in colour mode
    returns the mask with every pixel 255, as the grayscale path does on a
    flat grayscale image. *)
Theorem flat_colour_image_is_all_edges (fuel : nat) (c0 c1 c2 : Mat R)
    (sd low high : R) :
  let params := mkGradientParams [c0; c1; c2] sd low high true in
  let blur plane := GaussianBlur plane (calculateGaussianKernelSize sd) sd in
  0 < rows c0 -> 0 < cols c0 ->
  (forall plane, In plane [c0; c1; c2] ->
     forall y x, inside c0 y x ->
       at_ (Sobel (blur plane) 1 0 3) y x = 0%R /\
       at_ (Sobel (blur plane) 0 1 3) y x = 0%R) ->
  (pixelCount c0 < fuel)%nat ->
  exists mask,
    process GaussianBlur Sobel fuel params = Some mask /\
    rows mask = rows c0 /\ cols mask = cols c0 /\
    forall y x, inside mask y x -> at_ mask y x = 255.
Proof.
  intros params blur Hrows Hcols Hflat Hfuel.
  rewrite (process_color GaussianBlur Sobel fuel params c0 c1 c2 eq_refl eq_refl).
  unfold params. cbn [sigma lowThreshold highThreshold].
  fold (blur c0). fold (blur c1). fold (blur c2).
  destruct (GaussianBlur_size c0 (calculateGaussianKernelSize sd) sd Hrows Hcols)
    as [Hbr Hbc]. fold (blur c0) in Hbr, Hbc.
  destruct (Sobel_size (blur c0) 1 0 3) as [Hsr Hsc]; try lia.
  destruct (computeCoefficientsColor_spec
              [Sobel (blur c0) 1 0 3; Sobel (blur c1) 1 0 3; Sobel (blur c2) 1 0 3]
              [Sobel (blur c0) 0 1 3; Sobel (blur c1) 0 1 3; Sobel (blur c2) 0 1 3])
    as (Hr & Hc & Hpx).
  unfold channel in Hr, Hc, Hpx. simpl nth in Hr, Hc, Hpx.
  set (c := computeCoefficientsColor _ _) in *.
  rewrite Hsr, Hbr in Hr. rewrite Hsc, Hbc in Hc.
  destruct (calculateGradientMagnitude_spec (fst (fst c)) (snd (fst c)) (snd c))
    as (Hmr & Hmc & _).
  set (gradients :=
         mkGradientResult
           (calculateGradientMagnitude (fst (fst c)) (snd (fst c)) (snd c))
           (calculateGradientDirection (fst (fst c)) (snd (fst c)) (snd c))).
  assert (Hmag : forall y x, at_ (magnitude gradients) y x = 0%R).
  { apply flat_magnitude. intros y x [Hy Hx]. rewrite Hr in Hy. rewrite Hc in Hx.
    assert (Hin0 : inside c0 y x) by (split; assumption).
    destruct (Hpx y x) as (-> & -> & ->).
    - unfold inside. rewrite Hsr, Hsc, Hbr, Hbc. exact Hin0.
    - destruct (Hflat c0 ltac:(simpl; auto) y x Hin0) as [-> ->].
      destruct (Hflat c1 ltac:(simpl; auto) y x Hin0) as [-> ->].
      destruct (Hflat c2 ltac:(simpl; auto) y x Hin0) as [-> ->].
      unfold pow2. split; [|split]; ring. }
  destruct (applySuppression_spec gradients) as (Hpr & Hpc & _).
  simpl magnitude in Hpr, Hpc. rewrite Hmr, Hr in Hpr. rewrite Hmc, Hc in Hpc.
  destruct (zero_grid_all_strong fuel (applySuppression gradients) low high
              (flat_suppression gradients Hmag))
    as (mask & Hrun & Hkr & Hkc & Hall).
  - unfold pixelCount in *. rewrite Hpr, Hpc. exact Hfuel.
  - exists mask. split; [exact Hrun|]. rewrite Hpr in Hkr. rewrite Hpc in Hkc.
    split; [exact Hkr|]. split; [exact Hkc|]. exact Hall.
Qed.

End FlatColourImage.

Lemma flat_colour_image_is_all_edges_witness :
  exists mask,
    process identityBlur sobel3 26
      (mkGradientParams [uniform 5 5 200%R; uniform 5 5 100%R; uniform 5 5 50%R]
                        1.4 0.05 0.15 true) = Some mask /\
    rows mask = 5 /\ cols mask = 5 /\
    forall y x, inside mask y x -> at_ mask y x = 255.
Proof.
  apply (flat_colour_image_is_all_edges identityBlur sobel3 identityBlur_size sobel3_size
           26 (uniform 5 5 200%R) (uniform 5 5 100%R) (uniform 5 5 50%R) 1.4 0.05 0.15).
  - simpl. lia.
  - simpl. lia.
  - intros plane [<- | [<- | [<- | []]]] y x _;
      split; apply sobel3_uniform.
  - unfold pixelCount. simpl. lia.
Defined.

(** * The user interface *)

(** ** Trimming the selected path *)

Lemma first_not_of_from_spec (chars s : std_string) (pos : Z) :
  (first_not_of_from pos s chars = npos /\ forallb (oneOf chars) s = true)
  \/ exists k c, (k < length s)%nat /\
       first_not_of_from pos s chars = pos + Z.of_nat k /\
       forallb (oneOf chars) (firstn k s) = true /\
       nth_error s k = Some c /\ oneOf chars c = false.
Proof.
  revert pos. induction s as [|c s IH]; intros pos; simpl.
  - left. split; reflexivity.
  - destruct (oneOf chars c) eqn:E.
    + destruct (IH (pos + 1)) as [[H1 H2] | (k & c' & Hk & H1 & H2 & H3 & H4)].
      * left. split; assumption.
      * right. exists (S k), c'. simpl. rewrite E.
        repeat split; try assumption; lia.
    + right. exists 0%nat, c. simpl. repeat split; try assumption; lia.
Qed.

Lemma last_not_of_from_spec (chars s : std_string) (pos found : Z) :
  (last_not_of_from pos s chars found = found /\ forallb (oneOf chars) s = true)
  \/ exists k c, (k < length s)%nat /\
       last_not_of_from pos s chars found = pos + Z.of_nat k /\
       nth_error s k = Some c /\ oneOf chars c = false /\
       forallb (oneOf chars) (skipn (S k) s) = true.
Proof.
  revert pos found. induction s as [|c s IH]; intros pos found; simpl.
  - left. split; reflexivity.
  - destruct (IH (pos + 1) (if oneOf chars c then found else pos))
      as [[H1 H2] | (k & c' & Hk & H1 & H2 & H3 & H4)].
    + destruct (oneOf chars c) eqn:E.
      * left. split; assumption.
      * right. exists 0%nat, c. simpl. repeat split; try assumption; lia.
    + right. exists (S k), c'. simpl.
      repeat split; try assumption; lia.
Qed.

Lemma fold_left_append (chunks : list std_string) (acc : std_string) :
  fold_left (fun result buffer => result ++ c_str buffer) chunks acc
  = acc ++ concat (map c_str chunks).
Proof.
  revert acc. induction chunks as [|b l IH]; intros acc; simpl.
  - now rewrite app_nil_r.
  - now rewrite IH, app_assoc.
Qed.

Lemma erase_prefix (s : std_string) (k : nat) :
  (k <= length s)%nat -> erase s 0 (Z.of_nat k) = Some (skipn k s).
Proof.
  intros Hk. unfold erase.
  destruct (Z.ltb_spec (Z.of_nat (length s)) 0); [lia|].
  simpl firstn. simpl app. do 2 f_equal. lia.
Qed.

Lemma erase_suffix (s : std_string) (k : nat) :
  (k <= length s)%nat -> Z.of_nat (length s) < npos ->
  erase s (Z.of_nat k) npos = Some (firstn k s).
Proof.
  intros Hk Hlen. unfold erase.
  destruct (Z.ltb_spec (Z.of_nat (length s)) (Z.of_nat k)); [lia|].
  rewrite Nat2Z.id.
  replace (Z.to_nat (Z.of_nat k + Z.min npos (Z.of_nat (length s) - Z.of_nat k)))
    with (length s) by lia.
  now rewrite skipn_all, app_nil_r.
Qed.

Lemma npos_value : npos = 18446744073709551615.
Proof. reflexivity. Qed.

(** X19: selectImageFile never throws.  What it accumulates is each chunk up
    to its first NUL byte; it returns that text with the blanks before its
    first and after its last non-blank character removed: nothing else is
    removed, and a text made of blanks only gives the empty string. *)
Theorem selectImageFile_trims (chunks : list std_string) :
  Z.of_nat (length (concat (map c_str chunks))) < npos ->
  exists result lead trail,
    selectImageFile (Some chunks) = Some result /\
    concat (map c_str chunks) = lead ++ result ++ trail /\
    forallb (oneOf blanks) lead = true /\
    forallb (oneOf blanks) trail = true /\
    (result = []
     \/ exists a b, hd_error result = Some a /\ oneOf blanks a = false /\
                    nth_error result (length result - 1) = Some b /\
                    oneOf blanks b = false) /\
    (forallb (oneOf blanks) (concat (map c_str chunks)) = true -> result = []).
Proof.
  intros Hlen. unfold selectImageFile. rewrite fold_left_append. simpl app.
  set (output := concat (map c_str chunks)) in *.
  unfold find_first_not_of.
  destruct (first_not_of_from_spec blanks output 0)
    as [[Hf Hall] | (k & c & Hk & Hf & Hlead & Hc & Hcb)]; rewrite Hf.
  - (* blanks only *)
    assert (E : erase output 0 npos = Some []).
    { change 0 with (Z.of_nat 0). rewrite erase_suffix by (assumption || lia). reflexivity. }
    rewrite E. exists [], output, []. simpl.
    rewrite app_nil_r. repeat split; auto.
  - simpl Z.add. rewrite erase_prefix by lia.
    set (rest := skipn k output).
    assert (Hsplit : output = firstn k output ++ rest) by (symmetry; apply firstn_skipn).
    assert (Hhd : hd_error rest = Some c).
    { unfold rest. rewrite <- (firstn_skipn k output) in Hc.
      rewrite nth_error_app2 in Hc by (rewrite length_firstn; lia).
      rewrite length_firstn, Nat.min_l, Nat.sub_diag in Hc by lia.
      destruct (skipn k output); [discriminate | exact Hc]. }
    assert (Hrest : (length rest <= length output)%nat)
      by (unfold rest; rewrite length_skipn; lia).
    unfold find_last_not_of.
    destruct (last_not_of_from_spec blanks rest 0 npos)
      as [[_ Hall] | (j & c' & Hj & Hl & Hcj & Hcjb & Htrail)].
    + destruct rest as [|c0 rest']; [discriminate|].
      simpl in Hhd. inversion Hhd; subst c0.
      change (oneOf blanks c && forallb (oneOf blanks) rest' = true) in Hall.
      rewrite Hcb in Hall. discriminate.
    + rewrite Hl. simpl Z.add.
      assert (Ewrap : size_t_add (Z.of_nat j) 1 = Z.of_nat (S j)).
      { unfold size_t_add. rewrite Z.mod_small; [lia|]. unfold npos in *. lia. }
      rewrite Ewrap, erase_suffix by lia.
      exists (firstn (S j) rest), (firstn k output), (skipn (S j) rest).
      split; [reflexivity|]. split.
      { rewrite firstn_skipn. exact Hsplit. }
      split; [exact Hlead|]. split; [exact Htrail|]. split.
      * right. exists c, c'. split.
        { destruct rest; [discriminate | exact Hhd]. }
        split; [exact Hcb|]. split; [|exact Hcjb].
        rewrite length_firstn, Nat.min_l by lia.
        rewrite nth_error_firstn.
        replace (S j - 1)%nat with j by lia.
        destruct (Nat.ltb_spec j (S j)); [exact Hcj | lia].
      * intros Hall. exfalso.
        assert (Hin : In c output) by (eapply nth_error_In; exact Hc).
        rewrite forallb_forall in Hall. rewrite (Hall c Hin) in Hcb. discriminate.
Qed.

Lemma selectImageFile_trims_witness :
  exists result lead trail,
    selectImageFile (Some [literal " /tmp/a b.png"%string; ["010"%char]]) = Some result /\
    concat (map c_str [literal " /tmp/a b.png"%string; ["010"%char]])
    = lead ++ result ++ trail.
Proof.
  destruct (selectImageFile_trims [literal " /tmp/a b.png"%string; ["010"%char]])
    as (result & lead & trail & Hrun & Hsplit & _).
  - vm_compute. reflexivity.
  - exists result, lead, trail. split; assumption.
Defined.

Example selectImageFile_path :
  selectImageFile (Some [literal " /tmp/a b.png"%string; ["010"%char]])
  = Some (literal "/tmp/a b.png"%string).
Proof. reflexivity. Qed.

Example selectImageFile_blank :
  selectImageFile (Some [literal "  "%string; ["010"%char]]) = Some [].
Proof. reflexivity. Qed.

(** A line with a NUL byte in it: what follows the NUL byte in the buffer
    is not appended. *)
Example selectImageFile_nul :
  selectImageFile (Some [literal " ab"%string ++ [zero] ++ literal "cd "%string
                         ++ ["010"%char]])
  = Some (literal "ab"%string).
Proof. reflexivity. Qed.

(** ** The display *)

Lemma inRect_iff (r : Rect) (y x : Z) :
  inRect r y x = true <->
  rect_y r <= y < rect_y r + rect_height r /\ rect_x r <= x < rect_x r + rect_width r.
Proof.
  unfold inRect. rewrite !andb_true_iff, !Z.leb_le, !Z.ltb_lt. tauto.
Qed.

Lemma region_inside (outer r : Rect) :
  0 <= rect_x r -> 0 <= rect_width r -> rect_x r + rect_width r <= rect_width outer ->
  0 <= rect_y r -> 0 <= rect_height r -> rect_y r + rect_height r <= rect_height outer ->
  region outer r = Some (mkRect (rect_x outer + rect_x r) (rect_y outer + rect_y r)
                                (rect_width r) (rect_height r)).
Proof.
  intros. unfold region.
  repeat match goal with
  | |- context [?a <=? ?b] => rewrite (proj2 (Z.leb_le a b)) by assumption
  end.
  reflexivity.
Qed.

Lemma at_store {T : Type} (m v : Mat T) (r : Rect) (y x : Z) :
  at_ (store m r v) y x
  = if inRect r y x then at_ v (y - rect_y r) (x - rect_x r) else at_ m y x.
Proof. reflexivity. Qed.

Section UiProperties.

Variable GaussianBlur : Mat R -> Z -> R -> Mat R.
Variable Sobel : Mat R -> Z -> Z -> Z -> Mat R.
Variable putText : Mat BGR -> std_string -> Z -> Z -> Mat BGR.
Variable bannerText : R -> R -> R -> std_string.

Hypothesis GaussianBlur_size : forall m ksize sigma,
  0 < rows m -> 0 < cols m ->
  rows (GaussianBlur m ksize sigma) = rows m /\
  cols (GaussianBlur m ksize sigma) = cols m.
Hypothesis Sobel_size : forall m xorder yorder ksize,
  0 < rows m -> 0 < cols m ->
  rows (Sobel m xorder yorder ksize) = rows m /\
  cols (Sobel m xorder yorder ksize) = cols m.

Lemma process_gray_mask (fuel : nat) (plane : Mat R) (sd low high : R) :
  0 < rows plane -> 0 < cols plane -> (pixelCount plane < fuel)%nat ->
  exists mask,
    process GaussianBlur Sobel fuel (mkGradientParams [plane] sd low high false)
    = Some mask /\
    rows mask = rows plane /\ cols mask = cols plane.
Proof.
  intros Hrows Hcols Hfuel.
  rewrite (process_gray GaussianBlur Sobel fuel
             (mkGradientParams [plane] sd low high false) plane [] eq_refl eq_refl).
  cbn [sigma lowThreshold highThreshold]. simpl map.
  set (blurred := GaussianBlur plane (calculateGaussianKernelSize sd) sd).
  destruct (GaussianBlur_size plane (calculateGaussianKernelSize sd) sd Hrows Hcols)
    as [Hbr Hbc]. fold blurred in Hbr, Hbc.
  destruct (Sobel_size blurred 1 0 3) as [Hsr Hsc]; try lia.
  destruct (floatView_single (Sobel blurred 1 0 3)) as (HvrX & HvcX & _).
  destruct (computeCoefficientsGray_spec (floatView [Sobel blurred 1 0 3])
                                         (floatView [Sobel blurred 0 1 3]))
    as (Hr & Hc & _).
  rewrite HvrX in Hr. rewrite HvcX in Hc.
  set (c := computeCoefficientsGray _ _) in *.
  destruct (calculateGradientMagnitude_spec (fst (fst c)) (snd (fst c)) (snd c))
    as (Hmr & Hmc & _).
  destruct (threshold_of_suppression fuel
              (mkGradientResult
                 (calculateGradientMagnitude (fst (fst c)) (snd (fst c)) (snd c))
                 (calculateGradientDirection (fst (fst c)) (snd (fst c)) (snd c)))
              low high)
    as (mask & Hrun & Hr' & Hc' & _).
  - unfold pixelCount in *. simpl magnitude.
    rewrite Hmr, Hmc, Hr, Hc, Hsr, Hsc, Hbr, Hbc. exact Hfuel.
  - simpl magnitude in Hr', Hc'. exists mask. repeat split; congruence.
Qed.

Lemma process_color_mask (fuel : nat) (c0 c1 c2 : Mat R) (sd low high : R) :
  0 < rows c0 -> 0 < cols c0 -> (pixelCount c0 < fuel)%nat ->
  exists mask,
    process GaussianBlur Sobel fuel (mkGradientParams [c0; c1; c2] sd low high true)
    = Some mask /\
    rows mask = rows c0 /\ cols mask = cols c0.
Proof.
  intros Hrows Hcols Hfuel.
  rewrite (process_color GaussianBlur Sobel fuel
             (mkGradientParams [c0; c1; c2] sd low high true) c0 c1 c2 eq_refl eq_refl).
  cbn [sigma lowThreshold highThreshold].
  set (k := calculateGaussianKernelSize sd).
  destruct (GaussianBlur_size c0 k sd Hrows Hcols) as [Hbr Hbc].
  destruct (Sobel_size (GaussianBlur c0 k sd) 1 0 3) as [Hsr Hsc]; try lia.
  destruct (computeCoefficientsColor_spec
              [Sobel (GaussianBlur c0 k sd) 1 0 3; Sobel (GaussianBlur c1 k sd) 1 0 3;
               Sobel (GaussianBlur c2 k sd) 1 0 3]
              [Sobel (GaussianBlur c0 k sd) 0 1 3; Sobel (GaussianBlur c1 k sd) 0 1 3;
               Sobel (GaussianBlur c2 k sd) 0 1 3]) as (Hr & Hc & _).
  unfold channel in Hr, Hc. simpl nth in Hr, Hc.
  set (c := computeCoefficientsColor _ _) in *.
  destruct (calculateGradientMagnitude_spec (fst (fst c)) (snd (fst c)) (snd c))
    as (Hmr & Hmc & _).
  destruct (threshold_of_suppression fuel
              (mkGradientResult
                 (calculateGradientMagnitude (fst (fst c)) (snd (fst c)) (snd c))
                 (calculateGradientDirection (fst (fst c)) (snd (fst c)) (snd c)))
              low high)
    as (mask & Hrun & Hr' & Hc' & _).
  - unfold pixelCount in *. simpl magnitude.
    rewrite Hmr, Hmc, Hr, Hc, Hsr, Hsc, Hbr, Hbc. exact Hfuel.
  - simpl magnitude in Hr', Hc'. exists mask. repeat split; congruence.
Qed.

(** X20: processImages never fails a region assertion, and the three copies land
    in the display: below the 30 label rows the display shows, side by side,
    the original image, the grayscale mask and the colour mask, each mask
    pixel replicated on the three channels. *)
Theorem display_shows_three_panels (fuel : nat) (originalImage : Mat BGR)
    (grayImage : Mat Z) (params : Parameters) :
  0 < rows originalImage -> 0 < cols originalImage ->
  rows grayImage = rows originalImage -> cols grayImage = cols originalImage ->
  (pixelCount originalImage < fuel)%nat ->
  let lowThr := (IZR (lowThresholdRatio params) / 100.0)%R in
  let highThr := (IZR (highThresholdRatio params) / 100.0)%R in
  let sd := (IZR (sigmaValue params) / 10.0)%R in
  exists grayEdges colorEdges display banner,
    process GaussianBlur Sobel fuel
      (mkGradientParams (planesOfGray grayImage) sd lowThr highThr false)
    = Some grayEdges /\
    process GaussianBlur Sobel fuel
      (mkGradientParams (planesOfColor originalImage) sd lowThr highThr true)
    = Some colorEdges /\
    processImages GaussianBlur Sobel putText bannerText fuel originalImage grayImage params
    = Some (display, banner) /\
    rows display = rows originalImage + 30 /\
    cols display = cols originalImage * 3 /\
    forall y x, 0 <= y < rows originalImage -> 0 <= x < cols originalImage ->
      at_ display (30 + y) x = at_ originalImage y x /\
      at_ display (30 + y) (cols originalImage + x)
      = (at_ grayEdges y x, at_ grayEdges y x, at_ grayEdges y x) /\
      at_ display (30 + y) (2 * cols originalImage + x)
      = (at_ colorEdges y x, at_ colorEdges y x, at_ colorEdges y x).
Proof.
  intros Hrows Hcols Hgr Hgc Hfuel lowThr highThr sd.
  destruct (process_gray_mask fuel
              (mkMat (rows grayImage) (cols grayImage) (fun y x => IZR (at_ grayImage y x)))
              sd lowThr highThr)
    as (grayEdges & HrunG & HGr & HGc).
  { simpl. lia. } { simpl. lia. }
  { unfold pixelCount in *. simpl. now rewrite Hgr, Hgc. }
  destruct (process_color_mask fuel
              (mkMat (rows originalImage) (cols originalImage)
                     (fun y x => IZR (fst (fst (at_ originalImage y x)))))
              (mkMat (rows originalImage) (cols originalImage)
                     (fun y x => IZR (snd (fst (at_ originalImage y x)))))
              (mkMat (rows originalImage) (cols originalImage)
                     (fun y x => IZR (snd (at_ originalImage y x))))
              sd lowThr highThr)
    as (colorEdges & HrunC & HCr & HCc).
  { simpl. lia. } { simpl. lia. } { exact Hfuel. }
  simpl rows in HGr, HCr. simpl cols in HGc, HCc.
  fold (planesOfGray grayImage) in HrunG. fold (planesOfColor originalImage) in HrunC.
  exists grayEdges, colorEdges.
  unfold processImages. fold lowThr highThr sd. rewrite HrunG, HrunC.
  set (h := rows originalImage) in *. set (w := cols originalImage) in *.
  unfold wholeRect. cbn [rows cols].
  rewrite (region_inside (mkRect 0 0 (w * 3) (h + LABEL_HEIGHT))
             (mkRect 0 0 (w * 3) LABEL_HEIGHT))
    by (unfold LABEL_HEIGHT; cbn [rect_x rect_y rect_width rect_height]; lia).
  rewrite (region_inside (mkRect 0 0 (w * 3) (h + LABEL_HEIGHT))
             (mkRect 0 LABEL_HEIGHT (w * 3) h))
    by (unfold LABEL_HEIGHT; cbn [rect_x rect_y rect_width rect_height]; lia).
  cbn [rect_x rect_y rect_width rect_height].
  rewrite (region_inside (mkRect (0 + 0) (0 + LABEL_HEIGHT) (w * 3) h) (mkRect 0 0 w h))
    by (unfold LABEL_HEIGHT; cbn [rect_x rect_y rect_width rect_height]; lia).
  rewrite (region_inside (mkRect (0 + 0) (0 + LABEL_HEIGHT) (w * 3) h) (mkRect w 0 w h))
    by (unfold LABEL_HEIGHT; cbn [rect_x rect_y rect_width rect_height]; lia).
  rewrite (region_inside (mkRect (0 + 0) (0 + LABEL_HEIGHT) (w * 3) h)
             (mkRect (w * 2) 0 w h))
    by (unfold LABEL_HEIGHT; cbn [rect_x rect_y rect_width rect_height]; lia).
  cbn [rect_x rect_y rect_width rect_height].
  unfold copyTo. cbn [rows cols cvtColor_GRAY2BGR rect_width rect_height store].
  fold h w. rewrite HGr, HGc, HCr, HCc, Hgr, Hgc. fold h w.
  rewrite !Z.eqb_refl. cbn [andb].
  eexists. eexists. split; [reflexivity|]. split; [reflexivity|].
  split; [reflexivity|]. split; [reflexivity|]. split; [reflexivity|].
  intros y x Hy Hx. unfold LABEL_HEIGHT. cbn [at_ store].
  repeat split;
    repeat match goal with
    | |- context [inRect ?r ?a ?b] =>
        let E := fresh "E" in
        destruct (inRect r a b) eqn:E;
        [ apply inRect_iff in E
        | apply not_true_iff_false in E; rewrite inRect_iff in E ];
        cbn [rect_x rect_y rect_width rect_height] in E; try lia
    end;
    cbn [rect_x rect_y at_ cvtColor_GRAY2BGR]; repeat f_equal; lia.
Qed.

End UiProperties.

Lemma display_shows_three_panels_witness :
  exists display banner,
    processImages identityBlur sobel3 noText noBanner 26
      (mkMat 5 5 (fun _ _ => (10, 20, 30))) (mkMat 5 5 (fun _ _ => 20)) defaultParameters
    = Some (display, banner) /\
    rows display = 5 + 30 /\ cols display = 5 * 3.
Proof.
  destruct (display_shows_three_panels identityBlur sobel3 noText noBanner
              identityBlur_size sobel3_size 26
              (mkMat 5 5 (fun _ _ => (10, 20, 30))) (mkMat 5 5 (fun _ _ => 20))
              defaultParameters)
    as (grayEdges & colorEdges & display & banner & _ & _ & Hrun & Hr & Hc & _).
  - simpl. lia.
  - simpl. lia.
  - reflexivity.
  - reflexivity.
  - unfold pixelCount. simpl. lia.
  - exists display, banner. repeat split; assumption.
Defined.

(** ** Trackbar positions *)

(** X21: with the trackbars in their ranges (0..100 for the two ratios, 0..50 for
    sigma) processImages calls process with ratios in [0, 1] and sigma in
    [0, 5], and the Gaussian kernel has an odd side between 3 and 31. *)
Theorem trackbar_parameters_in_range (params : Parameters) :
  0 <= lowThresholdRatio params <= 100 ->
  0 <= highThresholdRatio params <= 100 ->
  0 <= sigmaValue params <= 50 ->
  let lowThr := (IZR (lowThresholdRatio params) / 100.0)%R in
  let highThr := (IZR (highThresholdRatio params) / 100.0)%R in
  let sd := (IZR (sigmaValue params) / 10.0)%R in
  (0 <= lowThr <= 1)%R /\ (0 <= highThr <= 1)%R /\ (0 <= sd <= 5)%R /\
  Z.odd (calculateGaussianKernelSize sd) = true /\
  3 <= calculateGaussianKernelSize sd <= 31.
Proof.
  intros [Hl1 Hl2] [Hh1 Hh2] [Hs1 Hs2] lowThr highThr sd.
  apply IZR_le in Hl1, Hl2, Hh1, Hh2, Hs1, Hs2.
  assert (Hlow : (0 <= lowThr <= 1)%R) by (unfold lowThr; lra).
  assert (Hhigh : (0 <= highThr <= 1)%R) by (unfold highThr; lra).
  assert (Hsd : (0 <= sd <= 5)%R) by (unfold sd; lra).
  split; [exact Hlow|]. split; [exact Hhigh|]. split; [exact Hsd|].
  unfold calculateGaussianKernelSize. rewrite lor_one.
  destruct (truncate_nonneg (6 * sd + 1)) as [Hlo _]; [unfold INT_MAX; lra|].
  set (t := truncate (6 * sd + 1)) in *.
  assert (Ht : t <= 31).
  { assert (H : (IZR t < IZR 32)%R) by lra. apply lt_IZR in H. lia. }
  assert (Hdiv : t / 2 <= 15) by (pose proof (Z.div_le_mono t 31 2 ltac:(lia) Ht) as Hm; exact Hm).
  split; [|lia].
  destruct (Z.max_spec 3 (2 * (t / 2) + 1)) as [[_ ->] | [_ ->]].
  - rewrite Z.add_comm, Z.odd_add_mul_2. reflexivity.
  - reflexivity.
Qed.

Lemma trackbar_parameters_in_range_witness :
  3 <= calculateGaussianKernelSize (IZR (sigmaValue defaultParameters) / 10.0) <= 31.
Proof.
  apply (trackbar_parameters_in_range defaultParameters); simpl; lia.
Defined.

(** ** The structure tensor *)

(** X4: from integer derivative values of absolute value at most 1020 (8-bit
    images) the coefficient functions compute a positive semidefinite
    tensor: gxx >= 0, gyy >= 0 and gxy^2 <= gxx * gyy, with equality in
    grayscale mode. *)
Theorem structure_tensor_positive_semidefinite :
  (forall (gradientX gradientY : Mat R) (y x : Z),
     inside gradientX y x ->
     intDerivative (at_ gradientX y x) -> intDerivative (at_ gradientY y x) ->
     let c := computeCoefficientsGray gradientX gradientY in
     (0 <= at_ (fst (fst c)) y x)%R /\ (0 <= at_ (snd (fst c)) y x)%R /\
     (at_ (snd c) y x * at_ (snd c) y x
      = at_ (fst (fst c)) y x * at_ (snd (fst c)) y x)%R) /\
  (forall (gradientX gradientY : list (Mat R)) (y x : Z),
     inside (channel gradientX 0) y x ->
     (forall i, (i < 3)%nat ->
        intDerivative (at_ (channel gradientX i) y x) /\
        intDerivative (at_ (channel gradientY i) y x)) ->
     let c := computeCoefficientsColor gradientX gradientY in
     (0 <= at_ (fst (fst c)) y x)%R /\ (0 <= at_ (snd (fst c)) y x)%R /\
     (at_ (snd c) y x * at_ (snd c) y x
      <= at_ (fst (fst c)) y x * at_ (snd (fst c)) y x)%R).
Proof.
  split.
  - intros gradientX gradientY y x Hin _ _ c.
    destruct (computeCoefficientsGray_spec gradientX gradientY) as (_ & _ & Hpx).
    fold c in Hpx. destruct (Hpx y x Hin) as (-> & -> & ->).
    repeat split; try apply Rle_0_sqr. ring.
  - intros gradientX gradientY y x Hin _ c.
    destruct (computeCoefficientsColor_spec gradientX gradientY) as (_ & _ & Hpx).
    fold c in Hpx. destruct (Hpx y x Hin) as (-> & -> & ->).
    unfold pow2.
    set (x0 := at_ (channel gradientX 0) y x). set (x1 := at_ (channel gradientX 1) y x).
    set (x2 := at_ (channel gradientX 2) y x).
    set (y0 := at_ (channel gradientY 0) y x). set (y1 := at_ (channel gradientY 1) y x).
    set (y2 := at_ (channel gradientY 2) y x).
    pose proof (Rle_0_sqr x0). pose proof (Rle_0_sqr x1). pose proof (Rle_0_sqr x2).
    pose proof (Rle_0_sqr y0). pose proof (Rle_0_sqr y1). pose proof (Rle_0_sqr y2).
    pose proof (Rle_0_sqr (x0 * y1 - x1 * y0)).
    pose proof (Rle_0_sqr (x0 * y2 - x2 * y0)).
    pose proof (Rle_0_sqr (x1 * y2 - x2 * y1)).
    unfold Rsqr in *. split; [lra|]. split; [lra|].
    apply Rminus_le.
    replace ((0 + x0 * y0 + x1 * y1 + x2 * y2) * (0 + x0 * y0 + x1 * y1 + x2 * y2)
             - (0 + x0 * x0 + x1 * x1 + x2 * x2) * (0 + y0 * y0 + y1 * y1 + y2 * y2))%R
      with (- ((x0 * y1 - x1 * y0) * (x0 * y1 - x1 * y0)
               + (x0 * y2 - x2 * y0) * (x0 * y2 - x2 * y0)
               + (x1 * y2 - x2 * y1) * (x1 * y2 - x2 * y1)))%R by ring.
    lra.
Qed.

Lemma structure_tensor_positive_semidefinite_witness :
  let c := computeCoefficientsGray (uniform 1 1 3%R) (uniform 1 1 (-4)%R) in
  (0 <= at_ (fst (fst c)) 0 0)%R.
Proof.
  intros c.
  assert (Hin : inside (uniform 1 1 3%R) 0 0) by (unfold inside; simpl; lia).
  assert (H3 : intDerivative (at_ (uniform 1 1 3%R) 0 0))
    by (exists 3; split; [reflexivity | lia]).
  assert (H4 : intDerivative (at_ (uniform 1 1 (-4)%R) 0 0))
    by (exists (-4); split; [reflexivity | lia]).
  exact (proj1 (proj1 structure_tensor_positive_semidefinite
                  (uniform 1 1 3%R) (uniform 1 1 (-4)%R) 0 0 Hin H3 H4)).
Defined.
